(** * Covasim: interventions and clustered contact networks

    A shallow embedding of [covasim/interventions.py] and of the clustered
    contact generator of [covasim/population.py], followed by the properties
    established about them.

    Conventions of the embedding:
    - the simulated day [sim.t] is a natural number; schedule days and
      notification delays are integers ([Z]);
    - transmissibilities and test propensities are exact rationals ([Qc]);
      floating-point rounding is not modelled;
    - a Python exception is the [Raise] branch of the [res] monad;
    - Python dictionaries are [gmap]s, sets are [gset]s, and lists indexed
      by position use list lookup, with the [IndexError] written out;
    - the durations of a [sequence] are 64-bit integers, and their running
      sums wrap around as NumPy's do;
    - the global random source is threaded explicitly as a value of an
      abstract type [rng]. *)

From stdpp Require Import base numbers option list strings gmap fin_maps fin_sets.
From Stdlib Require Import ZArith QArith Qcanon Lia.

Local Open Scope Z_scope.

(** ** Exceptions and the error monad *)

Inductive exn : Set :=
  | KeyError | ValueError | IndexError | AssertionError
  | AttributeError | TypeError.

Inductive res (A : Type) : Type :=
  | Ok (a : A)
  | Raise (e : exn).
Arguments Ok {A} a.
Arguments Raise {A} e.

#[global] Instance res_ret : MRet res := λ A a, Ok a.
#[global] Instance res_bind : MBind res := λ A B f m,
  match m with
  | Ok a => f a
  | Raise e => Raise e
  end.

Definition raises {A} (m : res A) : Prop := ∃ e, m = Raise e.

(** [l[i]] for a non-negative index: out of range is an [IndexError]. *)
Definition getitem {A} (l : list A) (i : nat) : res A :=
  match l !! i with
  | Some x => Ok x
  | None => Raise IndexError
  end.

(** [l[i] = x] for a non-negative index. *)
Definition setitem {A} (l : list A) (i : nat) (x : A) : res (list A) :=
  match l !! i with
  | Some _ => Ok (<[i:=x]> l)
  | None => Raise IndexError
  end.

(** Monadic left fold: a [for] loop whose body may raise. *)
Fixpoint for_each {A S} (body : S → A → res S) (xs : list A) (s : S) : res S :=
  match xs with
  | [] => Ok s
  | x :: xs' => s' ← body s x; for_each body xs' s'
  end.

(** [sc.findinds(arr, val)]: the positions of [arr] holding [val]. *)
Fixpoint findinds_from (i : nat) (arr : list Z) (val : Z) : list nat :=
  match arr with
  | [] => []
  | d :: ds =>
      if decide (d = val) then i :: findinds_from (S i) ds val
      else findinds_from (S i) ds val
  end.

Definition findinds (arr : list Z) (val : Z) : list nat := findinds_from 0 arr val.

(** ** Machine integers

    A list of Python integers that fit in 64 bits becomes an [int64] array
    in NumPy, whose arithmetic wraps around silently. *)

Definition int64 (z : Z) : Prop := - 2 ^ 63 ≤ z < 2 ^ 63.

Definition wrap64 (z : Z) : Z := (z + 2 ^ 63) mod 2 ^ 64 - 2 ^ 63.

(** ** Numbers that may be non-finite

    Daily test budgets and the result arrays are floating-point arrays that
    can hold [inf] and [nan]; finite values are counts. *)

Inductive num : Set :=
  | Fin (z : Z)
  | PosInf
  | NegInf
  | NaN.

#[global] Instance num_eq_dec : EqDecision num.
Proof. solve_decision. Defined.

Definition num_add (a b : num) : num :=
  match a, b with
  | NaN, _ | _, NaN => NaN
  | Fin x, Fin y => Fin (x + y)
  | PosInf, NegInf | NegInf, PosInf => NaN
  | PosInf, _ | _, PosInf => PosInf
  | NegInf, _ | _, NegInf => NegInf
  end.

(** Python truthiness of a number: everything but zero ([nan] included). *)
Definition num_truthy (a : num) : bool :=
  match a with
  | Fin z => negb (z =? 0)
  | _ => true
  end.

Definition isfinite (a : num) : bool :=
  match a with
  | Fin _ => true
  | _ => false
  end.

(** ** Simulation state *)

(** A parameter value: a scalar, or a mapping from layer keys to scalars. *)
Inductive value : Type :=
  | VNum (q : Qc)
  | VDict (d : gmap string Qc).

Record Person : Type := {
  symptomatic : bool;
  infectious : bool;
  diagnosed : bool;
  known_contact : bool;
  date_diagnosed : option Z;
  date_known_contact : option Z;
  dyn_cont_ppl : gmap nat Z;
}.

Record Results : Type := {
  new_tests : list num;
  new_diagnoses : list num;
}.

Record Sim : Type := {
  t : nat;
  pars : gmap string value;
  people : list Person;
  results : Results;
}.

Definition set_pars (sim : Sim) (p : gmap string value) : Sim :=
  {| t := t sim; pars := p; people := people sim; results := results sim |}.

Definition set_people (sim : Sim) (ps : list Person) : Sim :=
  {| t := t sim; pars := pars sim; people := ps; results := results sim |}.

Definition set_results (sim : Sim) (r : Results) : Sim :=
  {| t := t sim; pars := pars sim; people := people sim; results := r |}.

Definition set_t (sim : Sim) (day : nat) : Sim :=
  {| t := day; pars := pars sim; people := people sim; results := results sim |}.

(** [sim[key]] *)
Definition sim_getitem (sim : Sim) (key : string) : res value :=
  match pars sim !! key with
  | Some v => Ok v
  | None => Raise KeyError
  end.

(** [sim[key] = v] *)
Definition sim_setitem (sim : Sim) (key : string) (v : value) : Sim :=
  set_pars sim (<[key:=v]> (pars sim)).

(** ** [sequence]: a meta-intervention switching between children *)

Module Sequence.
Section Children.
(** The children are arbitrary interventions; [child_apply] is their
    [apply] method. *)
Context {I : Type} (child_apply : I → Sim → res Sim).

Record sequence : Type := {
  days : list Z;
  interventions : list I;
  _cum_days : list Z;
}.

(** [np.cumsum] of a list of integers: the array is [int64] and its
    running sums wrap around. *)
Fixpoint cumsum_from (acc : Z) (l : list Z) : list Z :=
  match l with
  | [] => []
  | d :: ds => wrap64 (acc + d) :: cumsum_from (wrap64 (acc + d)) ds
  end.

Definition cumsum (l : list Z) : list Z := cumsum_from 0 l.

Definition init (days : list Z) (interventions : list I) : res sequence :=
  if decide (length days = length interventions)
  then Ok {| days := days; interventions := interventions;
             _cum_days := cumsum days |}
  else Raise AssertionError.

(** Position of the first [true], if any. *)
Fixpoint first_true (mask : list bool) : option nat :=
  match mask with
  | [] => None
  | b :: bs => if b then Some 0%nat else S <$> first_true bs
  end.

(** [np.argmax] of a boolean array: the first position of the largest
    entry; an empty array is a [ValueError]. *)
Definition argmax (mask : list bool) : res nat :=
  match mask with
  | [] => Raise ValueError
  | _ => Ok (default 0%nat (first_true mask))
  end.

(** The index computed on the first line of [apply]. *)
Definition dispatch (s : sequence) (day : nat) : res nat :=
  argmax ((λ c, bool_decide (c > Z.of_nat day)) <$> _cum_days s).

Definition apply (s : sequence) (sim : Sim) : res Sim :=
  idx ← dispatch s (t sim);
  child ← getitem (interventions s) idx;
  child_apply child sim.
End Children.
Arguments sequence I : clear implicits.
End Sequence.

(** ** [dynamic_pars]: scheduled parameter edits *)

Module DynamicPars.
(** The subkeys as the caller may give them: a scalar or a list.  (A bare
    mapping given as ['vals'] counts as iterable and is left as it is by
    [__init__]; such a schedule is not among the inputs modelled here: a
    mapping-valued change is given in a list.) *)
Inductive days_arg : Type :=
  | DaysScalar (d : Z)
  | DaysList (l : list Z).

Inductive vals_arg : Type :=
  | ValsScalar (q : Qc)
  | ValsList (l : list value).

(** The dictionary given for one parameter; a subkey may be missing. *)
Record entry : Type := {
  days : option days_arg;
  vals : option vals_arg;
}.

(** After construction every subkey is present and is a list. *)
Record dynamic_pars : Type := {
  pars : list (string * (list Z * list value));
}.

(** [sc.promotetoarray] applied to what is not iterable. *)
Definition promote_days (a : days_arg) : list Z :=
  match a with
  | DaysScalar d => [d]
  | DaysList l => l
  end.

Definition promote_vals (a : vals_arg) : list value :=
  match a with
  | ValsScalar q => [VNum q]
  | ValsList l => l
  end.

(** The checks [__init__] makes for one parameter key. *)
Definition check_entry (e : entry) : res (list Z * list value) :=
  match days e with
  | None => Raise KeyError
  | Some d =>
      match vals e with
      | None => Raise KeyError
      | Some v =>
          if decide (length (promote_days d) = length (promote_vals v))
          then Ok (promote_days d, promote_vals v)
          else Raise ValueError
      end
  end.

Fixpoint check_all (ps : list (string * entry))
    : res (list (string * (list Z * list value))) :=
  match ps with
  | [] => Ok []
  | (parkey, e) :: ps' =>
      dv ← check_entry e;
      rest ← check_all ps';
      Ok ((parkey, dv) :: rest)
  end.

Definition init (ps : list (string * entry)) : res dynamic_pars :=
  checked ← check_all ps;
  Ok {| pars := checked |}.

(** The body of the loop of [apply] for one parameter. *)
Definition apply_one (sim : Sim) (kv : string * (list Z * list value)) : res Sim :=
  let '(parkey, (ds, vs)) := kv in
  match findinds ds (Z.of_nat (t sim)) with
  | [] => Ok sim
  | [ind] =>
      val ← getitem vs ind;
      match val with
      | VDict d =>
          old ← sim_getitem sim parkey;
          match old with
          | VDict o => Ok (sim_setitem sim parkey (VDict (d ∪ o)))
          | VNum _ => Raise AttributeError
          end
      | VNum _ => Ok (sim_setitem sim parkey val)
      end
  | _ :: _ :: _ => Raise ValueError
  end.

Definition apply (dp : dynamic_pars) (sim : Sim) : res Sim :=
  for_each apply_one (pars dp) sim.

(** A schedule given with both subkeys as lists. *)
Definition listed (kv : string * (list Z * list value)) : string * entry :=
  (kv.1, {| days := Some (DaysList kv.2.1); vals := Some (ValsList kv.2.2) |}).

(** Two different entries of [ds] hold the same [day]. *)
Definition duplicate_day (ds : list Z) (day : Z) : Prop :=
  ∃ i j : nat, i ≠ j ∧ ds !! i = Some day ∧ ds !! j = Some day.
End DynamicPars.

(** ** [change_beta]: scale transmissibility from a cached baseline *)

Module ChangeBeta.
Record change_beta : Type := {
  days : list Z;
  changes : list Qc;
  layers : list (option string);
  orig_betas : option (gmap string value);
}.

Definition init (days : list Z) (changes : list Qc)
    (layers : list (option string)) : res change_beta :=
  if decide (length days = length changes)
  then Ok {| days := days; changes := changes; layers := layers;
             orig_betas := None |}
  else Raise ValueError.

Definition set_orig_betas (cb : change_beta) (ob : gmap string value) : change_beta :=
  {| days := days cb; changes := changes cb; layers := layers cb;
     orig_betas := Some ob |}.

(** First run: store the current beta of one configured layer. *)
Definition snapshot_layer (sim : Sim) (ob : gmap string value)
    (layer : option string) : res (gmap string value) :=
  match layer with
  | None =>
      v ← sim_getitem sim "beta";
      Ok (<["overall" := v]> ob)
  | Some l =>
      bl ← sim_getitem sim "beta_layers";
      match bl with
      | VDict d =>
          match d !! l with
          | Some q => Ok (<[l := VNum q]> ob)
          | None => Raise KeyError
          end
      | VNum _ => Raise TypeError
      end
  end.

Definition snapshot (sim : Sim) (ls : list (option string)) : res (gmap string value) :=
  for_each (snapshot_layer sim) ls ∅.

Definition mul_value (v : value) (c : Qc) : res value :=
  match v with
  | VNum q => Ok (VNum (q * c)%Qc)
  | VDict _ => Raise TypeError
  end.

(** The inner loop [for ind in inds: new_beta = new_beta * changes[ind]]. *)
Definition scaled (cb : change_beta) (inds : list nat) (v : value) : res value :=
  for_each (λ new_beta ind, c ← getitem (changes cb) ind; mul_value new_beta c) inds v.

(** One iteration of the loop over [orig_betas.items()]. *)
Definition write_layer (cb : change_beta) (inds : list nat)
    (layer : string) (v : value) (acc : res Sim) : res Sim :=
  sim ← acc;
  new_beta ← scaled cb inds v;
  if decide (layer = "overall") then Ok (sim_setitem sim "beta" new_beta)
  else
    bl ← sim_getitem sim "beta_layers";
    match bl, new_beta with
    | VDict d, VNum q => Ok (sim_setitem sim "beta_layers" (VDict (<[layer := q]> d)))
    | _, _ => Raise TypeError
    end.

Definition apply (cb : change_beta) (sim : Sim) : res (change_beta * Sim) :=
  ob ← match orig_betas cb with
       | Some ob => Ok ob
       | None => snapshot sim (layers cb)
       end;
  let inds := findinds (days cb) (Z.of_nat (t sim)) in
  sim' ← match inds with
         | [] => Ok sim
         | _ => map_fold (write_layer cb inds) (Ok sim) ob
         end;
  Ok (set_orig_betas cb ob, sim').

(** The live beta of a key of [orig_betas]. *)
Definition live_beta (sim : Sim) (layer : string) : option value :=
  if decide (layer = "overall") then pars sim !! "beta"
  else match pars sim !! "beta_layers" with
       | Some (VDict d) => VNum <$> d !! layer
       | _ => None
       end.

(** Product of the change factors at the given positions. *)
Definition factor_product (cb : change_beta) (inds : list nat) : Qc :=
  foldr (λ ind acc, (default 1%Qc (changes cb !! ind) * acc)%Qc) 1%Qc inds.

(** The change factors of the schedule entries whose day is [day], in
    schedule order, and the product of a list of factors. *)
Definition matching_changes (cb : change_beta) (day : Z) : list Qc :=
  (filter (λ dc : Z * Qc, dc.1 = day) (zip (days cb) (changes cb))).*2.

Definition product (factors : list Qc) : Qc := foldr Qcmult 1%Qc factors.
End ChangeBeta.

(** ** Collaborators of the interventions

    [covasim/person.py] and [covasim/utils.py] are used by the interventions
    through a narrow interface; the interventions are embedded over any
    implementation of it. *)

(** The [Person] methods called by the interventions.  [check_diagnosed]
    and [test] may change any field of the person; [trace_dynamic_contacts]
    changes the person's own [dyn_cont_ppl] and is given by the new value of
    that field; [trace_static_contacts] returns a mapping from contact index
    to notification delay. *)
Class PersonAPI (rng : Type) : Type := {
  check_diagnosed : nat → Person → bool * Person;
  test : nat → Qc → Z → Person → rng → Person * rng;
  trace_dynamic_contacts :
    gmap string Qc → gmap string Z → Person → rng → gmap nat Z * rng;
  trace_static_contacts :
    gmap string Qc → gmap string Z → Person → rng → gmap nat Z * rng;
}.

(** [cv.choose_weighted(probs, n, normalize=True)]. *)
Class Sampler (rng : Type) : Type := {
  choose_weighted : list Qc → num → rng → list nat * rng;
}.

(** Modelled from the spec: [choose_weighted] lives in [covasim/utils.py],
    which is not part of the sources at hand.  The WeightedSampler contract
    reads: given non-negative propensities and a requested count n, return
    up to n distinct indices sampled without replacement, with selection
    probability proportional to propensity (an index of propensity zero is
    never drawn; all-zero propensities give the empty result). *)
Record sampler_contract {rng : Type} `{!Sampler rng} : Prop := {
  sampler_support : ∀ probs n g i,
    i ∈ (choose_weighted probs n g).1 →
    ∃ p, probs !! i = Some p ∧ (0 < p)%Qc;
  sampler_distinct : ∀ probs n g, NoDup (choose_weighted probs n g).1;
  sampler_bounded : ∀ probs z g,
    Z.of_nat (length (choose_weighted probs (Fin z) g).1) ≤ Z.max 0 z;
}.
Arguments sampler_contract rng {_}.

(** ** [test_num]: test a fixed number of people per day *)

Module TestNum.
Section WithCollaborators.
Context {rng : Type} `{!PersonAPI rng} `{!Sampler rng}.

Record test_num : Type := {
  daily_tests : list num;
  sympt_test : Qc;
  trace_test : Qc;
  sensitivity : Qc;
  test_delay : Z;
}.

(** The entry of [test_probs] computed for one person. *)
Definition test_prob_of (tn : test_num) (person : Person) : Qc :=
  let p := 1%Qc in
  let p := if symptomatic person then (p * sympt_test tn)%Qc else p in
  let p := if known_contact person then (p * trace_test tn)%Qc else p in
  if diagnosed person then 0%Qc else p.

(** The loop over [enumerate(sim.people)]: the people after
    [check_diagnosed], the array [test_probs] and [new_diagnoses].
    [sim.n] is the number of people, so [test_probs] has one entry per
    person. *)
Fixpoint scan_people (tn : test_num) (day : nat) (ps : list Person)
    : list Person * list Qc * Z :=
  match ps with
  | [] => ([], [], 0)
  | person :: rest =>
      let '(d, person') := check_diagnosed day person in
      let '(ps', probs, nd) := scan_people tn day rest in
      (person' :: ps', test_prob_of tn person' :: probs, Z.b2z d + nd)
  end.

(** The body of the loop over [test_inds]. *)
Definition test_one (tn : test_num) (day : nat) (st : list Person * rng)
    (test_ind : nat) : res (list Person * rng) :=
  person ← getitem st.1 test_ind;
  let '(person', g') := test day (sensitivity tn) (test_delay tn) person st.2 in
  Ok (<[test_ind := person']> st.1, g').

Definition add_new_tests (sim : Sim) (n : num) : res Sim :=
  cur ← getitem (new_tests (results sim)) (t sim);
  Ok (set_results sim
        {| new_tests := <[t sim := num_add cur n]> (new_tests (results sim));
           new_diagnoses := new_diagnoses (results sim) |}).

Definition add_new_diagnoses (sim : Sim) (n : num) : res Sim :=
  cur ← getitem (new_diagnoses (results sim)) (t sim);
  Ok (set_results sim
        {| new_tests := new_tests (results sim);
           new_diagnoses := <[t sim := num_add cur n]> (new_diagnoses (results sim)) |}).

(** The indices drawn on a day on which testing takes place, with the
    people as they are when the draw is made. *)
Definition selection (tn : test_num) (sim : Sim) (n_tests : num) (g : rng)
    : list Person * list nat :=
  let '(ps, probs, _) := scan_people tn (t sim) (people sim) in
  (ps, (choose_weighted probs n_tests g).1).

Definition apply (tn : test_num) (sim : Sim) (g : rng) : res (Sim * rng) :=
  match daily_tests tn !! t sim with
  | None => Ok (sim, g)
  | Some n_tests =>
      sim1 ← add_new_tests sim n_tests;
      if negb (num_truthy n_tests && isfinite n_tests) then Ok (sim1, g)
      else
        let '(ps, test_probs, new_diag) := scan_people tn (t sim) (people sim1) in
        let '(test_inds, g1) := choose_weighted test_probs n_tests g in
        sim2 ← add_new_diagnoses (set_people sim1 ps) (Fin new_diag);
        '(ps', g2) ← for_each (test_one tn (t sim)) test_inds (ps, g1);
        Ok (set_people sim2 ps', g2)
  end.

(** What [apply] computes on a day on which it tests. *)
Definition tested_state (tn : test_num) (sim : Sim) (n_tests cur cur_d : num)
    (ps' : list Person) : Sim :=
  {| t := t sim; pars := pars sim; people := ps';
     results :=
       {| new_tests := <[t sim := num_add cur n_tests]> (new_tests (results sim));
          new_diagnoses :=
            <[t sim := num_add cur_d (Fin (scan_people tn (t sim) (people sim)).2)]>
              (new_diagnoses (results sim)) |} |}.

(** The simulation loop restricted to this intervention: [apply] on the
    days [day], [day + 1], ..., [day + n - 1]. *)
Fixpoint run (tn : test_num) (n : nat) (day : nat) (sim : Sim) (g : rng)
    : res (Sim * rng) :=
  match n with
  | O => Ok (sim, g)
  | S n' =>
      '(sim', g') ← apply tn (set_t sim day) g;
      run tn n' (S day) sim' g'
  end.
End WithCollaborators.
End TestNum.

(** ** [contact_tracing] *)

Module ContactTracing.
Section WithCollaborators.
Context {rng : Type} `{!PersonAPI rng}.

Record contact_tracing : Type := {
  trace_probs : gmap string Qc;
  trace_time : gmap string Z;
  start_day : Z;
  contact_reduction : option Qc;
}.

Definition set_dyn_cont_ppl (p : Person) (d : gmap nat Z) : Person :=
  {| symptomatic := symptomatic p; infectious := infectious p;
     diagnosed := diagnosed p; known_contact := known_contact p;
     date_diagnosed := date_diagnosed p;
     date_known_contact := date_known_contact p;
     dyn_cont_ppl := d |}.

Definition set_date_known_contact (p : Person) (d : option Z) : Person :=
  {| symptomatic := symptomatic p; infectious := infectious p;
     diagnosed := diagnosed p; known_contact := known_contact p;
     date_diagnosed := date_diagnosed p;
     date_known_contact := d;
     dyn_cont_ppl := dyn_cont_ppl p |}.

(** The new [date_known_contact] of a contacted person. *)
Definition update_known_contact (day : nat) (contact_time : Z) (old : option Z)
    : option Z :=
  match old with
  | None => Some (Z.of_nat day + contact_time)
  | Some existing => Some (Z.min existing (Z.of_nat day + contact_time))
  end.

(** The body of the loop over [contactable_ppl.items()]. *)
Definition notify (day : nat) (ps : list Person) (c : nat * Z) : res (list Person) :=
  target_person ← getitem ps c.1;
  Ok (<[c.1 := set_date_known_contact target_person
                 (update_known_contact day c.2 (date_known_contact target_person))]> ps).

(** The mapping looped over for a just-diagnosed person: the static
    contacts updated with the accumulated dynamic ones. *)
Definition contactable_ppl (static : gmap nat Z) (person : Person) : gmap nat Z :=
  dyn_cont_ppl person ∪ static.

(** The body of the loop over [sim.people], for the person at position [k]. *)
Definition trace_person (ct : contact_tracing) (day : nat)
    (st : list Person * rng) (k : nat) : res (list Person * rng) :=
  person ← getitem st.1 k;
  if negb (infectious person) then Ok st
  else
    let '(dyn, g1) := trace_dynamic_contacts (trace_probs ct) (trace_time ct) person st.2 in
    let person1 := set_dyn_cont_ppl person dyn in
    let ps1 := <[k := person1]> st.1 in
    if bool_decide (date_diagnosed person1 = Some (Z.of_nat day - 1)) then
      let '(static, g2) := trace_static_contacts (trace_probs ct) (trace_time ct) person1 g1 in
      ps2 ← for_each (notify day) (map_to_list (contactable_ppl static person1)) ps1;
      Ok (ps2, g2)
    else Ok (ps1, g1).

Definition apply (ct : contact_tracing) (sim : Sim) (g : rng) : res (Sim * rng) :=
  if bool_decide (Z.of_nat (t sim) < start_day ct) then Ok (sim, g)
  else
    '(ps, g') ← for_each (trace_person ct (t sim))
                  (seq 0 (length (people sim))) (people sim, g);
    Ok (set_people sim ps, g').

(** The contacts notified for a person diagnosed the day before, when the
    loop reaches that person with the random source [g]: the static
    contacts updated with the dynamic ones, as the two tracing methods
    return them. *)
Definition traced_contacts (ct : contact_tracing) (person : Person) (g : rng)
    : gmap nat Z :=
  let '(dyn, g1) := trace_dynamic_contacts (trace_probs ct) (trace_time ct) person g in
  let '(static, _) :=
    trace_static_contacts (trace_probs ct) (trace_time ct)
      (set_dyn_cont_ppl person dyn) g1 in
  dyn ∪ static.


(** [p'] knows of a contact no later than [p] does. *)
Definition no_later (p p' : Person) : Prop :=
  ∀ existing, date_known_contact p = Some existing →
    ∃ e', date_known_contact p' = Some e' ∧ e' ≤ existing.

End WithCollaborators.
End ContactTracing.

(** ** Clustered contacts: [make_microstructured_contacts]

    The cluster sizes are Poisson draws; the random source is the list of
    the successive outcomes of [cvu.pt].  The [while] loop takes one draw
    per iteration, so it is defined by recursion on that list: [None] means
    that the draws ran out before everybody was assigned to a cluster. *)

Module Population.

(** [contacts_dict[i].add(j)] on a [defaultdict(set)]. *)
Definition add_contact (i j : nat) (d : gmap nat (gset nat)) : gmap nat (gset nat) :=
  <[i := default ∅ (d !! i) ∪ {[j]}]> d.

(** The body of the two nested loops over [cluster_indices]. *)
Definition add_pair (d : gmap nat (gset nat)) (i j : nat) : gmap nat (gset nat) :=
  if decide (j ≤ i)%nat then d
  else add_contact j i (add_contact i j d).

Definition add_cluster (cluster_indices : list nat) (d : gmap nat (gset nat))
    : gmap nat (gset nat) :=
  foldl (λ d' i, foldl (λ d'' j, add_pair d'' i j) d' cluster_indices)
        d cluster_indices.

(** The loop [while n_remaining > 0]. *)
Fixpoint fill_clusters (pop_size n_remaining : nat) (d : gmap nat (gset nat))
    (draws : list nat) {struct draws} : option (gmap nat (gset nat) * list nat) :=
  match n_remaining with
  | O => Some (d, draws)
  | S _ =>
      match draws with
      | [] => None
      | drawn :: draws' =>
          let this_cluster :=
            if decide (n_remaining < drawn)%nat then n_remaining else drawn in
          let cluster_indices := seq (pop_size - n_remaining) this_cluster in
          fill_clusters pop_size (n_remaining - this_cluster)
            (add_cluster cluster_indices d) draws'
      end
  end.

(** [contacts_list[key][layer_name] = np.array(list(contacts_dict[key]))] *)
Definition store_key (layer_name : string) (key : nat) (s : gset nat)
    (acc : res (list (gmap string (list nat)))) : res (list (gmap string (list nat))) :=
  cl ← acc;
  entry ← getitem cl key;
  Ok (<[key := <[layer_name := elements s]> entry]> cl).

Definition store_layer (layer_name : string) (d : gmap nat (gset nat))
    (cl : list (gmap string (list nat))) : res (list (gmap string (list nat))) :=
  map_fold (store_key layer_name) (Ok cl) d.

(** The loop over [contacts.items()]. *)
Fixpoint make_layers (pop_size : nat) (layers : list (string * Qc))
    (cl : list (gmap string (list nat))) (draws : list nat)
    : option (res (list (gmap string (list nat)) * list nat)) :=
  match layers with
  | [] => Some (Ok (cl, draws))
  | (layer_name, cluster_size) :: layers' =>
      match fill_clusters pop_size pop_size ∅ draws with
      | None => None
      | Some (contacts_dict, draws') =>
          match store_layer layer_name contacts_dict cl with
          | Ok cl' => make_layers pop_size layers' cl' draws'
          | Raise e => Some (Raise e)
          end
      end
  end.

(** The result: [contacts_list], [contact_keys] and the unused draws. *)
Definition make_microstructured_contacts (pop_size : nat)
    (contacts : gmap string Qc) (draws : list nat)
    : option (res (list (gmap string (list nat)) * list string * list nat)) :=
  let contacts := delete "c" contacts in
  let contact_keys := (map_to_list contacts).*1 in
  let contacts_list := replicate pop_size ((λ _, []) <$> contacts) in
  match make_layers pop_size (map_to_list contacts) contacts_list draws with
  | None => None
  | Some (Ok (cl, draws')) => Some (Ok (cl, contact_keys, draws'))
  | Some (Raise e) => Some (Raise e)
  end.

(** The neighbours of agent [i] in a layer. *)
Definition neighbors (cl : list (gmap string (list nat))) (i : nat)
    (layer : string) : list nat :=
  match cl !! i with
  | Some entry => default [] (entry !! layer)
  | None => []
  end.

(** [j] has been recorded as a contact of [i]. *)
Definition linked (d : gmap nat (gset nat)) (i j : nat) : Prop :=
  ∃ s, d !! i = Some s ∧ j ∈ s.

(** The invariant of [contacts_dict]: links go both ways, nobody is linked
    to themselves, and all keys and contacts are below [pop_size]. *)
Record clustered (pop_size : nat) (d : gmap nat (gset nat)) : Prop := {
  clustered_sym : ∀ i j, linked d i j → linked d j i;
  clustered_irrefl : ∀ i, ¬ linked d i i;
  clustered_keys : ∀ i s, d !! i = Some s → (i < pop_size)%nat;
}.

(** A well-formed layer of a contact list: symmetric, without
    self-contacts and without repeated contacts. *)
Record layer_ok (cl : list (gmap string (list nat))) (layer : string) : Prop := {
  layer_sym : ∀ i j, j ∈ neighbors cl i layer ↔ i ∈ neighbors cl j layer;
  layer_no_self : ∀ i, i ∉ neighbors cl i layer;
  layer_no_dup : ∀ i, NoDup (neighbors cl i layer);
}.

(** [make_random_contacts], with the outcome of [cvu.choose] for each
    person and layer given by [chosen]. *)
Definition make_random_contacts (pop_size : nat) (contacts : gmap string Qc)
    (chosen : nat → string → list nat)
    : list (gmap string (list nat)) * list string :=
  let contacts := delete "c" contacts in
  ((λ p, map_imap (λ key _, Some (chosen p key)) contacts) <$> seq 0 pop_size,
   (map_to_list contacts).*1).
End Population.

(** * The other interventions and population models *)

(** ** Vocabulary of the statements about [dynamic_pars]

    What the caller gives for one parameter is well formed when both
    subkeys are present and there are as many days as values. *)
Definition well_formed_entry (e : DynamicPars.entry) : Prop :=
  ∃ d v, DynamicPars.days e = Some d ∧ DynamicPars.vals e = Some v ∧
         length (DynamicPars.promote_days d) = length (DynamicPars.promote_vals v).

(** ** Further collaborators *)

(** [cv.bt(prob)]: one Bernoulli draw from the random source. *)
Class Bernoulli (rng : Type) : Type := {
  bt : Qc → rng → bool * rng;
}.

(** [Person.test(t, test_sensitivity, loss_prob, test_delay)], with the
    probability of loss to follow-up given. *)
Class PersonTestLoss (rng : Type) : Type := {
  test_with_loss : nat → Qc → Qc → Z → Person → rng → Person * rng;
}.

(** ** [test_prob]: test everybody with a probability *)

Module TestProb.
Section WithCollaborators.
Context {rng : Type} `{!PersonAPI rng} `{!Bernoulli rng} `{!PersonTestLoss rng}.

Record test_prob : Type := {
  symptomatic_prob : Qc;
  asymptomatic_prob : Qc;
  test_sensitivity : Qc;
  loss_prob : Qc;
  test_delay : Z;
  start_day : Z;
}.

(** The condition of the [if]: [(symptomatic and bt(p_s)) or (not
    symptomatic and bt(p_a))].  [and] and [or] evaluate their right operand
    only when needed, so exactly one draw is made, with the probability
    that goes with the person's state. *)
Definition test_decision (tp : test_prob) (person : Person) (g : rng) : bool * rng :=
  if symptomatic person then bt (symptomatic_prob tp) g
  else bt (asymptomatic_prob tp) g.

Definition incr_new_tests (sim : Sim) : res Sim :=
  cur ← getitem (new_tests (results sim)) (t sim);
  Ok (set_results sim
        {| new_tests := <[t sim := num_add cur (Fin 1)]> (new_tests (results sim));
           new_diagnoses := new_diagnoses (results sim) |}).

(** The body of the loop over [sim.people], for the person at position
    [k]; the state holds the simulation, [new_diagnoses] and the random
    source. *)
Definition visit (tp : test_prob) (st : Sim * Z * rng) (k : nat) : res (Sim * Z * rng) :=
  let '(sim, new_diag, g) := st in
  person ← getitem (people sim) k;
  let '(d, person1) := check_diagnosed (t sim) person in
  let sim1 := set_people sim (<[k := person1]> (people sim)) in
  let '(go, g1) := test_decision tp person1 g in
  if go then
    sim2 ← incr_new_tests sim1;
    let '(person2, g2) :=
      test_with_loss (t sim) (test_sensitivity tp) (loss_prob tp) (test_delay tp) person1 g1 in
    Ok (set_people sim2 (<[k := person2]> (people sim2)), new_diag + Z.b2z d, g2)
  else Ok (sim1, new_diag + Z.b2z d, g1).

Definition apply (tp : test_prob) (sim : Sim) (g : rng) : res (Sim * rng) :=
  if bool_decide (Z.of_nat (t sim) < start_day tp) then Ok (sim, g)
  else
    '(sim1, new_diag, g1) ← for_each (visit tp) (seq 0 (length (people sim))) (sim, 0, g);
    cur ← getitem (new_diagnoses (results sim1)) (t sim1);
    Ok (set_results sim1
          {| new_tests := new_tests (results sim1);
             new_diagnoses :=
               <[t sim1 := num_add cur (Fin new_diag)]> (new_diagnoses (results sim1)) |},
        g1).

(** What holds after the loop has visited the positions below [k], where
    [tested] lists the positions whose [test] method was called. *)
Record visited (tp : test_prob) (sim : Sim) (k : nat) (st : Sim * Z * rng)
    (tested : list nat) : Prop := {
  visited_pars : pars st.1.1 = pars sim;
  visited_t : t st.1.1 = t sim;
  visited_len : length (people st.1.1) = length (people sim);
  visited_diag : new_diagnoses (results st.1.1) = new_diagnoses (results sim);
  visited_count :
    st.1.2 = Z.of_nat (length (filter (λ p, (check_diagnosed (t sim) p).1 = true)
                                      (take k (people sim))));
  visited_tested : NoDup tested ∧ ∀ i, i ∈ tested → (i < k)%nat;
  visited_tests_len :
    length (new_tests (results st.1.1)) = length (new_tests (results sim));
  visited_tests_other : ∀ j, j ≠ t sim →
    new_tests (results st.1.1) !! j = new_tests (results sim) !! j;
  visited_tests_day : ∀ cur, new_tests (results sim) !! t sim = Some cur →
    new_tests (results st.1.1) !! t sim =
      Some (num_add cur (Fin (Z.of_nat (length tested))));
  visited_rest : ∀ i, (k ≤ i)%nat → people st.1.1 !! i = people sim !! i;
  visited_people : ∀ i p, (i < k)%nat → people sim !! i = Some p →
    (i ∈ tested ∧
     ∃ g_i, people st.1.1 !! i =
            Some (test_with_loss (t sim) (test_sensitivity tp) (loss_prob tp)
                    (test_delay tp) (check_diagnosed (t sim) p).2 g_i).1) ∨
    ((i ∉ tested) ∧ people st.1.1 !! i = Some (check_diagnosed (t sim) p).2);
}.

(** What happened to the person at position [i], [p] before the call, when
    the loop reached them with the random source [g_i]: one draw of [bt],
    with the probability that goes with the person's symptoms after
    [check_diagnosed], decides whether they are tested. *)
Definition drawn_at (tp : test_prob) (day : nat) (tested : list nat) (gs : list rng)
    (ps : list Person) (i : nat) (p : Person) (g_i : rng) : Prop :=
  let person := (check_diagnosed day p).2 in
  let draw := bt (if symptomatic person then symptomatic_prob tp
                  else asymptomatic_prob tp) g_i in
  let tested_person :=
    test_with_loss day (test_sensitivity tp) (loss_prob tp) (test_delay tp)
      person draw.2 in
  (i ∈ tested ↔ draw.1 = true) ∧
  gs !! S i = Some (if draw.1 then tested_person.2 else draw.2) ∧
  ps !! i = Some (if draw.1 then tested_person.1 else person).

(** The random sources of the loop: [gs !! i] is the one with which the
    person at position [i] is reached. *)
Record drawn (tp : test_prob) (sim : Sim) (g0 : rng) (k : nat) (st : Sim * Z * rng)
    (tested : list nat) (gs : list rng) : Prop := {
  drawn_len : length gs = S k;
  drawn_first : gs !! 0%nat = Some g0;
  drawn_last : gs !! k = Some st.2;
  drawn_step : ∀ i p g_i, (i < k)%nat → people sim !! i = Some p → gs !! i = Some g_i →
    drawn_at tp (t sim) tested gs (people st.1.1) i p g_i;
}.
End WithCollaborators.
End TestProb.

(** ** [test_historical]: replay recorded numbers of tests and positives

    The recorded counts are integers here; [person.test(t,
    test_sensitivity=1.0)] is the collaborator's [test] with sensitivity 1
    and no delay. *)

Module TestHistorical.
Section WithCollaborators.
Context {rng : Type} `{!PersonAPI rng} `{!Sampler rng}.

Record test_historical : Type := {
  n_tests : list Z;
  n_positive : list Z;
}.

(** The weight arrays: 1 for the infectious, and the complement. *)
Definition positive_tests (ps : list Person) : list Qc :=
  (λ person : Person, if infectious person then 1%Qc else 0%Qc) <$> ps.

Definition negative_tests (ps : list Person) : list Qc :=
  (λ w, (1 - w)%Qc) <$> positive_tests ps.

(** [sum(positive_tests)] and [sum(negative_tests)]. *)
Definition count_positive (ps : list Person) : Z :=
  Z.of_nat (length (filter (λ person, infectious person = true) ps)).

Definition count_negative (ps : list Person) : Z :=
  Z.of_nat (length (filter (λ person, infectious person = false) ps)).

(** The body of the loop over [positive_inds]. *)
Definition test_positive (st : Sim * rng) (ind : nat) : res (Sim * rng) :=
  person ← getitem (people st.1) ind;
  let '(person', g') := test (t st.1) 1%Qc 0 person st.2 in
  let sim1 := set_people st.1 (<[ind := person']> (people st.1)) in
  cur ← getitem (new_diagnoses (results sim1)) (t sim1);
  Ok (set_results sim1
        {| new_tests := new_tests (results sim1);
           new_diagnoses := <[t sim1 := num_add cur (Fin 1)]> (new_diagnoses (results sim1)) |},
      g').

(** The body of the loop over [negative_inds]. *)
Definition test_negative (st : Sim * rng) (ind : nat) : res (Sim * rng) :=
  person ← getitem (people st.1) ind;
  let '(person', g') := test (t st.1) 1%Qc 0 person st.2 in
  Ok (set_people st.1 (<[ind := person']> (people st.1)), g').

(** The two draws, made before anybody is tested. *)
Definition pools (th : test_historical) (sim : Sim) (todays_tests todays_positive : Z)
    (g : rng) : list nat * list nat * rng :=
  let '(positive_inds, g1) :=
    choose_weighted (positive_tests (people sim))
      (Fin (Z.min (count_positive (people sim)) todays_positive)) g in
  let '(negative_inds, g2) :=
    choose_weighted (negative_tests (people sim))
      (Fin (Z.min (count_negative (people sim))
                  (todays_tests - Z.of_nat (length positive_inds)))) g1 in
  (positive_inds, negative_inds, g2).

Definition apply (th : test_historical) (sim : Sim) (g : rng) : res (Sim * rng) :=
  todays_tests ← getitem (n_tests th) (t sim);
  if decide (todays_tests = 0) then Ok (sim, g)
  else
    todays_positive ← getitem (n_positive th) (t sim);
    let '(positive_inds, negative_inds, g2) := pools th sim todays_tests todays_positive g in
    st1 ← for_each test_positive positive_inds (sim, g2);
    st2 ← for_each test_negative negative_inds st1;
    cur ← getitem (new_tests (results st2.1)) (t st2.1);
    Ok (set_results st2.1
          {| new_tests := <[t st2.1 := num_add cur (Fin todays_tests)]> (new_tests (results st2.1));
             new_diagnoses := new_diagnoses (results st2.1) |},
        st2.2).
End WithCollaborators.
End TestHistorical.

(** ** Vocabulary of the statements about contact tracing and contacts *)

(** [p'] differs from [p] at most in the two fields that contact tracing
    writes; dynamic contacts are only recorded for the infectious. *)
Definition traced_from (p p' : Person) : Prop :=
  symptomatic p' = symptomatic p ∧ infectious p' = infectious p ∧
  diagnosed p' = diagnosed p ∧ known_contact p' = known_contact p ∧
  date_diagnosed p' = date_diagnosed p ∧
  (infectious p = false → dyn_cont_ppl p' = dyn_cont_ppl p).

(** [q] is [p] except, possibly, for the date of the known contact. *)
Definition same_but_date (p q : Person) : Prop :=
  symptomatic q = symptomatic p ∧ infectious q = infectious p ∧
  diagnosed q = diagnosed p ∧ known_contact q = known_contact p ∧
  date_diagnosed q = date_diagnosed p ∧ dyn_cont_ppl q = dyn_cont_ppl p.

Definition people_traced_from (ps ps' : list Person) : Prop :=
  length ps' = length ps ∧
  ∀ i p, ps !! i = Some p → ∃ p', ps' !! i = Some p' ∧ traced_from p p'.

(** The links of [contacts_dict] form cliques of consecutive agents, all
    below [bound]. *)
Record cliques (bound : nat) (d : gmap nat (gset nat)) : Prop := {
  cliques_bound : ∀ i j, Population.linked d i j → (i < bound)%nat ∧ (j < bound)%nat;
  cliques_trans : ∀ i j k,
    Population.linked d i j → Population.linked d j k → i ≠ k → Population.linked d i k;
  cliques_convex : ∀ i j k,
    Population.linked d i j → (i < k < j)%nat → Population.linked d i k;
}.

(** The same for a stored layer of a contact list. *)
Record layer_cliques (pop_size : nat) (cl : list (gmap string (list nat)))
    (layer : string) : Prop := {
  layer_bound : ∀ i j, j ∈ Population.neighbors cl i layer →
    (i < pop_size)%nat ∧ (j < pop_size)%nat;
  layer_trans : ∀ i j k,
    j ∈ Population.neighbors cl i layer → k ∈ Population.neighbors cl j layer →
    i ≠ k → k ∈ Population.neighbors cl i layer;
  layer_convex : ∀ i j k,
    j ∈ Population.neighbors cl i layer → (i < k < j)%nat →
    k ∈ Population.neighbors cl i layer;
}.

(** ** [make_realistic_contacts]: households, schools and workplaces *)

(** [d[key]] on a dictionary: a missing key is a [KeyError]. *)
Definition dict_getitem {A} (d : gmap string A) (key : string) : res A :=
  match d !! key with
  | Some x => Ok x
  | None => Raise KeyError
  end.

(** [sc.findinds(mask)] for a boolean array: the positions holding [True]. *)
Fixpoint findinds_mask_from (i : nat) (mask : list bool) : list nat :=
  match mask with
  | [] => []
  | b :: mask' =>
      if b then i :: findinds_mask_from (S i) mask'
      else findinds_mask_from (S i) mask'
  end.

Definition findinds_mask (mask : list bool) : list nat := findinds_mask_from 0 mask.

Module Realistic.

Definition contact_keys : list string := ["h"; "s"; "w"].

(** [{'h':4, 's':20, 'w':20}], the essential keys. *)
Definition essential : gmap string Qc :=
  <["h" := Q2Qc 4]> (<["s" := Q2Qc 20]> (<["w" := Q2Qc 20]> ∅)).

(** [sc.mergedicts(essential, contacts)]: the keys of [contacts] win. *)
Definition mergedicts (contacts : gmap string Qc) : gmap string Qc :=
  contacts ∪ essential.

Definition default_school_ages : list Qc := [Q2Qc 6; Q2Qc 18].
Definition default_work_ages : list Qc := [Q2Qc 18; Q2Qc 65].

(** [{key:[] for key in contact_keys}] *)
Definition empty_entry : gmap string (list nat) :=
  <["h" := []]> (<["s" := []]> (<["w" := []]> ∅)).

(** [(ages >= lo) * (ages < hi)] *)
Definition age_mask (ages : list Qc) (lo hi : Qc) : list bool :=
  (λ age, bool_decide (lo ≤ age)%Qc && bool_decide (age < hi)%Qc) <$> ages.

(** [sc.findinds((ages >= band[0]) * (ages < band[1]))] *)
Definition age_inds (ages : list Qc) (band : list Qc) : res (list nat) :=
  lo ← getitem band 0;
  hi ← getitem band 1;
  Ok (findinds_mask (age_mask ages lo hi)).

(** [contacts_list[ind][key] = source[i][key]]: the right-hand side is
    evaluated first. *)
Definition copy_layer (key : string) (source : list (gmap string (list nat)))
    (cl : list (gmap string (list nat))) (i_ind : nat * nat)
    : res (list (gmap string (list nat))) :=
  source_entry ← getitem source i_ind.1;
  v ← dict_getitem source_entry key;
  entry ← getitem cl i_ind.2;
  Ok (<[i_ind.2 := <[key := v]> entry]> cl).

(** [enumerate(inds)] *)
Definition enumerate (inds : list nat) : list (nat * nat) := imap pair inds.

(** Everything after the household contacts have been made.  [chosen_s]
    and [chosen_w] give the outcomes of [cvu.choose] in the two calls of
    [make_random_contacts]. *)
Definition assemble (pop_size : nat) (ages : list Qc) (contacts : gmap string Qc)
    (school_ages work_ages : list Qc)
    (h_contacts : list (gmap string (list nat)))
    (chosen_s chosen_w : nat → string → list nat)
    : res (list (gmap string (list nat)) * list string) :=
  let contacts_list := replicate pop_size empty_entry in
  s_inds ← age_inds ages school_ages;
  w_inds ← age_inds ages work_ages;
  s ← dict_getitem contacts "s";
  let s_contacts :=
    (Population.make_random_contacts (length s_inds) (<["s" := s]> ∅) chosen_s).1 in
  w ← dict_getitem contacts "w";
  let w_contacts :=
    (Population.make_random_contacts (length w_inds) (<["w" := w]> ∅) chosen_w).1 in
  cl1 ← for_each (copy_layer "h" h_contacts) ((λ i, (i, i)) <$> seq 0 pop_size) contacts_list;
  cl2 ← for_each (copy_layer "s" s_contacts) (enumerate s_inds) cl1;
  cl3 ← for_each (copy_layer "w" w_contacts) (enumerate w_inds) cl2;
  Ok (cl3, contact_keys).

(** [None] for [school_ages] or [work_ages] stands for the default band;
    [draws] are the Poisson draws of the household clusters. *)
Definition make_realistic_contacts (pop_size : nat) (ages : list Qc)
    (contacts : gmap string Qc) (school_ages work_ages : option (list Qc))
    (draws : list nat) (chosen_s chosen_w : nat → string → list nat)
    : option (res (list (gmap string (list nat)) * list string)) :=
  let contacts := mergedicts contacts in
  let school_ages := default default_school_ages school_ages in
  let work_ages := default default_work_ages work_ages in
  match dict_getitem contacts "h" with
  | Raise e => Some (Raise e)
  | Ok h =>
      match Population.make_microstructured_contacts pop_size (<["h" := h]> ∅) draws with
      | None => None
      | Some (Raise e) => Some (Raise e)
      | Some (Ok (h_contacts, _, _)) =>
          Some (assemble pop_size ages contacts school_ages work_ages
                  h_contacts chosen_s chosen_w)
      end
  end.

(** The school-age and working-age positions of a call. *)
Definition band_inds (ages : list Qc) (band : option (list Qc))
    (default_band : list Qc) : list nat :=
  match age_inds ages (default default_band band) with
  | Ok inds => inds
  | Raise _ => []
  end.

End Realistic.

(** ** [make_synthpop]: a population read from synthpops

    [sp.make_population] is not part of this code: its result, a dictionary
    from uid to a person with an age, a sex and a dictionary of contacts
    per layer, is the input here, as the list of its items in iteration
    order. *)

Module Synthpop.

Record sp_person : Type := {
  sp_age : Qc;
  sp_sex : Z;
  sp_contacts : list (string * list string);
}.

Record popdict : Type := {
  uid : list string;
  age : list Qc;
  sex : list Z;
  contacts : list (gmap string (list nat));
  contact_keys : list string;
}.

(** [{uid:u for u,uid in enumerate(uids)}], starting the count at [u]. *)
Fixpoint uid_mapping_from (u : nat) (uids : list string) (m : gmap string nat)
    : gmap string nat :=
  match uids with
  | [] => m
  | uid :: uids' => uid_mapping_from (S u) uids' (<[uid := u]> m)
  end.

Definition uid_mapping (uids : list string) : gmap string nat :=
  uid_mapping_from 0 uids ∅.

(** [{'H':'h', 'S':'s', 'W':'w', 'C':'c'}] *)
Definition key_mapping_items : list (string * string) :=
  [("H", "h"); ("S", "s"); ("W", "w"); ("C", "c")].

Definition key_mapping : gmap string string := list_to_map key_mapping_items.

(** The body of the loop over [uid_contacts.keys()]. *)
Definition convert_layer (mapping : gmap string nat) (int_contacts : gmap string (list nat))
    (layer : string * list string) : res (gmap string (list nat)) :=
  new_key ← dict_getitem key_mapping layer.1;
  ints ← mapM (dict_getitem mapping) layer.2;
  Ok (<[new_key := ints]> int_contacts).

(** The body of the second loop over [population.items()]. *)
Definition convert_person (mapping : gmap string nat) (person : sp_person)
    : res (gmap string (list nat)) :=
  for_each (convert_layer mapping) (sp_contacts person) ∅.

Definition make_synthpop (population : list (string * sp_person)) : res popdict :=
  let uids := population.*1 in
  let ages := (λ item, sp_age item.2) <$> population in
  let sexes := (λ item, sp_sex item.2) <$> population in
  let mapping := uid_mapping uids in
  contacts ← mapM (λ item, convert_person mapping item.2) population;
  Ok {| uid := uids; age := ages; sex := sexes; contacts := contacts;
        contact_keys := key_mapping_items.*2 |}.

(** The population names only the four layers and only its own members. *)
Definition well_formed (population : list (string * sp_person)) : Prop :=
  ∀ item layer, item ∈ population → layer ∈ sp_contacts item.2 →
    is_Some (key_mapping !! layer.1) ∧
    ∀ contact, contact ∈ layer.2 → contact ∈ population.*1.

End Synthpop.

(** ** [People]: a list of people with filters

    [Person] is defined elsewhere; [getattr(person, attr)] is a
    collaborator that gives the attribute's value or raises
    [AttributeError], and [truthy] is Python's truth value of it. *)

Class PersonAttrs (V : Type) : Type := {
  getattr : Person → string → res V;
  truthy : V → bool;
}.

Module People.
Section WithAttrs.
Context {V : Type} `{!PersonAttrs V}.

(** [list(filter(lambda person: keep(getattr(person, attr)), self))]: the
    iterator is consumed from the front, so the first person without the
    attribute raises. *)
Fixpoint consume (keep : bool → bool) (attr : string) (self : list Person)
    : res (list Person) :=
  match self with
  | [] => Ok []
  | person :: rest =>
      v ← getattr person attr;
      kept ← consume keep attr rest;
      Ok (if keep (truthy v) then person :: kept else kept)
  end.

Definition filter_in (attr : string) (self : list Person) : res (list Person) :=
  consume id attr self.

Definition filter_out (attr : string) (self : list Person) : res (list Person) :=
  consume negb attr self.

Definition count_in (attr : string) (self : list Person) : res nat :=
  kept ← filter_in attr self; Ok (length kept).

Definition count_out (attr : string) (self : list Person) : res nat :=
  kept ← filter_out attr self; Ok (length kept).

Definition extract (attr : string) (self : list Person) : res (list V) :=
  mapM (λ person, getattr person attr) self.

Definition keys (self : list Person) : list nat := seq 0 (length self).

End WithAttrs.
End People.

(** ** [parameters.py]: the parameter dictionary *)

Module Parameters.

(** A duration distribution, [{'dist':..., 'par1':..., 'par2':...}]. *)
Record distribution : Type := {
  dist : string;
  par1 : Qc;
  par2 : Qc;
}.

(** The dictionary of prognosis arrays. *)
Record prognoses : Type := {
  age_cutoffs : list Qc;
  symp_probs : list Qc;
  severe_probs : list Qc;
  crit_probs : list Qc;
  death_probs : list Qc;
}.

(** The values held by the parameter dictionary; [PObject] stands for any
    other object a caller supplies. *)
Inductive pval : Type :=
  | PNone
  | PBool (b : bool)
  | PNum (q : Qc)
  | PInf
  | PStr (s : string)
  | PEmptyList
  | PLayers (d : gmap string Qc)
  | PDurations (d : gmap string distribution)
  | PPrognoses (p : prognoses)
  | PObject (n : nat).

(** Python's truth value. *)
Definition pval_truthy (v : pval) : bool :=
  match v with
  | PNone => false
  | PBool b => b
  | PNum q => negb (bool_decide (q = 0%Qc))
  | PInf => true
  | PStr s => negb (bool_decide (s = EmptyString))
  | PEmptyList => false
  | PLayers d => negb (bool_decide (d = ∅))
  | PDurations d => negb (bool_decide (d = ∅))
  | PPrognoses _ => true
  | PObject _ => true
  end.

(** A decimal with five places, and an integer. *)
Definition dec5 (n : Z) : Qc := Q2Qc (n # 100000).
Definition int (n : Z) : Qc := Q2Qc (inject_Z n).

(** A dictionary built by assignments in the order given. *)
Definition assign {A} (items : list (string * A)) : gmap string A :=
  foldl (λ d item, <[item.1 := item.2]> d) ∅ items.

(** The prognosis tables as written, before they are made conditional. *)
Definition overall (by_age : bool) : prognoses :=
  let max_age := int 120 in
  if negb by_age then
    {| age_cutoffs := [max_age];
       symp_probs := [dec5 75000];
       severe_probs := [dec5 20000];
       crit_probs := [dec5 8000];
       death_probs := [dec5 2000] |}
  else
    {| age_cutoffs := [int 10; int 20; int 30; int 40; int 50; int 60; int 70; int 80;
                       max_age];
       symp_probs := [dec5 50000; dec5 55000; dec5 60000; dec5 65000; dec5 70000;
                      dec5 75000; dec5 80000; dec5 85000; dec5 90000];
       severe_probs := [dec5 100; dec5 100; dec5 1100; dec5 3400; dec5 4300;
                        dec5 8200; dec5 11800; dec5 16600; dec5 18400];
       crit_probs := [dec5 4; dec5 11; dec5 50; dec5 123; dec5 214;
                      dec5 800; dec5 2750; dec5 6000; dec5 10333];
       death_probs := [dec5 2; dec5 6; dec5 30; dec5 80; dec5 150;
                       dec5 600; dec5 2200; dec5 5100; dec5 9300] |}.

(** [a /= b] on arrays of the same length, in exact arithmetic: the
    floating-point quotients of the code differ from these by rounding. *)
Definition divide (a b : list Qc) : list Qc := zip_with Qcdiv a b.

Definition get_prognoses (by_age : bool) : prognoses :=
  let prognoses := overall by_age in
  let death_probs' := divide (death_probs prognoses) (crit_probs prognoses) in
  let crit_probs' := divide (crit_probs prognoses) (severe_probs prognoses) in
  let severe_probs' := divide (severe_probs prognoses) (symp_probs prognoses) in
  {| age_cutoffs := age_cutoffs prognoses;
     symp_probs := symp_probs prognoses;
     severe_probs := severe_probs';
     crit_probs := crit_probs';
     death_probs := death_probs' |}.

Definition layered_contacts : gmap string Qc :=
  assign [("h", int 4); ("s", int 10); ("w", int 10); ("c", int 20)].

Definition layered_beta : gmap string Qc :=
  assign [("h", dec5 170000); ("s", dec5 80000); ("w", dec5 80000); ("c", dec5 30000)].

Definition all_contacts : gmap string Qc := assign [("a", int 20)].

Definition all_beta : gmap string Qc := assign [("a", int 1)].

Definition set_contacts (pars : gmap string pval) : res (gmap string pval) :=
  use_layers ← dict_getitem pars "use_layers";
  if pval_truthy use_layers then
    Ok (<["beta_layers" := PLayers layered_beta]>
          (<["contacts" := PLayers layered_contacts]> pars))
  else
    Ok (<["beta_layers" := PLayers all_beta]>
          (<["contacts" := PLayers all_contacts]> pars)).

Definition lognormal_int (p1 p2 : Z) : distribution :=
  {| dist := "lognormal_int"; par1 := int p1; par2 := int p2 |}.

Definition durations : gmap string distribution :=
  assign [("exp2inf", lognormal_int 4 1);
          ("inf2sym", lognormal_int 1 1);
          ("sym2sev", lognormal_int 1 1);
          ("sev2crit", lognormal_int 1 1);
          ("asym2rec", lognormal_int 8 2);
          ("mild2rec", lognormal_int 8 2);
          ("sev2rec", lognormal_int 11 3);
          ("crit2rec", lognormal_int 17 3);
          ("crit2die", lognormal_int 7 3)].

(** The assignments of [make_pars] before [pars.update(kwargs)], in the
    order of the source. *)
Definition default_items (prog_by_age use_layers : bool) : list (string * pval) :=
  [("pop_size", PNum (int 20000));
   ("pop_infected", PNum (int 10));
   ("pop_scale", PNum (int 1));
   ("pop_type", PStr "random");
   ("start_day", PStr "2020-03-01");
   ("n_days", PNum (int 60));
   ("rand_seed", PNum (int 1));
   ("verbose", PNum (int 1));
   ("n_imports", PNum (int 0));
   ("beta", PNum (dec5 1500));
   ("asymp_factor", PNum (dec5 80000));
   ("diag_factor", PNum (int 0));
   ("cont_factor", PNum (int 1));
   ("use_layers", PBool use_layers);
   ("contacts", PNone);
   ("beta_layers", PNone);
   ("asymp_factor", PNum (dec5 80000));
   ("diag_factor", PNum (int 0));
   ("quar_trans_factor", PNum (int 1));
   ("quar_acq_factor", PNum (int 0));
   ("quarantine_period", PNum (int 14));
   ("dur", PDurations durations);
   ("OR_no_treat", PNum (int 2));
   ("rel_symp_prob", PNum (int 1));
   ("rel_severe_prob", PNum (int 1));
   ("rel_crit_prob", PNum (int 1));
   ("rel_death_prob", PNum (int 1));
   ("prog_by_age", PBool prog_by_age);
   ("prognoses", PNone);
   ("interventions", PEmptyList);
   ("interv_func", PNone);
   ("timelimit", PNum (int 3600));
   ("stopping_func", PNone);
   ("n_beds", PInf)].

Definition defaults (prog_by_age use_layers : bool) : gmap string pval :=
  assign (default_items prog_by_age use_layers).

(** [make_pars(set_prognoses, prog_by_age, use_layers, **kwargs)]; the
    three named arguments are booleans, and [kwargs] holds the others. *)
Definition make_pars (set_prognoses prog_by_age use_layers : bool)
    (kwargs : gmap string pval) : res (gmap string pval) :=
  let pars := defaults prog_by_age use_layers in
  let pars := kwargs ∪ pars in
  pars ← set_contacts pars;
  if set_prognoses then
    by_age ← dict_getitem pars "prog_by_age";
    Ok (<["prognoses" := PPrognoses (get_prognoses (pval_truthy by_age))]> pars)
  else Ok pars.

End Parameters.

(** * Sample inputs *)

Definition sim0 : Sim :=
  {| t := 0; pars := ∅; people := [];
     results := {| new_tests := []; new_diagnoses := [] |} |}.

(** Two children told apart by the day they leave in the state. *)
Definition mark_child (c : nat) (sim : Sim) : res Sim := Ok (set_t sim c).


Definition half : Qc := Q2Qc (1 # 2).

(** Two values scheduled for the parameter ["beta"], both on day 10. *)
Definition dup_schedule : list (string * (list Z * list value)) :=
  [("beta", ([10; 10], [VNum half; VNum 1%Qc]))].

(** The default transmissibility 0.015, cached as the overall baseline of
    an intervention with two entries for day 10, each halving beta; the
    live value has meanwhile been changed to 0.0075. *)
Definition baseline_example : gmap string Qc := {[ "overall" := Q2Qc (15 # 1000) ]}.

Definition change_beta_example : ChangeBeta.change_beta :=
  {| ChangeBeta.days := [10; 10];
     ChangeBeta.changes := [half; half];
     ChangeBeta.layers := [None];
     ChangeBeta.orig_betas := Some (VNum <$> baseline_example) |}.

Definition layers_example : gmap string Qc := {[ "a" := 1%Qc ]}.

Definition sim_day10 : Sim :=
  {| t := 10;
     pars := <["beta" := VNum (Q2Qc (75 # 10000))]>
               (<["beta_layers" := VDict layers_example]> ∅);
     people := [];
     results := {| new_tests := []; new_diagnoses := [] |} |}.

(** *** Sample collaborators

    A small implementation of the collaborator interface, with a counter
    for random source, on which the statements below are exercised. *)

Definition set_diagnosed (p : Person) (b : bool) : Person :=
  {| symptomatic := symptomatic p; infectious := infectious p;
     diagnosed := b; known_contact := known_contact p;
     date_diagnosed := date_diagnosed p;
     date_known_contact := date_known_contact p;
     dyn_cont_ppl := dyn_cont_ppl p |}.

Definition set_date_diagnosed (p : Person) (d : option Z) : Person :=
  {| symptomatic := symptomatic p; infectious := infectious p;
     diagnosed := diagnosed p; known_contact := known_contact p;
     date_diagnosed := d;
     date_known_contact := date_known_contact p;
     dyn_cont_ppl := dyn_cont_ppl p |}.

Definition sample_check_diagnosed (day : nat) (p : Person) : bool * Person :=
  match date_diagnosed p with
  | Some d =>
      if negb (diagnosed p) && bool_decide (d ≤ Z.of_nat day)
      then (true, set_diagnosed p true) else (false, p)
  | None => (false, p)
  end.

Definition sample_test (day : nat) (sens : Qc) (delay : Z) (p : Person) (g : nat)
    : Person * nat :=
  if infectious p then (set_date_diagnosed p (Some (Z.of_nat day + delay)), S g)
  else (p, S g).

(** Nobody new is met; person 1 is everybody's static contact, notified
    after the delay of the household layer. *)
Definition sample_trace_dynamic (probs : gmap string Qc) (times : gmap string Z)
    (p : Person) (g : nat) : gmap nat Z * nat :=
  (dyn_cont_ppl p, S g).

Definition sample_trace_static (probs : gmap string Qc) (times : gmap string Z)
    (p : Person) (g : nat) : gmap nat Z * nat :=
  ({[ 1%nat := default 0 (times !! "h") ]}, S g).

#[local] Instance sample_person_api : PersonAPI nat :=
  {| check_diagnosed := sample_check_diagnosed;
     test := sample_test;
     trace_dynamic_contacts := sample_trace_dynamic;
     trace_static_contacts := sample_trace_static |}.

(** A sampler that takes the first [n] indices of positive propensity. *)
Fixpoint eligible_from (i : nat) (probs : list Qc) : list nat :=
  match probs with
  | [] => []
  | p :: ps =>
      if decide (0 < p)%Qc then i :: eligible_from (S i) ps
      else eligible_from (S i) ps
  end.

Definition first_eligible (probs : list Qc) (n : num) (g : nat) : list nat * nat :=
  match n with
  | Fin z => (take (Z.to_nat z) (eligible_from 0 probs), S g)
  | PosInf => (eligible_from 0 probs, S g)
  | _ => ([], S g)
  end.

#[local] Instance first_eligible_sampler : Sampler nat :=
  {| choose_weighted := first_eligible |}.

Definition healthy : Person :=
  {| symptomatic := false; infectious := false; diagnosed := false;
     known_contact := false; date_diagnosed := None;
     date_known_contact := None; dyn_cont_ppl := ∅ |}.

(** Symptomatic, infectious and already diagnosed on day 1. *)
Definition known_case : Person :=
  {| symptomatic := true; infectious := true; diagnosed := true;
     known_contact := false; date_diagnosed := Some 1;
     date_known_contact := None; dyn_cont_ppl := ∅ |}.

Definition test_num_example (budget : list num) : TestNum.test_num :=
  {| TestNum.daily_tests := budget;
     TestNum.sympt_test := Q2Qc 100;
     TestNum.trace_test := 1%Qc;
     TestNum.sensitivity := 1%Qc;
     TestNum.test_delay := 0 |}.

(** Three people and result arrays for five days, on the given day. *)
Definition sim_five_days (day : nat) : Sim :=
  {| t := day; pars := ∅;
     people := [known_case; healthy; healthy];
     results := {| new_tests := replicate 5 (Fin 0);
                   new_diagnoses := replicate 5 (Fin 0) |} |}.

(** Day 10: person 0 is infectious and was diagnosed on day 9; person 1,
    the static contact, already expects a notification on day 15.  With a
    household delay of 2 the new candidate date is 12. *)
Definition traced_case : Person :=
  {| symptomatic := true; infectious := true; diagnosed := true;
     known_contact := false; date_diagnosed := Some 9;
     date_known_contact := None; dyn_cont_ppl := ∅ |}.

Definition earlier_contact : Person :=
  {| symptomatic := false; infectious := false; diagnosed := false;
     known_contact := true; date_diagnosed := None;
     date_known_contact := Some 15; dyn_cont_ppl := ∅ |}.

Definition contact_tracing_example : ContactTracing.contact_tracing :=
  {| ContactTracing.trace_probs := {[ "h" := 1%Qc ]};
     ContactTracing.trace_time := {[ "h" := 2 ]};
     ContactTracing.start_day := 0;
     ContactTracing.contact_reduction := None |}.

Definition sim_tracing : Sim :=
  {| t := 10; pars := ∅;
     people := [traced_case; earlier_contact];
     results := {| new_tests := []; new_diagnoses := [] |} |}.

(** Five people, a household layer and the community layer (dropped by
    the generator); the cluster sizes drawn are 3, 0 and 4. *)
Definition contacts_example : gmap string Qc :=
  <["h" := Q2Qc 4]> (<["c" := Q2Qc 20]> ∅).

Definition draws_example : list nat := [3; 0; 4]%nat.

(** *** Further sample inputs *)

(** A schedule for two parameters: a scalar for ["beta"] on day 14 and a
    change of the household weight of ["beta_layers"] on day 20. *)
Definition two_par_schedule : list (string * (list Z * list value)) :=
  [("beta", ([14; 28], [VNum half; VNum 1%Qc]));
   ("beta_layers", ([20], [VDict {[ "h" := half ]}]))].

Definition layered_pars : gmap string value :=
  <["beta" := VNum (Q2Qc (15 # 1000))]>
    (<["beta_layers" := VDict (<["h" := Q2Qc (17 # 10)]> (<["s" := Q2Qc (8 # 10)]> ∅))]> ∅).

Definition sim_layered (day : nat) : Sim :=
  {| t := day; pars := layered_pars; people := [];
     results := {| new_tests := []; new_diagnoses := [] |} |}.

(** The example of the documentation of [change_beta]: schools at 70% from
    day 14 and back to 100% from day 28. *)
Definition school_closure : ChangeBeta.change_beta :=
  {| ChangeBeta.days := [14; 28];
     ChangeBeta.changes := [Q2Qc (7 # 10); 1%Qc];
     ChangeBeta.layers := [Some "s"];
     ChangeBeta.orig_betas := None |}.

(** Day 28, with the school weight as day 14 left it (0.56) and the overall
    beta changed by something else in between. *)
Definition sim_after_closure : Sim :=
  {| t := 28;
     pars := <["beta" := VNum (Q2Qc (1 # 100))]>
               (<["beta_layers" :=
                    VDict (<["h" := Q2Qc (17 # 10)]> (<["s" := Q2Qc (56 # 100)]> ∅))]> ∅);
     people := [];
     results := {| new_tests := []; new_diagnoses := [] |} |}.

(** A Bernoulli draw that succeeds on even values of the counter when the
    probability is positive, and a [test] that ignores the loss
    probability. *)
Definition sample_bt (p : Qc) (g : nat) : bool * nat :=
  (bool_decide (0 < p)%Qc && Nat.even g, S g).

#[local] Instance sample_bernoulli : Bernoulli nat := {| bt := sample_bt |}.

#[local] Instance sample_test_loss : PersonTestLoss nat :=
  {| test_with_loss := λ day sens loss delay p g, sample_test day sens delay p g |}.

Definition test_prob_example : TestProb.test_prob :=
  {| TestProb.symptomatic_prob := Q2Qc (9 # 10);
     TestProb.asymptomatic_prob := Q2Qc (1 # 100);
     TestProb.test_sensitivity := 1%Qc;
     TestProb.loss_prob := 0%Qc;
     TestProb.test_delay := 1;
     TestProb.start_day := 0 |}.

Definition test_historical_example : TestHistorical.test_historical :=
  {| TestHistorical.n_tests := [2; 0];
     TestHistorical.n_positive := [1; 0] |}.

(** Day 10 with nobody infectious. *)
Definition sim_nobody_infectious : Sim :=
  {| t := 10; pars := ∅;
     people := [healthy; earlier_contact];
     results := {| new_tests := []; new_diagnoses := [] |} |}.

(** Three people aged 10, 30 and 70; household clusters of size 2; every
    draw of school or work contacts names position 0. *)
Definition ages_example : list Qc := [Q2Qc 10; Q2Qc 30; Q2Qc 70].

Definition household_draws : list nat := [2; 2; 2]%nat.

Definition chosen_example (p : nat) (key : string) : list nat := [0%nat].

(** Two members of one household; the second also has an empty workplace
    layer. *)
Definition synthpop_example : list (string * Synthpop.sp_person) :=
  [ ("a1f", {| Synthpop.sp_age := Q2Qc 30; Synthpop.sp_sex := 0;
               Synthpop.sp_contacts := [("H", ["b2e"])] |});
    ("b2e", {| Synthpop.sp_age := Q2Qc 8; Synthpop.sp_sex := 1;
               Synthpop.sp_contacts := [("H", ["a1f"]); ("W", [])] |}) ].

(** The boolean flags of a person as its attributes. *)
Definition flag_attr (person : Person) (attr : string) : res bool :=
  if decide (attr = "symptomatic") then Ok (symptomatic person)
  else if decide (attr = "infectious") then Ok (infectious person)
  else if decide (attr = "diagnosed") then Ok (diagnosed person)
  else if decide (attr = "known_contact") then Ok (known_contact person)
  else Raise AttributeError.

#[local] Instance flag_attrs : PersonAttrs bool :=
  {| getattr := flag_attr; truthy := id |}.

(** Keyword arguments of a caller who sets the population size and tries
    to set the contacts. *)
Definition kwargs_example : gmap string Parameters.pval :=
  <["pop_size" := Parameters.PNum (Parameters.int 100)]>
    (<["contacts" := Parameters.PLayers (<["a" := Parameters.int 5]> ∅)]> ∅).

(** * Properties *)

(** ** Generic facts about the loop combinators *)

Lemma bind_Ok {A B} (m : res A) (f : A → res B) (b : B) :
  m ≫= f = Ok b ↔ ∃ a, m = Ok a ∧ f a = Ok b.
Proof.
  destruct m as [a|e]; simpl.
  - split; [intros H; by exists a | intros (a' & [= <-] & H); done].
  - split; [done | intros (a' & [=] & _)].
Qed.

Lemma getitem_Ok {A} (l : list A) (i : nat) (x : A) :
  getitem l i = Ok x ↔ l !! i = Some x.
Proof. unfold getitem. destruct (l !! i); split; congruence. Qed.

Lemma findinds_from_spec (arr : list Z) (val : Z) (i k : nat) :
  k ∈ findinds_from i arr val ↔ (i ≤ k)%nat ∧ arr !! (k - i)%nat = Some val.
Proof.
  revert i. induction arr as [|d ds IH]; intros i; simpl.
  - rewrite elem_of_nil. split; [done | intros [_ [=]]].
  - destruct (decide (d = val)) as [ -> | Hne].
    + rewrite elem_of_cons, IH. split.
      * intros [ -> | [Hle Hk]].
        -- split; [lia|]. by replace (i - i)%nat with 0%nat by lia.
        -- split; [lia|]. by replace (k - i)%nat with (S (k - S i)) by lia.
      * intros [Hle Hk]. destruct (decide (k = i)) as [ -> | Hki]; [by left|right].
        split; [lia|]. by replace (k - i)%nat with (S (k - S i)) in Hk by lia.
    + rewrite IH. split.
      * intros [Hle Hk]. split; [lia|].
        by replace (k - i)%nat with (S (k - S i)) by lia.
      * intros [Hle Hk]. destruct (decide (k = i)) as [ -> | Hki].
        -- replace (i - i)%nat with 0%nat in Hk by lia. simpl in Hk. congruence.
        -- split; [lia|]. by replace (k - i)%nat with (S (k - S i)) in Hk by lia.
Qed.

Lemma findinds_spec (arr : list Z) (val : Z) (k : nat) :
  k ∈ findinds arr val ↔ arr !! k = Some val.
Proof.
  unfold findinds. rewrite findinds_from_spec.
  replace (k - 0)%nat with k by lia. split; [by intros [_ ?] | split; [lia | done]].
Qed.

(** Arithmetic of 64-bit integers. *)

Ltac lia64 :=
  change (2 ^ 64) with 18446744073709551616 in *;
  change (2 ^ 63) with 9223372036854775808 in *;
  lia.

Lemma wrap64_id (z : Z) : int64 z → wrap64 z = z.
Proof. unfold int64, wrap64. intros H. rewrite Z.mod_small; lia64. Qed.

Lemma wrap64_add (a b : Z) : wrap64 (wrap64 a + b) = wrap64 (a + b).
Proof.
  unfold wrap64. f_equal.
  replace ((a + 2 ^ 63) mod 2 ^ 64 - 2 ^ 63 + b + 2 ^ 63)
    with ((a + 2 ^ 63) mod 2 ^ 64 + b) by lia.
  rewrite Zplus_mod_idemp_l. f_equal. lia.
Qed.

(** ** [sequence] *)

Section SequenceFacts.
Import Sequence.
Context {I : Type} (child_apply : I → Sim → res Sim).

(** The boundaries are the prefix sums, wrapped to 64 bits. *)
Lemma cumsum_from_lookup (acc : Z) (l : list Z) (k : nat) (b : Z) :
  cumsum_from acc l !! k = Some b ↔
  (k < length l)%nat ∧ b = wrap64 (acc + foldr Z.add 0 (take (S k) l)).
Proof.
  revert acc k. induction l as [|d ds IH]; intros acc k; simpl.
  - split; [done | intros [? _]; lia].
  - destruct k as [|k]; simpl.
    + rewrite ?take_0. simpl. rewrite Z.add_0_r.
      split; [intros [= <-]; split; [lia|done] | by intros [_ ->]].
    + rewrite IH. simpl. rewrite wrap64_add, Z.add_assoc.
      split; intros [? ->]; split; (done || lia).
Qed.

Lemma prefix_sum_mono (ds : list Z) (i j : nat) :
  Forall (λ d, 0 ≤ d) ds → (i ≤ j)%nat →
  foldr Z.add 0 (take i ds) ≤ foldr Z.add 0 (take j ds).
Proof.
  intros Hpos. revert i j. induction Hpos as [|d ds Hd Hpos IH]; intros i j Hij.
  - by rewrite !take_nil.
  - destruct i as [|i], j as [|j]; simpl; [lia| |lia|].
    + specialize (IH 0%nat j ltac:(lia)). rewrite take_0 in IH. simpl in IH. lia.
    + specialize (IH i j ltac:(lia)). lia.
Qed.

(** Non-negative durations whose sum fits in 64 bits: no running sum wraps. *)
Lemma prefix_sum_int64 (ds : list Z) (k : nat) :
  Forall (λ d, 0 ≤ d) ds → foldr Z.add 0 ds < 2 ^ 63 →
  int64 (foldr Z.add 0 (take k ds)).
Proof.
  intros Hpos Hsum.
  pose proof (prefix_sum_mono ds 0 k Hpos ltac:(lia)) as Hlo.
  pose proof (prefix_sum_mono ds k (length ds) Hpos) as Hhi.
  rewrite take_0 in Hlo. simpl in Hlo.
  destruct (decide (k ≤ length ds)%nat) as [Hk|Hk].
  - specialize (Hhi Hk). rewrite firstn_all in Hhi. unfold int64. lia64.
  - rewrite take_ge by lia. unfold int64. rewrite take_ge in Hlo by lia. lia64.
Qed.

Lemma cumsum_lookup_int64 (ds : list Z) (k : nat) (b : Z) :
  (∀ i, (i < length ds)%nat → int64 (foldr Z.add 0 (take (S i) ds))) →
  cumsum ds !! k = Some b ↔
  (k < length ds)%nat ∧ b = foldr Z.add 0 (take (S k) ds).
Proof.
  intros Hin. unfold cumsum. rewrite cumsum_from_lookup, Z.add_0_l. split.
  - intros [Hk ->]. split; [done|]. by apply wrap64_id, Hin.
  - intros [Hk ->]. split; [done|]. symmetry. by apply wrap64_id, Hin.
Qed.

Lemma length_cumsum_from (acc : Z) (l : list Z) :
  length (cumsum_from acc l) = length l.
Proof. revert acc. induction l; intros acc; simpl; [done | by rewrite IHl]. Qed.

Lemma first_true_Some (mask : list bool) (i : nat) :
  first_true mask = Some i ↔
  mask !! i = Some true ∧ ∀ j, (j < i)%nat → mask !! j = Some false.
Proof.
  revert i. induction mask as [|b bs IH]; intros i; simpl.
  - split; [done | intros [[=] _]].
  - destruct b.
    + split.
      * intros [= <-]. split; [done | intros j ?; lia].
      * intros [Hi Hlt]. destruct i as [|i]; [done|].
        specialize (Hlt 0%nat ltac:(lia)). done.
    + destruct (first_true bs) as [k|]; simpl.
      * destruct (proj1 (IH k) eq_refl) as [Hk1 Hk2]. split.
        -- intros [= <-]. split; [done|]. intros [|j] ?; [done|]. apply Hk2. lia.
        -- intros [Hi Hlt]. destruct i as [|i]; [done|]. f_equal.
           destruct (lt_eq_lt_dec i k) as [[Hlt' | -> ] | Hgt]; [|done|].
           ++ specialize (Hk2 i Hlt'). simpl in Hi. congruence.
           ++ specialize (Hlt (S k) ltac:(lia)). simpl in Hlt. congruence.
      * split; [done|]. intros [Hi Hlt]. destruct i as [|i]; [done|].
        assert (@None nat = Some i) as Hc; [|congruence].
        apply IH. split; [done|]. intros j ?. apply (Hlt (S j)). lia.
Qed.

Lemma first_true_None (mask : list bool) :
  first_true mask = None ↔ ∀ b, b ∈ mask → b = false.
Proof.
  induction mask as [|b bs IH]; simpl.
  - split; [intros _ b Hb; by apply elem_of_nil in Hb | done].
  - destruct b.
    + split; [done|]. intros H. specialize (H true ltac:(left)). done.
    + destruct (first_true bs); simpl.
      * split; [done|]. intros H.
        destruct IH as [_ IH]. discriminate IH. intros b Hb. apply H. by right.
      * split; [|done]. intros _ b Hb. apply elem_of_cons in Hb as [ -> | Hb]; [done|].
        by apply IH.
Qed.

Lemma init_Ok (ds : list Z) (ivs : list I) (s : sequence I) :
  init ds ivs = Ok s →
  length ds = length ivs ∧ days s = ds ∧ interventions s = ivs ∧
  _cum_days s = cumsum ds.
Proof.
  unfold init. destruct (decide _); [|done]. intros [= <-]. done.
Qed.

Lemma apply_dispatch (s : sequence I) (sim : Sim) (i : nat) (child : I) :
  dispatch s (t sim) = Ok i → interventions s !! i = Some child →
  apply child_apply s sim = child_apply child sim.
Proof.
  intros Hd Hc. unfold apply. rewrite Hd. simpl.
  apply getitem_Ok in Hc. by rewrite Hc.
Qed.

Lemma dispatch_first_exceeding (s : sequence I) (day i : nat) (b : Z) :
  _cum_days s !! i = Some b → b > Z.of_nat day →
  (∀ j b', (j < i)%nat → _cum_days s !! j = Some b' → b' ≤ Z.of_nat day) →
  dispatch s day = Ok i.
Proof.
  intros Hi Hb Hlt. unfold dispatch, argmax.
  assert (first_true ((λ c, bool_decide (c > Z.of_nat day)) <$> _cum_days s) = Some i) as ->.
  { apply first_true_Some. split.
    - rewrite list_lookup_fmap, Hi. simpl. f_equal. by apply bool_decide_eq_true.
    - intros j Hj. rewrite list_lookup_fmap.
      destruct (_cum_days s !! j) as [b'|] eqn:Hj'.
      + simpl. f_equal. apply bool_decide_eq_false. specialize (Hlt j b' Hj Hj'). lia.
      + apply lookup_ge_None in Hj'. apply lookup_lt_Some in Hi. lia. }
  destruct (_cum_days s); [done|]. done.
Qed.

Lemma dispatch_none_exceeding (s : sequence I) (day : nat) :
  _cum_days s ≠ [] →
  (∀ b, b ∈ _cum_days s → b ≤ Z.of_nat day) →
  dispatch s day = Ok 0%nat.
Proof.
  intros Hne Hall. unfold dispatch, argmax.
  assert (first_true ((λ c, bool_decide (c > Z.of_nat day)) <$> _cum_days s) = None) as ->.
  { apply first_true_None. intros b Hb.
    apply list_elem_of_fmap in Hb as (c & -> & Hc).
    apply bool_decide_eq_false. specialize (Hall c Hc). lia. }
  destruct (_cum_days s); done.
Qed.

(** C4, as the code has it.  The durations being 64-bit integers, the cumulative
    boundaries of a [sequence] are the prefix sums of its durations wrapped
    to 64 bits, hence the prefix sums themselves whenever these fit in 64
    bits; and on a day exceeded by some boundary [apply] runs the child of
    the first boundary that exceeds the day.  With durations [10; 51] the
    boundaries are [10; 61], day 5 goes to child 0 and days 15 and 60 go to
    child 1. *)
Theorem sequence_dispatch_first_boundary (ds : list Z) (ivs : list I) (s : sequence I) :
  init ds ivs = Ok s →
  Forall int64 ds →
  (∀ k b, _cum_days s !! k = Some b ↔
          (k < length ds)%nat ∧ b = wrap64 (foldr Z.add 0 (take (S k) ds))) ∧
  ((∀ k, (k < length ds)%nat → int64 (foldr Z.add 0 (take (S k) ds))) →
   ∀ k b, _cum_days s !! k = Some b ↔
          (k < length ds)%nat ∧ b = foldr Z.add 0 (take (S k) ds)) ∧
  (∀ sim i b,
      _cum_days s !! i = Some b → b > Z.of_nat (t sim) →
      (∀ j b', (j < i)%nat → _cum_days s !! j = Some b' → b' ≤ Z.of_nat (t sim)) →
      dispatch s (t sim) = Ok i ∧
      ∃ child, ivs !! i = Some child ∧
               apply child_apply s sim = child_apply child sim) ∧
  (ds = [10; 51] →
      _cum_days s = [10; 61] ∧ dispatch s 5 = Ok 0%nat ∧
      dispatch s 15 = Ok 1%nat ∧ dispatch s 60 = Ok 1%nat).
Proof.
  intros Hinit _. destruct (init_Ok _ _ _ Hinit) as (Hlen & _ & Hivs & Hcum).
  split; [|split; [|split]].
  - intros k b. rewrite Hcum. unfold cumsum. by rewrite cumsum_from_lookup, Z.add_0_l.
  - intros Hin k b. rewrite Hcum. by apply cumsum_lookup_int64.
  - intros sim i b Hi Hb Hlt.
    pose proof (dispatch_first_exceeding s (t sim) i b Hi Hb Hlt) as Hd.
    split; [done|].
    assert (i < length ivs)%nat as Hil.
    { apply lookup_lt_Some in Hi. rewrite Hcum in Hi. unfold cumsum in Hi.
      rewrite length_cumsum_from in Hi. lia. }
    destruct (lookup_lt_is_Some_2 ivs i Hil) as [child Hchild].
    exists child. split; [done|].
    apply (apply_dispatch s sim i child Hd). by rewrite Hivs.
  - intros ->. rewrite Hcum. unfold dispatch. rewrite Hcum. done.
Qed.

(** C9, as the code has it.  On a day that no cumulative boundary exceeds, a
    [sequence] with at least one child runs its first child: the
    comparison mask is all false and its argmax is 0.  This is the case in
    particular when the durations are non-negative, their sum fits in 64
    bits and the day has reached it. *)
Theorem sequence_dispatch_past_last_boundary (ds : list Z) (ivs : list I)
    (s : sequence I) (sim : Sim) :
  init ds ivs = Ok s →
  Forall int64 ds →
  ds ≠ [] →
  (∀ b, b ∈ _cum_days s → b ≤ Z.of_nat (t sim)) ∨
  (Forall (λ d, 0 ≤ d) ds ∧ foldr Z.add 0 ds < 2 ^ 63 ∧
   foldr Z.add 0 ds ≤ Z.of_nat (t sim)) →
  dispatch s (t sim) = Ok 0%nat ∧
  ∃ child, ivs !! 0%nat = Some child ∧
           apply child_apply s sim = child_apply child sim.
Proof.
  intros Hinit _ Hne Hpast.
  destruct (init_Ok _ _ _ Hinit) as (Hlen & _ & Hivs & Hcum).
  assert (∀ b, b ∈ _cum_days s → b ≤ Z.of_nat (t sim)) as Hall.
  { destruct Hpast as [H|(Hpos & Hfit & Hsum)]; [done|].
    intros b Hb. apply list_elem_of_lookup in Hb as [k Hk].
    rewrite Hcum in Hk.
    apply cumsum_lookup_int64 in Hk as [Hlt ->];
      [|intros i _; by apply prefix_sum_int64].
    etrans; [|exact Hsum].
    pose proof (prefix_sum_mono ds (S k) (length ds) Hpos ltac:(lia)) as Hle.
    by rewrite firstn_all in Hle. }
  assert (dispatch s (t sim) = Ok 0%nat) as Hd.
  { apply dispatch_none_exceeding; [|done]. rewrite Hcum.
    destruct ds; [done|]. done. }
  split; [done|].
  destruct ivs as [|child ivs']; [destruct ds; simpl in Hlen; done|].
  exists child. split; [done|].
  apply (apply_dispatch s sim 0%nat child Hd). by rewrite Hivs.
Qed.

(** An empty [sequence] can be built, and its [apply] raises: [np.argmax]
    rejects the empty mask. *)
Lemma sequence_empty_raises (sim : Sim) :
  ∃ s, init [] [] = Ok s ∧ apply child_apply s sim = Raise ValueError.
Proof. eexists. split; [reflexivity|]. reflexivity. Qed.

End SequenceFacts.

Lemma sequence_dispatch_first_boundary_witness :
  ∃ s, Sequence.init [10; 51] [7%nat; 8%nat] = Ok s ∧
       Sequence.dispatch s 15 = Ok 1%nat ∧
       Sequence.apply mark_child s (set_t sim0 15) = Ok (set_t sim0 8).
Proof.
  eexists. split; [reflexivity|].
  destruct (sequence_dispatch_first_boundary mark_child [10; 51] [7%nat; 8%nat] _ eq_refl)
    as (_ & _ & Hd & _).
  - repeat constructor; unfold int64; lia64.
  - destruct (Hd (set_t sim0 15) 1%nat 61) as (Hi & child & Hc & Ha).
    + reflexivity.
    + simpl. lia.
    + intros [|j] b' Hj; [intros [= <-]; by vm_compute | lia].
    + split; [exact Hi|]. rewrite Ha. injection Hc as <-. reflexivity.
Defined.

(** The statement of C4 fails on the code for durations whose running sum
    leaves 64 bits: with durations [1; 2^63 - 1] the second prefix sum is
    2^63, which exceeds day 5, but the second boundary is - 2^63, no
    boundary exceeds the day and child 0 is run. *)
Lemma sequence_boundary_wraps_around :
  ∃ s, Sequence.init [1; 2 ^ 63 - 1] [7%nat; 8%nat] = Ok s ∧
       Forall int64 [1; 2 ^ 63 - 1] ∧
       foldr Z.add 0 (take 2 [1; 2 ^ 63 - 1]) = 2 ^ 63 ∧
       Sequence._cum_days s = [1; - 2 ^ 63] ∧
       Sequence.dispatch s 5 = Ok 0%nat ∧
       Sequence.apply mark_child s (set_t sim0 5) = Ok (set_t sim0 7).
Proof.
  eexists. split; [reflexivity|].
  split; [repeat constructor; unfold int64; lia64|].
  split; [reflexivity|]. split; [reflexivity|]. split; reflexivity.
Qed.

Lemma sequence_dispatch_past_last_boundary_witness :
  ∃ s, Sequence.init [10; 51] [7%nat; 8%nat] = Ok s ∧
       Sequence.dispatch s 61 = Ok 0%nat ∧
       Sequence.apply mark_child s (set_t sim0 61) = Ok (set_t sim0 7).
Proof.
  eexists. split; [reflexivity|].
  destruct (sequence_dispatch_past_last_boundary mark_child [10; 51] [7%nat; 8%nat] _
              (set_t sim0 61) eq_refl) as (Hi & child & Hc & Ha).
  - repeat constructor; unfold int64; lia64.
  - discriminate.
  - right. split; [repeat constructor; lia|]. split; simpl; lia64.
  - split; [exact Hi|]. rewrite Ha. injection Hc as <-. reflexivity.
Defined.

(** The statement of C9 fails on the code for a sequence without
    children: it is constructed without error, every day has reached the
    sum of its durations, and [apply] raises. *)
Lemma sequence_without_children_raises :
  ∃ s, Sequence.init (I := nat) [] [] = Ok s ∧
       (∀ b, b ∈ Sequence._cum_days s → b ≤ 5) ∧
       foldr Z.add 0 [] ≤ 5 ∧
       Sequence.apply mark_child s (set_t sim0 5) = Raise ValueError.
Proof.
  eexists. split; [reflexivity|].
  split; [intros b Hb; by apply elem_of_nil in Hb|].
  split; [simpl; lia|reflexivity].
Qed.

(** ** [dynamic_pars] *)

Section DynamicParsFacts.
Import DynamicPars.

Lemma check_all_listed (sched : list (string * (list Z * list value))) :
  Forall (λ kv, length kv.2.1 = length kv.2.2) sched →
  check_all (listed <$> sched) = Ok sched.
Proof.
  induction 1 as [|[parkey [ds vs]] sched Hlen _ IH]; [done|].
  rewrite fmap_cons. cbn [check_all listed fst snd].
  unfold check_entry. cbn [days vals promote_days promote_vals]. simpl in Hlen.
  destruct (decide (length ds = length vs)); [|done].
  rewrite IH. done.
Qed.

Lemma apply_one_t (sim sim' : Sim) (kv : string * (list Z * list value)) :
  apply_one sim kv = Ok sim' → t sim' = t sim.
Proof.
  destruct kv as [parkey [ds vs]]. unfold apply_one.
  destruct (findinds ds (Z.of_nat (t sim))) as [|ind [|ind' inds]]; [by intros [= <-]| |done].
  destruct (getitem vs ind) as [[q|d]|e]; simpl; [by intros [= <-]| |done].
  destruct (sim_getitem sim parkey) as [[q|o]|e]; simpl; [done| |done].
  by intros [= <-].
Qed.

Lemma findinds_duplicate (ds : list Z) (day : Z) :
  duplicate_day ds day → ∃ i j inds, findinds ds day = i :: j :: inds.
Proof.
  intros (i & j & Hne & Hi & Hj).
  apply findinds_spec in Hi, Hj.
  destruct (findinds ds day) as [|a [|b inds]] eqn:Hf; [| |by eauto].
  - by apply elem_of_nil in Hi.
  - apply list_elem_of_singleton in Hi, Hj. congruence.
Qed.

Lemma apply_one_duplicate (sim : Sim) (parkey : string) (ds : list Z) (vs : list value) :
  duplicate_day ds (Z.of_nat (t sim)) →
  apply_one sim (parkey, (ds, vs)) = Raise ValueError.
Proof.
  intros Hdup. destruct (findinds_duplicate _ _ Hdup) as (i & j & inds & Hf).
  unfold apply_one. by rewrite Hf.
Qed.

Lemma for_each_apply_one_raises (sched : list (string * (list Z * list value)))
    (sim : Sim) (parkey : string) (ds : list Z) (vs : list value) :
  (parkey, (ds, vs)) ∈ sched →
  duplicate_day ds (Z.of_nat (t sim)) →
  raises (for_each apply_one sched sim).
Proof.
  intros Hin. revert sim. induction sched as [|kv sched IH]; intros sim Hdup.
  - by apply elem_of_nil in Hin.
  - simpl. apply elem_of_cons in Hin as [ <- | Hin].
    + rewrite (apply_one_duplicate _ _ _ _ Hdup). by eexists.
    + destruct (apply_one sim kv) as [sim'|e] eqn:Hone; simpl; [|by eexists].
      apply IH; [done|]. by rewrite (apply_one_t _ _ _ Hone).
Qed.

(** C1, as the code has it.  Construction checks only that both subkeys are
    present and that there are as many days as values: a schedule whose
    days and values are lists of equal lengths is accepted whatever its
    days, duplicates included.  The duplicate is reported by [apply], on
    the simulated day that two entries of one parameter share. *)
Theorem dynamic_pars_duplicate_day_raises_in_apply
    (sched : list (string * (list Z * list value))) :
  Forall (λ kv, length kv.2.1 = length kv.2.2) sched →
  init (listed <$> sched) = Ok {| pars := sched |} ∧
  ∀ sim parkey ds vs,
    (parkey, (ds, vs)) ∈ sched →
    duplicate_day ds (Z.of_nat (t sim)) →
    raises (apply {| pars := sched |} sim).
Proof.
  intros Hlen. split.
  - unfold init. by rewrite (check_all_listed _ Hlen).
  - intros sim parkey ds vs Hin Hdup. unfold apply. simpl.
    by apply (for_each_apply_one_raises sched sim parkey ds vs).
Qed.

End DynamicParsFacts.

Lemma dup_schedule_duplicate : DynamicPars.duplicate_day [10; 10] 10.
Proof. exists 0%nat, 1%nat. done. Qed.

Lemma dynamic_pars_duplicate_day_raises_in_apply_witness :
  DynamicPars.init (DynamicPars.listed <$> dup_schedule)
    = Ok {| DynamicPars.pars := dup_schedule |} ∧
  raises (DynamicPars.apply {| DynamicPars.pars := dup_schedule |} (set_t sim0 10)).
Proof.
  destruct (dynamic_pars_duplicate_day_raises_in_apply dup_schedule) as [Hinit Happly].
  - repeat constructor.
  - split; [exact Hinit|].
    apply (Happly (set_t sim0 10) "beta" [10; 10] [VNum half; VNum 1%Qc]).
    + left.
    + exact dup_schedule_duplicate.
Defined.

(** The statement of C1 fails on the code: a schedule with two entries for
    ["beta"] on day 10 is constructed without any error, and [apply] on
    another day goes through as well. *)
Lemma dynamic_pars_duplicate_day_constructed :
  DynamicPars.duplicate_day [10; 10] 10 ∧
  ¬ raises (DynamicPars.init (DynamicPars.listed <$> dup_schedule)) ∧
  DynamicPars.init (DynamicPars.listed <$> dup_schedule)
    = Ok {| DynamicPars.pars := dup_schedule |} ∧
  DynamicPars.apply {| DynamicPars.pars := dup_schedule |} (set_t sim0 9)
    = Ok (set_t sim0 9).
Proof.
  split; [exact dup_schedule_duplicate|].
  split; [intros [e He]; discriminate He|].
  split; reflexivity.
Qed.

(** ** [change_beta] *)

Section ChangeBetaFacts.
Import ChangeBeta.

Lemma scaled_numeric (cb : change_beta) (inds : list nat) (b : Qc) :
  Forall (λ ind, (ind < length (changes cb))%nat) inds →
  scaled cb inds (VNum b) = Ok (VNum (b * factor_product cb inds)%Qc).
Proof.
  unfold scaled. intros Hin. revert b.
  induction Hin as [|ind inds Hind _ IH]; intros b; simpl.
  - by rewrite Qcmult_1_r.
  - destruct (lookup_lt_is_Some_2 _ _ Hind) as [c Hc].
    unfold getitem. rewrite Hc. simpl. rewrite IH. by rewrite Qcmult_assoc.
Qed.

Lemma scaled_Ok (cb : change_beta) (inds : list nat) (v new_beta : value) :
  inds ≠ [] →
  Forall (λ ind, (ind < length (changes cb))%nat) inds →
  scaled cb inds v = Ok new_beta →
  ∃ b, v = VNum b ∧ new_beta = VNum (b * factor_product cb inds)%Qc.
Proof.
  intros Hne Hin Hs. destruct v as [b|d].
  - exists b. split; [done|]. rewrite (scaled_numeric _ _ _ Hin) in Hs. congruence.
  - destruct inds as [|ind inds]; [done|]. unfold scaled in Hs. simpl in Hs.
    destruct (getitem (changes cb) ind); simpl in Hs; done.
Qed.

Lemma findinds_in_range (cb : change_beta) (day : Z) :
  length (days cb) = length (changes cb) →
  Forall (λ ind, (ind < length (changes cb))%nat) (findinds (days cb) day).
Proof.
  intros Hlen. apply Forall_forall. intros ind Hind.
  apply findinds_spec, lookup_lt_Some in Hind. lia.
Qed.

(** One write: the key written holds the scaled baseline, the live beta of
    every other key is untouched. *)
Lemma write_layer_Ok (cb : change_beta) (inds : list nat) (layer : string)
    (v : value) (sim sim' : Sim) :
  inds ≠ [] →
  Forall (λ ind, (ind < length (changes cb))%nat) inds →
  write_layer cb inds layer v (Ok sim) = Ok sim' →
  (∃ b, v = VNum b ∧
        live_beta sim' layer = Some (VNum (b * factor_product cb inds)%Qc)) ∧
  (∀ l, l ≠ layer → live_beta sim' l = live_beta sim l) ∧
  t sim' = t sim.
Proof.
  intros Hne Hin. unfold write_layer. simpl.
  destruct (scaled cb inds v) as [new_beta|e] eqn:Hs; simpl; [|done].
  destruct (scaled_Ok _ _ _ _ Hne Hin Hs) as (b & -> & ->).
  destruct (decide (layer = "overall")) as [ -> | Hlayer].
  - intros [= <-]. split; [|split; [|done]].
    + exists b. split; [done|]. unfold live_beta. simpl. by rewrite lookup_insert_eq.
    + intros l Hl. unfold live_beta. rewrite decide_False by done.
      rewrite decide_False by done. simpl. by rewrite lookup_insert_ne.
  - unfold sim_getitem. destruct (pars sim !! "beta_layers") as [[q|d]|] eqn:Hbl; simpl; [done| |done].
    intros [= <-]. split; [|split; [|done]].
    + exists b. split; [done|]. unfold live_beta. rewrite decide_False by done.
      simpl. rewrite lookup_insert_eq. by rewrite lookup_insert_eq.
    + intros l Hl. unfold live_beta. destruct (decide (l = "overall")) as [ -> |Hl'].
      * simpl. by rewrite lookup_insert_ne.
      * simpl. rewrite lookup_insert_eq, Hbl. by rewrite lookup_insert_ne.
Qed.

(** The loop over [orig_betas.items()], when it ends without an error. *)
Lemma write_all_Ok (cb : change_beta) (inds : list nat) (sim : Sim)
    (ob : gmap string value) :
  inds ≠ [] →
  Forall (λ ind, (ind < length (changes cb))%nat) inds →
  ∀ sim', map_fold (write_layer cb inds) (Ok sim) ob = Ok sim' →
  (∀ layer v, ob !! layer = Some v →
     ∃ b, v = VNum b ∧
          live_beta sim' layer = Some (VNum (b * factor_product cb inds)%Qc)) ∧
  (∀ l, ob !! l = None → live_beta sim' l = live_beta sim l) ∧
  t sim' = t sim.
Proof.
  intros Hne Hin.
  apply (map_fold_weak_ind (λ r m, ∀ sim', r = Ok sim' →
    (∀ layer v, m !! layer = Some v →
       ∃ b, v = VNum b ∧
            live_beta sim' layer = Some (VNum (b * factor_product cb inds)%Qc)) ∧
    (∀ l, m !! l = None → live_beta sim' l = live_beta sim l) ∧
    t sim' = t sim)).
  - intros sim' [= <-]. split; [|done]. intros layer v Hl. by rewrite lookup_empty in Hl.
  - intros i x m r Hi IH sim' Hw.
    destruct r as [s|e]; [|done].
    destruct (IH s eq_refl) as (IH1 & IH2 & IH3).
    destruct (write_layer_Ok _ _ _ _ _ _ Hne Hin Hw) as (Hnew & Hframe & Ht).
    split; [|split; [|congruence]].
    + intros layer v Hl. destruct (decide (layer = i)) as [ -> |Hli].
      * rewrite lookup_insert_eq in Hl. injection Hl as <-. done.
      * rewrite lookup_insert_ne in Hl by done.
        rewrite (Hframe layer Hli). by apply IH1.
    + intros l Hl. apply lookup_insert_None in Hl as [Hl Hne'].
      rewrite (Hframe l) by done. by apply IH2.
Qed.

(** The same loop does end without an error when the cached values are
    numbers and [beta_layers] is a mapping. *)
Lemma write_all_total (cb : change_beta) (inds : list nat) (sim : Sim)
    (base : gmap string Qc) (d : gmap string Qc) :
  Forall (λ ind, (ind < length (changes cb))%nat) inds →
  pars sim !! "beta_layers" = Some (VDict d) →
  ∃ sim', map_fold (write_layer cb inds) (Ok sim) (VNum <$> base) = Ok sim'.
Proof.
  intros Hin Hbl.
  cut (∃ sim', map_fold (write_layer cb inds) (Ok sim) (VNum <$> base) = Ok sim'
               ∧ ∃ d', pars sim' !! "beta_layers" = Some (VDict d')).
  { intros (sim' & H & _). by exists sim'. }
  apply (map_fold_weak_ind (λ r (m : gmap string value),
    (∀ i v, m !! i = Some v → ∃ b, v = VNum b) →
    ∃ sim', r = Ok sim' ∧ ∃ d', pars sim' !! "beta_layers" = Some (VDict d'))).
  - intros _. exists sim. split; [done|]. by exists d.
  - intros i x m r Hi IH Hnum.
    destruct IH as (s & -> & d' & Hd').
    { intros j v Hj. apply (Hnum j v). rewrite lookup_insert_ne; [done|]. congruence. }
    destruct (Hnum i x) as [b ->]; [by rewrite lookup_insert_eq|].
    unfold write_layer. simpl. rewrite (scaled_numeric _ _ _ Hin). simpl.
    destruct (decide (i = "overall")).
    + eexists. split; [done|]. exists d'. simpl. by rewrite lookup_insert_ne.
    + unfold sim_getitem. rewrite Hd'. simpl.
      eexists. split; [done|]. eexists. simpl. by rewrite lookup_insert_eq.
  - intros i v Hv. rewrite lookup_fmap in Hv.
    destruct (base !! i) as [b|]; simpl in Hv; [|done]. exists b. congruence.
Qed.

(** Partial correctness of [apply], the first call included: whenever the
    call returns on a scheduled day, every cached baseline is a number and
    the live value of its key is that baseline scaled. *)
Lemma change_beta_apply_Ok (cb cb' : change_beta) (sim sim' : Sim) :
  length (days cb) = length (changes cb) →
  findinds (days cb) (Z.of_nat (t sim)) ≠ [] →
  apply cb sim = Ok (cb', sim') →
  ∃ ob, orig_betas cb' = Some ob ∧
        (orig_betas cb = Some ob ∨
         orig_betas cb = None ∧ snapshot sim (layers cb) = Ok ob) ∧
        ∀ layer v, ob !! layer = Some v →
          ∃ b, v = VNum b ∧
               live_beta sim' layer =
                 Some (VNum (b * factor_product cb (findinds (days cb) (Z.of_nat (t sim))))%Qc).
Proof.
  intros Hlen Hne. unfold apply.
  set (inds := findinds (days cb) (Z.of_nat (t sim))) in *.
  pose proof (findinds_in_range cb (Z.of_nat (t sim)) Hlen) as Hin. fold inds in Hin.
  intros Ha. apply bind_Ok in Ha as (ob & Hob & Ha).
  apply bind_Ok in Ha as (s & Hs & [= <- <-]).
  exists ob. split; [done|]. split.
  - destruct (orig_betas cb); [left; congruence | right; done].
  - destruct inds as [|ind inds'] eqn:Hinds; [done|].
    by destruct (write_all_Ok cb (ind :: inds') sim ob Hne Hin s Hs) as (H & _).
Qed.

(** The factors met by the inner loop are those of the schedule entries
    whose day is the current day. *)
Lemma findinds_from_matching (pre cs : list Qc) (ds : list Z) (day : Z) :
  length ds = length cs →
  (λ ind, default 1%Qc ((pre ++ cs) !! ind)) <$> findinds_from (length pre) ds day =
  (filter (λ dc : Z * Qc, dc.1 = day) (zip ds cs)).*2.
Proof.
  revert pre cs. induction ds as [|d ds IH]; intros pre [|c cs] Hlen; simpl in *; try done.
  assert ((λ ind, default 1%Qc ((pre ++ c :: cs) !! ind)) <$>
            findinds_from (S (length pre)) ds day =
          (filter (λ dc : Z * Qc, dc.1 = day) (zip ds cs)).*2) as Hrest.
  { specialize (IH (pre ++ [c]) cs ltac:(lia)).
    rewrite length_app, <- (assoc_L (++)) in IH. simpl in IH.
    by replace (length pre + 1)%nat with (S (length pre)) in IH by lia. }
  rewrite filter_cons. simpl. destruct (decide (d = day)) as [ -> |Hne].
  - rewrite fmap_cons. simpl. rewrite Hrest. f_equal.
    by rewrite lookup_app_r, Nat.sub_diag by lia.
  - done.
Qed.

Lemma factor_product_matching (cb : change_beta) (day : Z) :
  length (days cb) = length (changes cb) →
  factor_product cb (findinds (days cb) day) = product (matching_changes cb day).
Proof.
  intros Hlen. unfold matching_changes, findinds.
  rewrite <- (findinds_from_matching [] (changes cb) (days cb) day Hlen). simpl.
  unfold factor_product, product.
  induction (findinds_from 0 (days cb) day) as [|ind inds IH]; simpl; [done|].
  by rewrite IH.
Qed.

(** C2. Once the baseline is cached ([orig_betas] holds a number for each
    configured key), [apply] on a day matched by at least one schedule
    entry returns, keeps the cache, and leaves as the live beta of every
    cached key the cached baseline times the product of all the change
    factors scheduled for that day, whatever the live value was before. *)
Theorem change_beta_scales_cached_baseline (cb : change_beta) (sim : Sim)
    (base d : gmap string Qc) :
  length (days cb) = length (changes cb) →
  orig_betas cb = Some (VNum <$> base) →
  pars sim !! "beta_layers" = Some (VDict d) →
  findinds (days cb) (Z.of_nat (t sim)) ≠ [] →
  ∃ sim', apply cb sim = Ok (cb, sim') ∧
    ∀ layer b, base !! layer = Some b →
      live_beta sim' layer =
        Some (VNum (b * product (matching_changes cb (Z.of_nat (t sim))))%Qc).
Proof.
  intros Hlen Hob Hbl Hne.
  rewrite <- (factor_product_matching cb _ Hlen).
  pose proof (findinds_in_range cb (Z.of_nat (t sim)) Hlen) as Hin.
  destruct (write_all_total cb _ sim base d Hin Hbl) as [sim' Hw].
  assert (apply cb sim = Ok (cb, sim')) as Ha.
  { unfold apply. rewrite Hob. simpl.
    destruct (findinds (days cb) (Z.of_nat (t sim))) eqn:Hf; [done|].
    rewrite Hw. simpl. unfold set_orig_betas. destruct cb; simpl in *. by subst. }
  exists sim'. split; [done|].
  intros layer b Hb.
  destruct (change_beta_apply_Ok cb cb sim sim' Hlen Hne Ha) as (ob & Hob' & _ & Hlive).
  rewrite Hob in Hob'. injection Hob' as <-.
  destruct (Hlive layer (VNum b)) as (b' & [= <-] & Hl); [|done].
  by rewrite lookup_fmap, Hb.
Qed.

End ChangeBetaFacts.

Lemma change_beta_scales_cached_baseline_witness :
  ChangeBeta.matching_changes change_beta_example 10 = [half; half] ∧
  ∃ sim', ChangeBeta.apply change_beta_example sim_day10 = Ok (change_beta_example, sim') ∧
          ChangeBeta.live_beta sim' "overall" = Some (VNum (Q2Qc (375 # 100000))).
Proof.
  split; [reflexivity|].
  destruct (change_beta_scales_cached_baseline change_beta_example sim_day10
              baseline_example layers_example) as (sim' & Ha & Hlive).
  - reflexivity.
  - reflexivity.
  - reflexivity.
  - discriminate.
  - exists sim'. split; [exact Ha|].
    rewrite (Hlive "overall" (Q2Qc (15 # 1000)) eq_refl).
    do 2 f_equal. apply Qc_is_canon. reflexivity.
Defined.

(** ** [test_num] *)

Section TestNumFacts.
Import TestNum.
Context {rng : Type} `{!PersonAPI rng} `{!Sampler rng}.

Lemma num_add_zero (a : num) : num_add a (Fin 0) = a.
Proof. destruct a; simpl; [f_equal; lia|done..]. Qed.

Lemma scan_people_length (tn : test_num) (day : nat) (ps : list Person) :
  length (scan_people tn day ps).1.1 = length ps ∧
  length (scan_people tn day ps).1.2 = length ps.
Proof.
  induction ps as [|person rest [IH1 IH2]]; simpl; [done|].
  destruct (check_diagnosed day person) as [d person'].
  destruct (scan_people tn day rest) as [[ps' probs] nd]. simpl in *. lia.
Qed.

(** Entry [i] of [test_probs] is computed from person [i] as
    [check_diagnosed] leaves it. *)
Lemma scan_people_lookup (tn : test_num) (day : nat) (ps : list Person) (i : nat) :
  (scan_people tn day ps).1.1 !! i = (λ p, (check_diagnosed day p).2) <$> ps !! i ∧
  (scan_people tn day ps).1.2 !! i =
    test_prob_of tn <$> (scan_people tn day ps).1.1 !! i.
Proof.
  revert i. induction ps as [|person rest IH]; intros i; simpl; [done|].
  destruct (check_diagnosed day person) as [d person'] eqn:Hc.
  destruct (scan_people tn day rest) as [[ps' probs] nd].
  destruct i as [|i]; simpl; [by rewrite Hc|]. apply IH.
Qed.

Lemma test_one_Ok (tn : test_num) (day : nat) (ps : list Person) (g : rng) (i : nat) :
  (i < length ps)%nat →
  ∃ ps' g', test_one tn day (ps, g) i = Ok (ps', g') ∧ length ps' = length ps ∧
            ∀ j, j ≠ i → ps' !! j = ps !! j.
Proof.
  intros Hi. destruct (lookup_lt_is_Some_2 _ _ Hi) as [person Hp].
  unfold test_one, getitem. simpl. rewrite Hp. simpl.
  destruct (test day (sensitivity tn) (test_delay tn) person g) as [person' g'].
  exists (<[i:=person']> ps), g'. split; [done|]. split; [by rewrite length_insert|].
  intros j Hj. by rewrite list_lookup_insert_ne.
Qed.

(** The loop over [test_inds] goes through when the indices are in range,
    and touches nobody else. *)
Lemma test_loop_Ok (tn : test_num) (day : nat) (inds : list nat) (ps : list Person) (g : rng) :
  Forall (λ i, (i < length ps)%nat) inds →
  ∃ ps' g', for_each (test_one tn day) inds (ps, g) = Ok (ps', g') ∧
            length ps' = length ps ∧
            ∀ j, j ∉ inds → ps' !! j = ps !! j.
Proof.
  revert ps g. induction inds as [|i inds IH]; intros ps g Hin; simpl.
  - by exists ps, g.
  - apply Forall_cons in Hin as [Hi Hin].
    destruct (test_one_Ok tn day ps g i Hi) as (ps1 & g1 & -> & Hlen & Hframe). simpl.
    destruct (IH ps1 g1) as (ps' & g' & -> & Hlen' & Hframe').
    { by rewrite Hlen. }
    exists ps', g'. split; [done|]. split; [congruence|].
    intros j Hj. apply not_elem_of_cons in Hj as [Hji Hj].
    rewrite Hframe' by done. by apply Hframe.
Qed.

Lemma apply_testing_day (tn : test_num) (sim : Sim) (g : rng) (n_tests cur cur_d : num) :
  sampler_contract rng →
  daily_tests tn !! t sim = Some n_tests →
  num_truthy n_tests && isfinite n_tests = true →
  new_tests (results sim) !! t sim = Some cur →
  new_diagnoses (results sim) !! t sim = Some cur_d →
  ∃ ps' g',
    for_each (test_one tn (t sim)) (selection tn sim n_tests g).2
      ((selection tn sim n_tests g).1,
       (choose_weighted (scan_people tn (t sim) (people sim)).1.2 n_tests g).2)
      = Ok (ps', g') ∧
    apply tn sim g = Ok (tested_state tn sim n_tests cur cur_d ps', g').
Proof.
  intros Hs Hn Htest Hcur Hcur_d.
  pose proof (scan_people_length tn (t sim) (people sim)) as [Hl1 Hl2].
  unfold selection, apply, tested_state. rewrite Hn.
  unfold add_new_tests, getitem. rewrite Hcur. simpl. rewrite Htest. simpl.
  destruct (scan_people tn (t sim) (people sim)) as [[ps probs] nd] eqn:Hscan.
  simpl in *.
  destruct (choose_weighted probs n_tests g) as [inds g1] eqn:Hcw. simpl.
  unfold add_new_diagnoses, getitem. simpl. rewrite Hcur_d. simpl.
  destruct (test_loop_Ok tn (t sim) inds ps g1) as (ps' & g' & Hloop & _).
  { apply Forall_forall. intros i Hi.
    destruct (sampler_support Hs probs n_tests g i) as (p & Hp & _).
    { by rewrite Hcw. }
    apply lookup_lt_Some in Hp. lia. }
  exists ps', g'. rewrite Hloop. done.
Qed.

Lemma apply_quiet_day (tn : test_num) (sim : Sim) (g : rng) (n_tests cur : num) :
  daily_tests tn !! t sim = Some n_tests →
  num_truthy n_tests && isfinite n_tests = false →
  new_tests (results sim) !! t sim = Some cur →
  apply tn sim g =
    Ok (set_results sim
          {| new_tests := <[t sim := num_add cur n_tests]> (new_tests (results sim));
             new_diagnoses := new_diagnoses (results sim) |}, g).
Proof.
  intros Hn Htest Hcur. unfold apply. rewrite Hn.
  unfold add_new_tests, getitem. rewrite Hcur. simpl. by rewrite Htest.
Qed.

(** Every call within the budget and the result arrays returns, adds the
    day's budget to [new_tests] at the day's position, and changes neither
    the day nor the length of [new_diagnoses]. *)
Lemma apply_within_budget (tn : test_num) (sim : Sim) (g : rng) (n_tests : num) :
  sampler_contract rng →
  daily_tests tn !! t sim = Some n_tests →
  (t sim < length (new_tests (results sim)))%nat →
  (t sim < length (new_diagnoses (results sim)))%nat →
  ∃ sim' g' cur,
    apply tn sim g = Ok (sim', g') ∧
    new_tests (results sim) !! t sim = Some cur ∧
    new_tests (results sim') =
      <[t sim := num_add cur n_tests]> (new_tests (results sim)) ∧
    length (new_diagnoses (results sim')) = length (new_diagnoses (results sim)) ∧
    t sim' = t sim.
Proof.
  intros Hs Hn Ht Hd.
  destruct (lookup_lt_is_Some_2 _ _ Ht) as [cur Hcur].
  destruct (lookup_lt_is_Some_2 _ _ Hd) as [cur_d Hcur_d].
  destruct (num_truthy n_tests && isfinite n_tests) eqn:Htest.
  - destruct (apply_testing_day tn sim g n_tests cur cur_d Hs Hn Htest Hcur Hcur_d)
      as (ps' & g' & _ & Ha).
    exists (tested_state tn sim n_tests cur cur_d ps'), g', cur.
    split; [done|]. split; [done|]. split; [done|]. simpl.
    by rewrite length_insert.
  - eexists _, g, cur. split; [by apply apply_quiet_day|]. done.
Qed.

Lemma run_new_tests (tn : test_num) (n day : nat) (sim : Sim) (g : rng) :
  sampler_contract rng →
  (day + n ≤ length (daily_tests tn))%nat →
  (day + n ≤ length (new_tests (results sim)))%nat →
  (day + n ≤ length (new_diagnoses (results sim)))%nat →
  ∃ sim' g',
    run tn n day sim g = Ok (sim', g') ∧
    ∀ k, new_tests (results sim') !! k =
           if decide (day ≤ k < day + n)%nat
           then match new_tests (results sim) !! k, daily_tests tn !! k with
                | Some cur, Some n_tests => Some (num_add cur n_tests)
                | _, _ => None
                end
           else new_tests (results sim) !! k.
Proof.
  intros Hs. revert day sim g. induction n as [|n IH]; intros day sim g Hb Ht Hd.
  - exists sim, g. split; [done|]. intros k. rewrite decide_False by lia. done.
  - simpl.
    destruct (lookup_lt_is_Some_2 (daily_tests tn) day ltac:(lia)) as [n_tests Hn].
    destruct (apply_within_budget tn (set_t sim day) g n_tests Hs Hn)
      as (sim1 & g1 & cur & -> & Hcur & Hnt & Hlen & Hday); simpl in *; [lia..|].
    destruct (IH (S day) sim1 g1) as (sim' & g' & -> & Hlook).
    { lia. } { rewrite Hnt, length_insert. lia. } { lia. }
    exists sim', g'. split; [done|]. intros k. rewrite Hlook, Hnt.
    destruct (decide (k = day)) as [ -> |Hk].
    + rewrite decide_False by lia. rewrite decide_True by lia.
      rewrite list_lookup_insert_eq by lia. by rewrite Hcur, Hn.
    + rewrite list_lookup_insert_ne by done.
      destruct (decide (S day ≤ k < S day + n)%nat).
      * rewrite decide_True by lia. done.
      * rewrite decide_False by lia. done.
Qed.

(** C5. On a day within [daily_tests] (and within the result arrays),
    [apply] returns and adds exactly [daily_tests[t]] to
    [results['new_tests'][t]], leaving the other entries alone; on a day
    beyond [daily_tests] it returns at once with the state, the results
    included, unchanged.  With a budget of 2 on each of 5 days, [new_tests]
    goes from all zeros to [2; 2; 2; 2; 2]. *)
Theorem test_num_adds_daily_budget (tn : test_num) :
  sampler_contract rng →
  (∀ sim g n_tests,
     daily_tests tn !! t sim = Some n_tests →
     (t sim < length (new_tests (results sim)))%nat →
     (t sim < length (new_diagnoses (results sim)))%nat →
     ∃ sim' g' cur,
       apply tn sim g = Ok (sim', g') ∧
       new_tests (results sim) !! t sim = Some cur ∧
       new_tests (results sim') =
         <[t sim := num_add cur n_tests]> (new_tests (results sim))) ∧
  (∀ sim g, (length (daily_tests tn) ≤ t sim)%nat → apply tn sim g = Ok (sim, g)) ∧
  (daily_tests tn = replicate 5 (Fin 2) →
   ∀ sim g,
     new_tests (results sim) = replicate 5 (Fin 0) →
     length (new_diagnoses (results sim)) = 5%nat →
     ∃ sim' g',
       run tn 5 0 sim g = Ok (sim', g') ∧
       new_tests (results sim') = replicate 5 (Fin 2)).
Proof.
  intros Hs. split; [|split].
  - intros sim g n_tests Hn Ht Hd.
    destruct (apply_within_budget tn sim g n_tests Hs Hn Ht Hd)
      as (sim' & g' & cur & Ha & Hcur & Hnt & _).
    by exists sim', g', cur.
  - intros sim g Hlen. unfold apply. by rewrite (lookup_ge_None_2 _ _ Hlen).
  - intros Hdt sim g Hnt Hnd.
    destruct (run_new_tests tn 5 0 sim g Hs) as (sim' & g' & Hrun & Hlook).
    { rewrite Hdt. simpl. lia. } { rewrite Hnt. simpl. lia. } { lia. }
    exists sim', g'. split; [done|].
    apply list_eq. intros k. rewrite Hlook, Hnt, Hdt.
    do 5 (destruct k as [|k]; [done|]). done.
Qed.

(** C6. Each entry of [test_probs] starts at 1, is multiplied by
    [sympt_test] for a symptomatic person and by [trace_test] for a known
    contact, and is 0 for a diagnosed person, the flags being read after
    [check_diagnosed]; the indices drawn from these propensities never
    include a diagnosed person, and the drawn indices are the only people
    [apply] tests. *)
Theorem test_num_never_selects_diagnosed (tn : test_num) (sim : Sim)
    (n_tests : num) (g : rng) :
  sampler_contract rng →
  (∀ i person,
     (selection tn sim n_tests g).1 !! i = Some person →
     (∃ before, people sim !! i = Some before ∧
                person = (check_diagnosed (t sim) before).2) ∧
     (scan_people tn (t sim) (people sim)).1.2 !! i =
       Some (if diagnosed person then 0
             else (if symptomatic person then sympt_test tn else 1) *
                  (if known_contact person then trace_test tn else 1))%Qc) ∧
  (∀ i, i ∈ (selection tn sim n_tests g).2 →
     ∃ person, (selection tn sim n_tests g).1 !! i = Some person ∧
               diagnosed person = false) ∧
  (∀ cur cur_d,
     daily_tests tn !! t sim = Some n_tests →
     num_truthy n_tests && isfinite n_tests = true →
     new_tests (results sim) !! t sim = Some cur →
     new_diagnoses (results sim) !! t sim = Some cur_d →
     ∃ ps' g',
       apply tn sim g = Ok (tested_state tn sim n_tests cur cur_d ps', g') ∧
       ∀ j, j ∉ (selection tn sim n_tests g).2 →
            ps' !! j = (selection tn sim n_tests g).1 !! j).
Proof.
  intros Hs.
  assert ((selection tn sim n_tests g).1 = (scan_people tn (t sim) (people sim)).1.1) as Hsel1.
  { unfold selection. by destruct (scan_people tn (t sim) (people sim)) as [[ps probs] nd]. }
  assert ((selection tn sim n_tests g).2 =
          (choose_weighted (scan_people tn (t sim) (people sim)).1.2 n_tests g).1) as Hsel2.
  { unfold selection. by destruct (scan_people tn (t sim) (people sim)) as [[ps probs] nd]. }
  split; [|split].
  - intros i person Hp. rewrite Hsel1 in Hp.
    destruct (scan_people_lookup tn (t sim) (people sim) i) as [Hps Hprobs].
    split.
    + rewrite Hp in Hps. destruct (people sim !! i) as [before|]; [|done].
      exists before. split; [done|]. simpl in Hps. congruence.
    + rewrite Hprobs, Hp. simpl. f_equal. unfold test_prob_of.
      destruct (diagnosed person); [done|].
      destruct (symptomatic person), (known_contact person);
        rewrite ?Qcmult_1_l, ?Qcmult_1_r; done.
  - intros i Hi. rewrite Hsel2 in Hi. rewrite Hsel1.
    destruct (sampler_support Hs _ _ _ _ Hi) as (p & Hp & Hpos).
    destruct (scan_people_lookup tn (t sim) (people sim) i) as [_ Hprobs].
    rewrite Hp in Hprobs.
    destruct ((scan_people tn (t sim) (people sim)).1.1 !! i) as [person|]; [|done].
    exists person. split; [done|]. simpl in Hprobs. injection Hprobs as ->.
    unfold test_prob_of in Hpos. destruct (diagnosed person); [|done].
    exfalso. revert Hpos. apply Qcle_not_lt, Qcle_refl.
  - intros cur cur_d Hn Htest Hcur Hcur_d.
    destruct (apply_testing_day tn sim g n_tests cur cur_d Hs Hn Htest Hcur Hcur_d)
      as (ps' & g' & Hloop & Ha).
    exists ps', g'. split; [done|]. intros j Hj.
    destruct (test_loop_Ok tn (t sim) (selection tn sim n_tests g).2
                (selection tn sim n_tests g).1
                (choose_weighted (scan_people tn (t sim) (people sim)).1.2 n_tests g).2)
      as (ps'' & g'' & Hloop' & _ & Hframe).
    { apply Forall_forall. intros i Hi. rewrite Hsel2 in Hi. rewrite Hsel1.
      destruct (sampler_support Hs _ _ _ _ Hi) as (p & Hp & _).
      apply lookup_lt_Some in Hp.
      pose proof (scan_people_length tn (t sim) (people sim)). lia. }
    rewrite Hloop in Hloop'. injection Hloop' as <- <-. by apply Hframe.
Qed.


End TestNumFacts.

Lemma first_eligible_from_spec (probs : list Qc) (i k : nat) :
  k ∈ eligible_from i probs →
  (i ≤ k)%nat ∧ ∃ p, probs !! (k - i)%nat = Some p ∧ (0 < p)%Qc.
Proof.
  revert i. induction probs as [|p ps IH]; intros i; simpl.
  - intros H. by apply elem_of_nil in H.
  - assert (k ∈ eligible_from (S i) ps →
            (i ≤ k)%nat ∧ ∃ p0, (p :: ps) !! (k - i)%nat = Some p0 ∧ (0 < p0)%Qc) as Hrec.
    { intros H. destruct (IH _ H) as (Hle & p0 & Hp0 & Hpos). split; [lia|].
      exists p0. split; [|done]. by replace (k - i)%nat with (S (k - S i)) by lia. }
    destruct (decide (0 < p)%Qc) as [Hp|Hp]; [|done].
    intros H. apply elem_of_cons in H as [ -> |H]; [|by apply Hrec].
    split; [lia|]. exists p. split; [|done]. by replace (i - i)%nat with 0%nat by lia.
Qed.

Lemma first_eligible_from_NoDup (probs : list Qc) (i : nat) :
  NoDup (eligible_from i probs).
Proof.
  revert i. induction probs as [|p ps IH]; intros i; simpl; [constructor|].
  destruct (decide (0 < p)%Qc); [|done]. constructor; [|done].
  intros H. apply first_eligible_from_spec in H as [H _]. lia.
Qed.

Lemma first_eligible_contract : sampler_contract nat.
Proof.
  split.
  - intros probs n g i Hi.
    assert (i ∈ eligible_from 0 probs) as Hel.
    { destruct n; simpl in Hi; [|done|by apply elem_of_nil in Hi..].
      by apply (subseteq_take (Z.to_nat z)). }
    apply first_eligible_from_spec in Hel as (_ & p & Hp & Hpos).
    exists p. by replace (i - 0)%nat with i in Hp by lia.
  - intros probs n g. pose proof (first_eligible_from_NoDup probs 0) as Hnd.
    destruct n; simpl; [|done|constructor..].
    eapply sublist_NoDup; [exact Hnd | apply sublist_take].
  - intros probs z g. simpl. rewrite length_take. lia.
Qed.

Lemma test_num_adds_daily_budget_witness :
  ∃ sim' g',
    TestNum.run (test_num_example (replicate 5 (Fin 2))) 5 0 (sim_five_days 0) 0%nat
      = Ok (sim', g') ∧
    new_tests (results sim') = replicate 5 (Fin 2).
Proof.
  destruct (test_num_adds_daily_budget (test_num_example (replicate 5 (Fin 2)))
              first_eligible_contract) as (_ & _ & Hrun).
  exact (Hrun eq_refl (sim_five_days 0) 0%nat eq_refl eq_refl).
Defined.

Lemma test_num_never_selects_diagnosed_witness :
  (TestNum.selection (test_num_example [Fin 2]) (sim_five_days 0) (Fin 2) 0%nat).2
    = [1%nat; 2%nat] ∧
  ∀ i, i ∈ (TestNum.selection (test_num_example [Fin 2]) (sim_five_days 0) (Fin 2) 0%nat).2 →
    ∃ person,
      (TestNum.selection (test_num_example [Fin 2]) (sim_five_days 0) (Fin 2) 0%nat).1 !! i
        = Some person ∧ diagnosed person = false.
Proof.
  split; [reflexivity|].
  exact (proj1 (proj2 (test_num_never_selects_diagnosed (test_num_example [Fin 2])
                         (sim_five_days 0) (Fin 2) 0%nat first_eligible_contract))).
Defined.



(** ** [contact_tracing] *)

Lemma for_each_invariant {A S} (R : S → S → Prop) `{!Reflexive R} `{!Transitive R}
    (body : S → A → res S) (xs : list A) (s s' : S) :
  (∀ s1 x s2, body s1 x = Ok s2 → R s1 s2) →
  for_each body xs s = Ok s' → R s s'.
Proof.
  intros Hbody. revert s. induction xs as [|x xs IH]; intros s; simpl.
  - by intros [= <-].
  - intros H. apply bind_Ok in H as (s1 & H1 & H2).
    etrans; [by eapply Hbody | by apply IH].
Qed.

Lemma for_each_total {A S} (Inv : S → Prop) (body : S → A → res S)
    (xs : list A) (s : S) :
  (∀ s1 x, x ∈ xs → Inv s1 → ∃ s2, body s1 x = Ok s2 ∧ Inv s2) →
  Inv s → ∃ s', for_each body xs s = Ok s' ∧ Inv s'.
Proof.
  revert s. induction xs as [|x xs IH]; intros s Hbody Hs; simpl.
  - by exists s.
  - destruct (Hbody s x) as (s1 & -> & Hs1); [left|done|]. simpl.
    apply IH; [|done]. intros s2 y Hy. apply Hbody. by right.
Qed.

(** Induction over a loop on [range]: [Inv k] holds when the loop reaches
    position [k]. *)
Lemma for_each_seq_ind {S} (body : S → nat → res S) (Inv : nat → S → Prop)
    (len a : nat) (s s' : S) :
  Inv a s →
  (∀ k s1 s2, (a ≤ k < a + len)%nat → Inv k s1 → body s1 k = Ok s2 → Inv (Datatypes.S k) s2) →
  for_each body (seq a len) s = Ok s' → Inv (a + len)%nat s'.
Proof.
  revert a s. induction len as [|len IH]; intros a s Hinv Hstep; simpl.
  - intros [= <-]. by rewrite Nat.add_0_r.
  - intros H. apply bind_Ok in H as (s1 & H1 & H2).
    replace (a + Datatypes.S len)%nat with (Datatypes.S a + len)%nat by lia.
    apply (IH (Datatypes.S a) s1); [|intros k s2 s3 Hk; apply Hstep; lia|done].
    apply (Hstep a s s1); [lia|done|done].
Qed.

Section ContactTracingFacts.
Import ContactTracing.
Context {rng : Type} `{!PersonAPI rng}.

#[local] Instance no_later_refl : Reflexive no_later.
Proof. intros p e He. exists e. split; [done|lia]. Qed.

#[local] Instance no_later_trans : Transitive no_later.
Proof.
  intros p1 p2 p3 H12 H23 e He.
  destruct (H12 e He) as (e2 & He2 & Hle2).
  destruct (H23 e2 He2) as (e3 & He3 & Hle3).
  exists e3. split; [done|lia].
Qed.






Lemma notify_inv (day : nat) (ps ps' : list Person) (c : nat * Z) :
  notify day ps c = Ok ps' →
  ∃ target, ps !! c.1 = Some target ∧
    ps' = <[c.1 := set_date_known_contact target
                     (update_known_contact day c.2 (date_known_contact target))]> ps.
Proof.
  unfold notify, getitem. destruct (ps !! c.1) as [target|]; simpl; [|done].
  intros [= <-]. by exists target.
Qed.

(** The loop over the items of a mapping updates every contacted person
    exactly once and nobody else. *)
Lemma notify_list (day : nat) (l : list (nat * Z)) (ps ps' : list Person) :
  NoDup l.*1 →
  for_each (notify day) l ps = Ok ps' →
  (∀ i d, (i, d) ∈ l →
     ∃ target, ps !! i = Some target ∧
       ps' !! i = Some (set_date_known_contact target
                          (update_known_contact day d (date_known_contact target)))) ∧
  (∀ i, i ∉ l.*1 → ps' !! i = ps !! i).
Proof.
  revert ps. induction l as [|[ci d] l IH]; intros ps Hnd; simpl.
  - intros [= <-]. split; [|done]. intros i d' H. by apply elem_of_nil in H.
  - intros H. apply bind_Ok in H as (ps1 & H1 & H2).
    apply NoDup_cons in Hnd as [Hci Hnd].
    destruct (IH ps1 Hnd H2) as [IHin IHout].
    apply notify_inv in H1 as (target & Ht & ->). simpl in *.
    pose proof (lookup_lt_Some _ _ _ Ht) as Hlt.
    split.
    + intros i d' Hin. apply elem_of_cons in Hin as [[= -> ->]|Hin].
      * exists target. split; [done|]. rewrite (IHout ci Hci).
        by apply list_lookup_insert_eq.
      * assert (i ≠ ci) as Hne.
        { intros ->. apply Hci. apply list_elem_of_fmap. by exists (ci, d'). }
        destruct (IHin i d' Hin) as (target' & Ht' & Hps').
        rewrite list_lookup_insert_ne in Ht' by done. by exists target'.
    + intros i Hi. apply not_elem_of_cons in Hi as [Hne Hi].
      rewrite (IHout i Hi). by rewrite list_lookup_insert_ne.
Qed.




(** The loop over the items of [contacts] gives every contact its new
    date and leaves everybody else as they were. *)
Lemma notify_contacts (day : nat) (contacts : gmap nat Z) (ps ps' : list Person) :
  for_each (notify day) (map_to_list contacts) ps = Ok ps' →
  ∀ i, ps' !! i =
       match contacts !! i with
       | Some contact_time =>
           (λ target, set_date_known_contact target
              (update_known_contact day contact_time (date_known_contact target)))
             <$> ps !! i
       | None => ps !! i
       end.
Proof.
  intros Hloop i.
  destruct (notify_list day _ ps ps' (NoDup_fst_map_to_list _) Hloop) as [Hin Hout].
  destruct (contacts !! i) as [d|] eqn:Hi.
  - destruct (Hin i d) as (target & Ht & Hps'); [by apply elem_of_map_to_list|].
    by rewrite Hps', Ht.
  - apply Hout. intros Hel. apply list_elem_of_fmap in Hel as ([i' d] & -> & Hel).
    apply elem_of_map_to_list in Hel. simpl in Hi. congruence.
Qed.


(** The turn of somebody who is not infectious, or was not diagnosed the
    day before: at most their own dynamic contacts change. *)
Lemma trace_person_quiet (ct : contact_tracing) (day : nat)
    (st st' : list Person * rng) (k : nat) (person : Person) :
  st.1 !! k = Some person →
  ¬ (infectious person = true ∧ date_diagnosed person = Some (Z.of_nat day - 1)) →
  trace_person ct day st k = Ok st' →
  st' = if infectious person
        then (<[k := set_dyn_cont_ppl person
                       (trace_dynamic_contacts (trace_probs ct) (trace_time ct)
                          person st.2).1]> st.1,
              (trace_dynamic_contacts (trace_probs ct) (trace_time ct) person st.2).2)
        else st.
Proof.
  intros Hk Hquiet. unfold trace_person, getitem. rewrite Hk. simpl.
  destruct (infectious person) eqn:Hinf; simpl; [|by intros [= <-]].
  destruct (trace_dynamic_contacts _ _ person st.2) as [dyn g1]. simpl.
  rewrite bool_decide_eq_false_2 by (intros Hd; apply Hquiet; by split).
  by intros [= <-].
Qed.





End ContactTracingFacts.


(** On that day the contact's date moves from 15 to 12. *)
Lemma contact_tracing_example_outcome :
  ∃ sim' g',
    ContactTracing.apply contact_tracing_example sim_tracing 0%nat = Ok (sim', g') ∧
    date_known_contact <$> people sim' !! 1%nat = Some (Some 12).
Proof. eexists _, _. split; reflexivity. Qed.

(** ** Clustered contacts *)

Section PopulationFacts.
Import Population.

Lemma linked_add_contact (d : gmap nat (gset nat)) (i j a b : nat) :
  linked (add_contact i j d) a b ↔ linked d a b ∨ (a = i ∧ b = j).
Proof.
  unfold linked, add_contact. destruct (decide (a = i)) as [ -> |Ha].
  - rewrite lookup_insert_eq. split.
    + intros (s & [= <-] & Hb). apply elem_of_union in Hb as [Hb|Hb].
      * left. destruct (d !! i) as [s|]; [by exists s | set_solver].
      * right. set_solver.
    + intros [(s & Hs & Hb)|[_ ->]]; eexists; (split; [done|]).
      * rewrite Hs. set_solver.
      * set_solver.
  - rewrite lookup_insert_ne by done. split; [by left | intros [?|[? _]]; done].
Qed.

Lemma add_contact_keys (d : gmap nat (gset nat)) (i j a : nat) :
  is_Some (add_contact i j d !! a) → is_Some (d !! a) ∨ a = i.
Proof.
  unfold add_contact. destruct (decide (a = i)) as [ -> |Ha]; [by right|].
  rewrite lookup_insert_ne by done. by left.
Qed.

Lemma add_pair_clustered (n : nat) (d : gmap nat (gset nat)) (i j : nat) :
  (i < n)%nat → (j < n)%nat → clustered n d → clustered n (add_pair d i j).
Proof.
  intros Hi Hj [Hsym Hirr Hkeys]. unfold add_pair.
  destruct (decide (j ≤ i)%nat) as [Hle|Hlt]; [done|].
  split.
  - intros a b. rewrite !linked_add_contact.
    intros [[H|[-> ->]]|[-> ->]]; [left; left; by apply Hsym | by right | left; by right].
  - intros a. rewrite !linked_add_contact.
    intros [[H|[-> Heq]]|[-> Heq]]; [by apply (Hirr a) | lia | lia].
  - intros a s Ha.
    destruct (add_contact_keys (add_contact i j d) j i a) as [Hs| ->]; [by eexists| |done].
    destruct (add_contact_keys d i j a Hs) as [[s' Hs']| ->]; [|done].
    by apply (Hkeys a s').
Qed.

Lemma add_pairs_clustered (n : nat) (inner outer : list nat) (d : gmap nat (gset nat)) :
  Forall (λ i, (i < n)%nat) inner →
  Forall (λ i, (i < n)%nat) outer →
  clustered n d →
  clustered n (foldl (λ d' i, foldl (λ d'' j, add_pair d'' i j) d' inner) d outer).
Proof.
  intros Hinner Houter. revert d.
  induction Houter as [|i outer Hi _ IH]; intros d Hd; simpl; [done|].
  apply IH. clear IH. revert d Hd.
  induction Hinner as [|j inner Hj _ IH]; intros d Hd; simpl; [done|].
  apply IH. by apply add_pair_clustered.
Qed.

Lemma add_cluster_clustered (n : nat) (idx : list nat) (d : gmap nat (gset nat)) :
  Forall (λ i, (i < n)%nat) idx → clustered n d → clustered n (add_cluster idx d).
Proof. intros Hidx. by apply add_pairs_clustered. Qed.

Lemma fill_clusters_clustered (pop_size n_remaining : nat) (d d' : gmap nat (gset nat))
    (draws draws' : list nat) :
  (n_remaining ≤ pop_size)%nat →
  clustered pop_size d →
  fill_clusters pop_size n_remaining d draws = Some (d', draws') →
  clustered pop_size d'.
Proof.
  revert n_remaining d. induction draws as [|drawn draws IH]; intros n_remaining d Hn Hd.
  - destruct n_remaining; simpl; [|done]. by intros [= <- <-].
  - destruct n_remaining as [|m]; simpl; [by intros [= <- <-]|].
    apply IH; [lia|].
    apply add_cluster_clustered; [|done].
    apply Forall_forall. intros i Hi. apply elem_of_seq in Hi.
    destruct (decide (S m < drawn)%nat); lia.
Qed.

(** Within a cluster every pair of distinct members is linked, and nothing
    else is added: the cluster becomes a clique. *)
Lemma linked_add_pair (d : gmap nat (gset nat)) (i j a b : nat) :
  linked (add_pair d i j) a b ↔
  linked d a b ∨ ((i < j)%nat ∧ ((a = i ∧ b = j) ∨ (a = j ∧ b = i))).
Proof.
  unfold add_pair. destruct (decide (j ≤ i)%nat).
  - split; [by left | intros [?|[? _]]; [done|lia]].
  - rewrite !linked_add_contact. split.
    + intros [[?|?]|?]; [by left|right; split; [lia|by left]|right; split; [lia|by right]].
    + intros [?|[_ [?|?]]]; [by left; left|left; by right|by right].
Qed.

Lemma linked_add_cluster (idx : list nat) (d : gmap nat (gset nat)) (a b : nat) :
  linked (add_cluster idx d) a b ↔ linked d a b ∨ (a ∈ idx ∧ b ∈ idx ∧ a ≠ b).
Proof.
  unfold add_cluster.
  assert (∀ inner i d0,
    linked (foldl (λ d'' j, add_pair d'' i j) d0 inner) a b ↔
    linked d0 a b ∨ ∃ j, j ∈ inner ∧ (i < j)%nat ∧ ((a = i ∧ b = j) ∨ (a = j ∧ b = i)))
    as Hinner.
  { induction inner as [|j inner IH]; intros i d0; simpl.
    - split; [by left | intros [?|(j & ?%elem_of_nil & _)]; done].
    - rewrite IH, linked_add_pair. split.
      + intros [[?|[? ?]]|(j' & ? & ? & ?)]; [by left| |].
        * right. exists j. split; [left|done].
        * right. exists j'. split; [by right|done].
      + intros [?|(j' & [ -> |?]%elem_of_cons & ? & ?)]; [by left; left| |].
        * left. by right.
        * right. by exists j'. }
  assert (∀ outer inner d0,
    linked (foldl (λ d' i, foldl (λ d'' j, add_pair d'' i j) d' inner) d0 outer) a b ↔
    linked d0 a b ∨ ∃ i j, i ∈ outer ∧ j ∈ inner ∧ (i < j)%nat ∧
                           ((a = i ∧ b = j) ∨ (a = j ∧ b = i))) as Houter.
  { induction outer as [|i outer IH]; intros inner d0; simpl.
    - split; [by left | intros [?|(i & j & ?%elem_of_nil & _)]; done].
    - rewrite IH, Hinner. split.
      + intros [[?|(j & ? & ? & ?)]|(i' & j & ? & ? & ? & ?)]; [by left| |].
        * right. exists i, j. split; [left|done].
        * right. exists i', j. split; [by right|done].
      + intros [?|(i' & j & [ -> |?]%elem_of_cons & ? & ? & ?)]; [by left; left| |].
        * left. right. by exists j.
        * right. by exists i', j. }
  rewrite Houter. split.
  - intros [?|(i & j & Hi & Hj & Hlt & [[-> ->]|[-> ->]])]; [by left|right..];
      (split; [done|split; [done|lia]]).
  - intros [?|(Ha & Hb & Hne)]; [by left|right].
    destruct (decide (a < b)%nat).
    + exists a, b. repeat (split; [done|]). by left.
    + exists b, a. split; [done|]. split; [done|]. split; [lia|]. by right.
Qed.

Lemma clustered_empty (n : nat) : clustered n ∅.
Proof.
  split.
  - intros i j (s & Hs & _). by rewrite lookup_empty in Hs.
  - intros i (s & Hs & _). by rewrite lookup_empty in Hs.
  - intros i s Hs. by rewrite lookup_empty in Hs.
Qed.

(** With positive cluster sizes the loop leaves after at most
    [n_remaining] draws. *)
Lemma fill_clusters_returns (pop_size n_remaining : nat) (d : gmap nat (gset nat))
    (draws : list nat) :
  Forall (λ drawn, (0 < drawn)%nat) draws →
  (n_remaining ≤ length draws)%nat →
  ∃ d' draws',
    fill_clusters pop_size n_remaining d draws = Some (d', draws') ∧
    Forall (λ drawn, (0 < drawn)%nat) draws' ∧
    (length draws ≤ length draws' + n_remaining)%nat.
Proof.
  intros Hpos. revert n_remaining d.
  induction Hpos as [|drawn draws Hdrawn Hpos IH]; intros n_remaining d Hlen.
  - destruct n_remaining; simpl in *; [|lia]. eexists _, _. split; [done|].
    split; [constructor|simpl; lia].
  - destruct n_remaining as [|m]; simpl.
    + eexists _, _. split; [done|]. split; [by constructor|simpl; lia].
    + simpl in Hlen.
      destruct (IH (S m - (if decide (S m < drawn)%nat then S m else drawn))%nat
                  (add_cluster (seq (pop_size - S m)
                     (if decide (S m < drawn)%nat then S m else drawn)) d))
        as (d' & draws' & -> & Hpos' & Hlen').
      { destruct (decide (S m < drawn)%nat); lia. }
      eexists _, _. split; [done|]. split; [done|].
      destruct (decide (S m < drawn)%nat); lia.
Qed.

Lemma make_layers_returns (pop_size : nat) (layers : list (string * Qc))
    (cl : list (gmap string (list nat))) (draws : list nat) :
  Forall (λ drawn, (0 < drawn)%nat) draws →
  (length layers * pop_size ≤ length draws)%nat →
  is_Some (make_layers pop_size layers cl draws).
Proof.
  revert cl draws. induction layers as [|[layer_name cluster_size] layers IH];
    intros cl draws Hpos Hlen; simpl; [done|].
  simpl in Hlen.
  destruct (fill_clusters_returns pop_size pop_size ∅ draws Hpos ltac:(lia))
    as (d & draws1 & -> & Hpos1 & Hlen1).
  destruct (store_layer layer_name d cl); [|done].
  apply IH; [done|lia].
Qed.

(** Storing a layer: every key of [contacts_dict] is a position of
    [contacts_list], so nothing is raised, and exactly the entries of the
    keys are rewritten. *)
Lemma store_layer_Ok (layer_name : string) (d : gmap nat (gset nat))
    (cl : list (gmap string (list nat))) :
  (∀ i s, d !! i = Some s → (i < length cl)%nat) →
  ∃ cl', store_layer layer_name d cl = Ok cl' ∧ length cl' = length cl ∧
         ∀ i, cl' !! i =
              match d !! i with
              | Some s => <[layer_name := elements s]> <$> cl !! i
              | None => cl !! i
              end.
Proof.
  unfold store_layer.
  apply (map_fold_weak_ind (λ r (m : gmap nat (gset nat)),
    (∀ i s, m !! i = Some s → (i < length cl)%nat) →
    ∃ cl', r = Ok cl' ∧ length cl' = length cl ∧
           ∀ i, cl' !! i =
                match m !! i with
                | Some s => <[layer_name := elements s]> <$> cl !! i
                | None => cl !! i
                end)).
  - intros _. exists cl. split; [done|]. split; [done|]. intros i.
    by rewrite lookup_empty.
  - intros key s m r Hkey IH Hkeys.
    destruct IH as (cl1 & -> & Hlen & Hlook).
    { intros i s' Hi. apply (Hkeys i s'). rewrite lookup_insert_ne; [done|]. congruence. }
    assert (key < length cl)%nat as Hlt.
    { apply (Hkeys key s). by rewrite lookup_insert_eq. }
    destruct (lookup_lt_is_Some_2 cl1 key ltac:(lia)) as [entry Hentry].
    unfold store_key, getitem. simpl. rewrite Hentry. simpl.
    eexists. split; [done|]. split; [by rewrite length_insert|].
    intros i. destruct (decide (i = key)) as [ -> |Hne].
    + rewrite lookup_insert_eq, list_lookup_insert_eq by lia.
      rewrite Hlook, Hkey in Hentry. by rewrite Hentry.
    + rewrite lookup_insert_ne by done. rewrite list_lookup_insert_ne by done.
      apply Hlook.
Qed.

Lemma neighbors_stored (layer_name layer : string) (d : gmap nat (gset nat))
    (cl cl' : list (gmap string (list nat))) (i : nat) :
  (∀ i s, d !! i = Some s → (i < length cl)%nat) →
  (∀ i, cl' !! i =
        match d !! i with
        | Some s => <[layer_name := elements s]> <$> cl !! i
        | None => cl !! i
        end) →
  neighbors cl' i layer =
    if decide (layer = layer_name)
    then match d !! i with
         | Some s => elements s
         | None => neighbors cl i layer
         end
    else neighbors cl i layer.
Proof.
  intros Hkeys Hlook. unfold neighbors. rewrite Hlook.
  destruct (d !! i) as [s|] eqn:Hd.
  - destruct (lookup_lt_is_Some_2 cl i (Hkeys i s Hd)) as [entry ->]. simpl.
    destruct (decide (layer = layer_name)) as [ -> |Hne].
    + by rewrite lookup_insert_eq.
    + by rewrite lookup_insert_ne.
  - by destruct (decide (layer = layer_name)).
Qed.

Lemma layer_ok_stored (pop_size : nat) (layer_name layer : string)
    (d : gmap nat (gset nat)) (cl cl' : list (gmap string (list nat))) :
  clustered pop_size d →
  length cl = pop_size →
  (∀ i, cl' !! i =
        match d !! i with
        | Some s => <[layer_name := elements s]> <$> cl !! i
        | None => cl !! i
        end) →
  (∀ i, neighbors cl i layer_name = []) →
  layer_ok cl layer → layer_ok cl' layer.
Proof.
  intros [Hsym Hirr Hkeys] Hlen Hlook Hempty [Hs Hn Hd].
  assert (∀ i s, d !! i = Some s → (i < length cl)%nat) as Hkeys'.
  { intros i s Hi. rewrite Hlen. by apply (Hkeys i s). }
  pose proof (λ i, neighbors_stored layer_name layer d cl cl' i Hkeys' Hlook) as Hnb.
  destruct (decide (layer = layer_name)) as [ -> |Hne].
  - assert (∀ i j, j ∈ neighbors cl' i layer_name ↔ linked d i j) as Hlinked.
    { intros i j. rewrite Hnb. unfold linked. destruct (d !! i) as [s|].
      - rewrite elem_of_elements. split; [by exists s | by intros (s' & [= <-] & ?)].
      - rewrite Hempty. split; [by intros ?%elem_of_nil | by intros (s' & [=] & _)]. }
    split.
    + intros i j. rewrite !Hlinked. split; apply Hsym.
    + intros i. rewrite Hlinked. apply Hirr.
    + intros i. rewrite Hnb. destruct (d !! i); [apply NoDup_elements|].
      rewrite Hempty. constructor.
  - split.
    + intros i j. rewrite !Hnb. apply Hs.
    + intros i. rewrite Hnb. apply Hn.
    + intros i. rewrite Hnb. apply Hd.
Qed.

(** The loop over the layers neither raises nor breaks a layer. *)
Lemma make_layers_ok (pop_size : nat) (layers : list (string * Qc))
    (cl : list (gmap string (list nat))) (draws : list nat)
    (r : res (list (gmap string (list nat)) * list nat)) :
  NoDup layers.*1 →
  length cl = pop_size →
  (∀ layer, layer_ok cl layer) →
  (∀ layer, layer ∈ layers.*1 → ∀ i, neighbors cl i layer = []) →
  make_layers pop_size layers cl draws = Some r →
  ∃ cl' draws', r = Ok (cl', draws') ∧ length cl' = pop_size ∧
                ∀ layer, layer_ok cl' layer.
Proof.
  revert cl draws. induction layers as [|[layer_name cluster_size] layers IH];
    intros cl draws Hnd Hlen Hok Hempty; simpl.
  - intros [= <-]. by exists cl, draws.
  - destruct (fill_clusters pop_size pop_size ∅ draws) as [[d draws1]|] eqn:Hfill; [|done].
    pose proof (fill_clusters_clustered pop_size pop_size ∅ d draws draws1
                  (le_n _) (clustered_empty _) Hfill) as Hd.
    destruct (store_layer_Ok layer_name d cl) as (cl1 & -> & Hlen1 & Hlook).
    { intros i s Hi. rewrite Hlen. by apply (clustered_keys _ _ Hd i s). }
    apply NoDup_cons in Hnd as [Hfresh Hnd].
    apply IH; [done|lia| |].
    + intros layer. apply (layer_ok_stored pop_size layer_name layer d cl cl1); try done.
      apply Hempty. left.
    + intros layer Hlayer i.
      rewrite (neighbors_stored layer_name layer d cl cl1 i); [|  |done].
      * rewrite decide_False; [apply Hempty; by right|]. by intros ->.
      * intros k s Hk. rewrite Hlen. by apply (clustered_keys _ _ Hd k s).
Qed.

Lemma neighbors_replicate (pop_size : nat) (contacts : gmap string Qc)
    (i : nat) (layer : string) :
  neighbors (replicate pop_size ((λ _, []) <$> contacts)) i layer = [].
Proof.
  unfold neighbors.
  destruct (replicate pop_size ((λ _ : Qc, @nil nat) <$> contacts) !! i) as [entry|] eqn:Hi; [|done].
  apply lookup_replicate in Hi as [-> _]. rewrite lookup_fmap.
  by destruct (contacts !! layer).
Qed.

(** Every layer of the result of [make_microstructured_contacts] is
    symmetric, without self-contacts and without repeated contacts; the
    function never raises. *)
Lemma make_microstructured_contacts_ok (pop_size : nat) (contacts : gmap string Qc)
    (draws : list nat)
    (r : res (list (gmap string (list nat)) * list string * list nat)) :
  make_microstructured_contacts pop_size contacts draws = Some r →
  ∃ cl draws',
    r = Ok (cl, (map_to_list (delete "c" contacts)).*1, draws') ∧
    length cl = pop_size ∧ ∀ layer, layer_ok cl layer.
Proof.
  unfold make_microstructured_contacts.
  destruct (make_layers _ _ _ _) as [r'|] eqn:Hlayers; [|done].
  apply make_layers_ok in Hlayers as (cl & draws' & -> & Hlen & Hok).
  - intros [= <-]. by exists cl, draws'.
  - apply NoDup_fst_map_to_list.
  - by rewrite length_replicate.
  - intros layer. split.
    + intros i j. rewrite !neighbors_replicate. split; by intros ?%elem_of_nil.
    + intros i. rewrite neighbors_replicate. apply not_elem_of_nil.
    + intros i. rewrite neighbors_replicate. constructor.
  - intros layer _ i. apply neighbors_replicate.
Qed.

(** Given enough positive draws the generator returns a contact list. *)
Lemma make_microstructured_contacts_returns (pop_size : nat)
    (contacts : gmap string Qc) (draws : list nat) :
  Forall (λ drawn, (0 < drawn)%nat) draws →
  (size (delete "c" contacts) * pop_size ≤ length draws)%nat →
  ∃ cl draws',
    make_microstructured_contacts pop_size contacts draws
      = Some (Ok (cl, (map_to_list (delete "c" contacts)).*1, draws')) ∧
    length cl = pop_size.
Proof.
  intros Hpos Hlen.
  destruct (make_microstructured_contacts pop_size contacts draws) as [r|] eqn:Hr.
  - destruct (make_microstructured_contacts_ok _ _ _ _ Hr) as (cl & draws' & -> & Hl & _).
    by exists cl, draws'.
  - unfold make_microstructured_contacts in Hr.
    destruct (make_layers_returns pop_size (map_to_list (delete "c" contacts))
                (replicate pop_size ((λ _, []) <$> delete "c" contacts)) draws Hpos)
      as [r Hr'].
    { by rewrite length_map_to_list. }
    rewrite Hr' in Hr. by destruct r as [[? ?]|?].
Qed.

(** C8. In every layer of the contacts built by the clustered model, for
    every population size, [j] is a neighbour of [i] exactly when [i] is a
    neighbour of [j]; and the model does build the contacts, given enough
    positive cluster sizes. *)
Theorem clustered_contacts_symmetric (pop_size : nat) (contacts : gmap string Qc)
    (draws : list nat) :
  (Forall (λ drawn, (0 < drawn)%nat) draws →
   (size (delete "c" contacts) * pop_size ≤ length draws)%nat →
   ∃ cl contact_keys draws',
     make_microstructured_contacts pop_size contacts draws
       = Some (Ok (cl, contact_keys, draws'))) ∧
  ∀ cl contact_keys draws',
    make_microstructured_contacts pop_size contacts draws
      = Some (Ok (cl, contact_keys, draws')) →
    ∀ layer i j, j ∈ neighbors cl i layer ↔ i ∈ neighbors cl j layer.
Proof.
  split.
  - intros Hpos Hlen.
    destruct (make_microstructured_contacts_returns pop_size contacts draws Hpos Hlen)
      as (cl & draws' & H & _).
    by eexists cl, _, draws'.
  - intros cl contact_keys draws' H.
    apply make_microstructured_contacts_ok in H as (cl' & d' & [= -> _ _] & _ & Hok).
    intros layer. apply (layer_sym _ _ (Hok layer)).
Qed.

(** C10. In every layer of the contacts built by the clustered model, for
    every population size, no agent is its own neighbour and no neighbour
    list repeats an entry; and the model does build the contacts, given
    enough positive cluster sizes. *)
Theorem clustered_contacts_no_self_no_duplicates (pop_size : nat)
    (contacts : gmap string Qc) (draws : list nat) :
  (Forall (λ drawn, (0 < drawn)%nat) draws →
   (size (delete "c" contacts) * pop_size ≤ length draws)%nat →
   ∃ cl contact_keys draws',
     make_microstructured_contacts pop_size contacts draws
       = Some (Ok (cl, contact_keys, draws'))) ∧
  ∀ cl contact_keys draws',
    make_microstructured_contacts pop_size contacts draws
      = Some (Ok (cl, contact_keys, draws')) →
    ∀ layer i, (i ∉ neighbors cl i layer) ∧ NoDup (neighbors cl i layer).
Proof.
  split.
  - intros Hpos Hlen.
    destruct (make_microstructured_contacts_returns pop_size contacts draws Hpos Hlen)
      as (cl & draws' & H & _).
    by eexists cl, _, draws'.
  - intros cl contact_keys draws' H.
    apply make_microstructured_contacts_ok in H as (cl' & d' & [= -> _ _] & _ & Hok).
    intros layer i.
    split; [apply (layer_no_self _ _ (Hok layer)) | apply (layer_no_dup _ _ (Hok layer))].
Qed.

(** By contrast the random model can give an agent itself, and the same
    partner twice: here every agent draws its own index two times. *)
Lemma random_contacts_may_repeat_and_self_contact :
  ∃ chosen,
    (∀ p key, Forall (λ q, (q < 2)%nat) (chosen p key) ∨ (2 ≤ p)%nat) ∧
    let cl := (make_random_contacts 2 contacts_example chosen).1 in
    0%nat ∈ neighbors cl 0 "h" ∧ ¬ NoDup (neighbors cl 0 "h").
Proof.
  exists (λ p _, [p; p]). split.
  - intros p key. destruct (decide (p < 2)%nat); [left|right; lia].
    constructor; [done|]. constructor; [done|]. constructor.
  - simpl. split.
    + vm_compute. left.
    + vm_compute. intros Hnd. apply NoDup_cons in Hnd as [Hin _].
      apply Hin. left.
Qed.

End PopulationFacts.

Lemma clustered_contacts_symmetric_witness :
  ∃ cl contact_keys draws',
    Population.make_microstructured_contacts 5 contacts_example draws_example
      = Some (Ok (cl, contact_keys, draws')) ∧
    (2%nat ∈ Population.neighbors cl 0 "h" ↔ 0%nat ∈ Population.neighbors cl 2 "h").
Proof.
  destruct (Population.make_microstructured_contacts 5 contacts_example draws_example)
    as [[[[cl contact_keys] draws']|e]|] eqn:Hmake;
    [|vm_compute in Hmake; discriminate Hmake..].
  exists cl, contact_keys, draws'. split; [reflexivity|].
  exact (proj2 (clustered_contacts_symmetric 5 contacts_example draws_example)
           cl contact_keys draws' Hmake "h" 0%nat 2%nat).
Defined.

Lemma clustered_contacts_no_self_no_duplicates_witness :
  ∃ cl contact_keys draws',
    Population.make_microstructured_contacts 5 contacts_example draws_example
      = Some (Ok (cl, contact_keys, draws')) ∧
    (0%nat ∉ Population.neighbors cl 0 "h") ∧ NoDup (Population.neighbors cl 0 "h").
Proof.
  destruct (Population.make_microstructured_contacts 5 contacts_example draws_example)
    as [[[[cl contact_keys] draws']|e]|] eqn:Hmake;
    [|vm_compute in Hmake; discriminate Hmake..].
  exists cl, contact_keys, draws'. split; [reflexivity|].
  exact (proj2 (clustered_contacts_no_self_no_duplicates 5 contacts_example
                  draws_example) cl contact_keys draws' Hmake "h" 0%nat).
Defined.

(** The sample population: clusters {0, 1, 2} and {3, 4}. *)
Lemma clustered_contacts_example :
  ∃ cl draws',
    Population.make_microstructured_contacts 5 contacts_example draws_example
      = Some (Ok (cl, ["h"], draws')) ∧
    (λ i, Population.neighbors cl i "h") <$> seq 0 5
      = [[2; 1]; [2; 0]; [1; 0]; [4]; [3]]%nat.
Proof. eexists _, _. split; vm_compute; reflexivity. Qed.

(** * Further properties *)

(** ** [dynamic_pars]: construction checks and the effect of [apply] *)

Lemma findinds_from_lt (arr : list Z) (val : Z) (i : nat) :
  Forall (λ k, (i ≤ k)%nat) (findinds_from i arr val) ∧
  NoDup (findinds_from i arr val).
Proof.
  revert i. induction arr as [|d ds IH]; intros i; simpl.
  - split; constructor.
  - destruct (IH (S i)) as [Hle Hnd].
    assert (Forall (λ k, (i ≤ k)%nat) (findinds_from (S i) ds val)) as Hle'.
    { eapply Forall_impl; [exact Hle|]. simpl. intros; lia. }
    destruct (decide (d = val)); [|done]. split.
    + by constructor.
    + constructor; [|done]. intros Hin.
      rewrite Forall_forall in Hle. specialize (Hle i Hin). lia.
Qed.

(** Exactly one entry of [arr] holds [val]. *)
Lemma findinds_singleton (arr : list Z) (val : Z) (ind : nat) :
  arr !! ind = Some val →
  (∀ j, arr !! j = Some val → j = ind) →
  findinds arr val = [ind].
Proof.
  intros Hind Huniq.
  pose proof (proj2 (findinds_from_lt arr val 0)) as Hnd. fold (findinds arr val) in Hnd.
  assert (∀ k, k ∈ findinds arr val ↔ k = ind) as Hel.
  { intros k. rewrite findinds_spec. split; [apply Huniq | by intros ->]. }
  destruct (findinds arr val) as [|a [|b l]].
  - specialize (proj2 (Hel ind) eq_refl). by intros ?%elem_of_nil.
  - f_equal. apply Hel. left.
  - assert (a = ind) as -> by (apply Hel; left).
    assert (b = ind) as -> by (apply Hel; right; left).
    apply NoDup_cons in Hnd as [Hnd _]. exfalso. apply Hnd. left.
Qed.

Lemma findinds_none (arr : list Z) (val : Z) :
  val ∉ arr → findinds arr val = [].
Proof.
  intros Hnot. destruct (findinds arr val) as [|k l] eqn:Hf; [done|].
  exfalso. apply Hnot. assert (k ∈ findinds arr val) as Hk by (rewrite Hf; left).
  apply findinds_spec in Hk. by apply list_elem_of_lookup_2 in Hk.
Qed.

Lemma check_all_Ok (ps : list (string * DynamicPars.entry))
    (checked : list (string * (list Z * list value))) :
  DynamicPars.check_all ps = Ok checked →
  Forall2 (λ kv kd, kd.1 = kv.1 ∧ DynamicPars.check_entry kv.2 = Ok kd.2) ps checked.
Proof.
  revert checked. induction ps as [|[parkey e] ps IH]; intros checked; simpl.
  - intros [= <-]. constructor.
  - intros H. apply bind_Ok in H as (dv & Hdv & H).
    apply bind_Ok in H as (rest & Hrest & [= <-]).
    constructor; [done|]. by apply IH.
Qed.

Lemma check_entry_Ok (e : DynamicPars.entry) (dv : list Z * list value) :
  DynamicPars.check_entry e = Ok dv →
  ∃ d v, DynamicPars.days e = Some d ∧ DynamicPars.vals e = Some v ∧
         length (DynamicPars.promote_days d) = length (DynamicPars.promote_vals v) ∧
         dv = (DynamicPars.promote_days d, DynamicPars.promote_vals v).
Proof.
  unfold DynamicPars.check_entry. destruct (DynamicPars.days e) as [d|]; [|done].
  destruct (DynamicPars.vals e) as [v|]; [|done].
  destruct (decide _) as [Hlen|]; [|done]. intros [= <-]. by exists d, v.
Qed.

Lemma check_all_app_raise (good : list (string * DynamicPars.entry)) (parkey : string)
    (bad : DynamicPars.entry) (rest : list (string * DynamicPars.entry)) (err : exn) :
  Forall (λ kv, ∃ dv, DynamicPars.check_entry kv.2 = Ok dv) good →
  DynamicPars.check_entry bad = Raise err →
  DynamicPars.check_all (good ++ (parkey, bad) :: rest) = Raise err.
Proof.
  intros Hgood Hbad. induction Hgood as [|[k e] good [dv Hdv] _ IH]; simpl.
  - by rewrite Hbad.
  - simpl in Hdv. rewrite Hdv. simpl. by rewrite IH.
Qed.

Lemma well_formed_entry_Ok (e : DynamicPars.entry) :
  well_formed_entry e ↔ ∃ dv, DynamicPars.check_entry e = Ok dv.
Proof.
  split.
  - intros (d & v & Hd & Hv & Hlen). unfold DynamicPars.check_entry.
    rewrite Hd, Hv, decide_True by done. by eexists.
  - intros [dv Hdv]. apply check_entry_Ok in Hdv as (d & v & Hd & Hv & Hlen & _).
    by exists d, v.
Qed.

Lemma check_all_total (ps : list (string * DynamicPars.entry)) :
  Forall (λ kv, well_formed_entry kv.2) ps →
  ∃ checked, DynamicPars.check_all ps = Ok checked.
Proof.
  induction 1 as [|[parkey e] ps He _ [checked IH]]; simpl; [by eexists|].
  destruct (proj1 (well_formed_entry_Ok _) He) as [dv Hdv]. simpl in Hdv.
  rewrite Hdv. simpl. rewrite IH. by eexists.
Qed.

(** X1. [dynamic_pars.__init__] accepts a schedule exactly when every
    parameter has both subkeys and as many days as values: what it stores
    are the promoted lists, of equal lengths, in the order given; the first
    parameter that lacks a subkey makes it raise [KeyError], the first whose
    days and values differ in number makes it raise [ValueError]. *)
Theorem dynamic_pars_init_validates (ps : list (string * DynamicPars.entry)) :
  (Forall (λ kv, ∃ d v, DynamicPars.days kv.2 = Some d ∧ DynamicPars.vals kv.2 = Some v ∧
                        length (DynamicPars.promote_days d)
                          = length (DynamicPars.promote_vals v)) ps
   ↔ ∃ dp, DynamicPars.init ps = Ok dp) ∧
  (∀ dp, DynamicPars.init ps = Ok dp →
     length (DynamicPars.pars dp) = length ps ∧
     ∀ i parkey e, ps !! i = Some (parkey, e) →
       ∃ d v, DynamicPars.days e = Some d ∧ DynamicPars.vals e = Some v ∧
              length (DynamicPars.promote_days d) = length (DynamicPars.promote_vals v) ∧
              DynamicPars.pars dp !! i =
                Some (parkey, (DynamicPars.promote_days d, DynamicPars.promote_vals v))) ∧
  (∀ good parkey bad rest,
     ps = good ++ (parkey, bad) :: rest →
     Forall (λ kv, ∃ d v, DynamicPars.days kv.2 = Some d ∧
                          DynamicPars.vals kv.2 = Some v ∧
                          length (DynamicPars.promote_days d)
                            = length (DynamicPars.promote_vals v)) good →
     (DynamicPars.days bad = None ∨ DynamicPars.vals bad = None →
      DynamicPars.init ps = Raise KeyError) ∧
     (∀ d v, DynamicPars.days bad = Some d → DynamicPars.vals bad = Some v →
             length (DynamicPars.promote_days d) ≠ length (DynamicPars.promote_vals v) →
             DynamicPars.init ps = Raise ValueError)).
Proof.
  split; [|split].
  - split.
    + intros Hwf. destruct (check_all_total ps Hwf) as [checked Hc].
      unfold DynamicPars.init. rewrite Hc. by eexists.
    + intros [dp Hinit]. unfold DynamicPars.init in Hinit.
      apply bind_Ok in Hinit as (checked & Hc & _). apply check_all_Ok in Hc.
      apply Forall_forall. intros kv Hkv.
      apply list_elem_of_lookup_1 in Hkv as [i Hi].
      destruct (Forall2_lookup_l _ _ _ _ _ Hc Hi) as (kd & _ & _ & He).
      apply well_formed_entry_Ok. by eexists.
  - intros dp Hinit. unfold DynamicPars.init in Hinit.
    apply bind_Ok in Hinit as (checked & Hc & [= <-]). simpl.
    apply check_all_Ok in Hc. split; [symmetry; by eapply Forall2_length|].
    intros i parkey e Hi.
    destruct (Forall2_lookup_l _ _ _ _ _ Hc Hi) as ([k dv] & Hdv & Hk & He).
    simpl in *. subst k.
    destruct (check_entry_Ok _ _ He) as (d & v & Hd & Hv & Hlen & ->).
    by exists d, v.
  - intros good parkey bad rest -> Hgood.
    assert (Forall (λ kv : string * DynamicPars.entry,
                      ∃ dv, DynamicPars.check_entry kv.2 = Ok dv) good) as Hgood'.
    { eapply Forall_impl; [exact Hgood|]. intros kv Hkv. by apply well_formed_entry_Ok. }
    split.
    + intros Hmiss. unfold DynamicPars.init.
      rewrite (check_all_app_raise good parkey bad rest KeyError Hgood'); [done|].
      unfold DynamicPars.check_entry. destruct Hmiss as [-> | Hv]; [done|].
      destruct (DynamicPars.days bad); [by rewrite Hv|done].
    + intros d v Hd Hv Hne. unfold DynamicPars.init.
      rewrite (check_all_app_raise good parkey bad rest ValueError Hgood'); [done|].
      unfold DynamicPars.check_entry. rewrite Hd, Hv. by rewrite decide_False.
Qed.

(** What one iteration of the loop of [apply] can change. *)
Lemma apply_one_frame (sim sim' : Sim) (parkey : string) (ds : list Z) (vs : list value) :
  DynamicPars.apply_one sim (parkey, (ds, vs)) = Ok sim' →
  t sim' = t sim ∧ people sim' = people sim ∧ results sim' = results sim ∧
  (∀ key, key ≠ parkey → pars sim' !! key = pars sim !! key) ∧
  (findinds ds (Z.of_nat (t sim)) = [] → sim' = sim).
Proof.
  unfold DynamicPars.apply_one.
  destruct (findinds ds (Z.of_nat (t sim))) as [|ind [|ind' inds]]; [by intros [= <-]| |done].
  assert (∀ v, let s := sim_setitem sim parkey v in
            t s = t sim ∧ people s = people sim ∧ results s = results sim ∧
            (∀ key, key ≠ parkey → pars s !! key = pars sim !! key) ∧
            ([ind] = [] → s = sim)) as Hset.
  { intros v. simpl. repeat (split; [done|]). split; [|done].
    intros key Hkey. by rewrite lookup_insert_ne. }
  destruct (getitem vs ind) as [[q|d]|e]; simpl; [intros [= <-]; apply Hset| |done].
  destruct (sim_getitem sim parkey) as [[q|o]|e]; simpl; [done| |done].
  intros [= <-]. apply Hset.
Qed.

Lemma for_each_apply_one_frame (sched : list (string * (list Z * list value)))
    (sim sim' : Sim) :
  for_each DynamicPars.apply_one sched sim = Ok sim' →
  t sim' = t sim ∧ people sim' = people sim ∧ results sim' = results sim ∧
  ∀ key, key ∉ sched.*1 → pars sim' !! key = pars sim !! key.
Proof.
  revert sim. induction sched as [|[parkey [ds vs]] sched IH]; intros sim; simpl.
  - by intros [= <-].
  - intros H. apply bind_Ok in H as (sim1 & H1 & H2).
    destruct (apply_one_frame _ _ _ _ _ H1) as (Ht & Hp & Hr & Hpars & _).
    destruct (IH _ H2) as (Ht' & Hp' & Hr' & Hpars').
    split; [congruence|]. split; [congruence|]. split; [congruence|].
    intros key Hkey. apply not_elem_of_cons in Hkey as [Hne Hkey].
    rewrite Hpars' by done. by apply Hpars.
Qed.

(** X2. [dynamic_pars.apply] changes nothing but the parameters its
    schedule names: the day, the people, the results and every other
    parameter are as before; and on a day that occurs in no schedule it
    returns the simulation unchanged. *)
Theorem dynamic_pars_apply_frame (dp : DynamicPars.dynamic_pars) (sim : Sim) :
  (∀ sim', DynamicPars.apply dp sim = Ok sim' →
     t sim' = t sim ∧ people sim' = people sim ∧ results sim' = results sim ∧
     ∀ key, key ∉ (DynamicPars.pars dp).*1 → pars sim' !! key = pars sim !! key) ∧
  ((∀ parkey ds vs, (parkey, (ds, vs)) ∈ DynamicPars.pars dp → Z.of_nat (t sim) ∉ ds) →
   DynamicPars.apply dp sim = Ok sim).
Proof.
  unfold DynamicPars.apply. generalize (DynamicPars.pars dp) as sched. intros sched. split.
  - intros sim'. apply for_each_apply_one_frame.
  - revert sim. induction sched as [|[parkey [ds vs]] sched IH]; intros sim Hquiet; [done|].
    cbn [for_each].
    assert (DynamicPars.apply_one sim (parkey, (ds, vs)) = Ok sim) as ->.
    { unfold DynamicPars.apply_one. rewrite findinds_none; [done|].
      apply (Hquiet parkey ds vs). left. }
    simpl. apply IH. intros k ds' vs' Hin. apply (Hquiet k ds' vs'). by right.
Qed.

(** The effect of one iteration on the parameter it is about. *)
Lemma apply_one_value (sim sim' : Sim) (parkey : string) (ds : list Z)
    (vs : list value) (ind : nat) (val : value) :
  DynamicPars.apply_one sim (parkey, (ds, vs)) = Ok sim' →
  ds !! ind = Some (Z.of_nat (t sim)) → vs !! ind = Some val →
  match val with
  | VNum q => pars sim' !! parkey = Some (VNum q)
  | VDict d =>
      ∃ o, pars sim !! parkey = Some (VDict o) ∧
           pars sim' !! parkey = Some (VDict (d ∪ o))
  end.
Proof.
  intros Hone Hds Hvs. unfold DynamicPars.apply_one in Hone.
  apply findinds_spec in Hds.
  destruct (findinds ds (Z.of_nat (t sim))) as [|ind' [|ind'' inds]]; [|  |done].
  - by apply elem_of_nil in Hds.
  - apply list_elem_of_singleton in Hds as ->.
    unfold getitem in Hone. rewrite Hvs in Hone. simpl in Hone.
    destruct val as [q|d].
    + injection Hone as <-. simpl. by rewrite lookup_insert_eq.
    + unfold sim_getitem in Hone.
      destruct (pars sim !! parkey) as [[q|o]|]; simpl in Hone; [done| |done].
      injection Hone as <-. exists o. split; [done|]. simpl. by rewrite lookup_insert_eq.
Qed.

Lemma for_each_apply_one_value (sched : list (string * (list Z * list value)))
    (sim sim' : Sim) (parkey : string) (ds : list Z) (vs : list value)
    (ind : nat) (val : value) :
  NoDup sched.*1 →
  for_each DynamicPars.apply_one sched sim = Ok sim' →
  (parkey, (ds, vs)) ∈ sched →
  ds !! ind = Some (Z.of_nat (t sim)) → vs !! ind = Some val →
  match val with
  | VNum q => pars sim' !! parkey = Some (VNum q)
  | VDict d =>
      ∃ o, pars sim !! parkey = Some (VDict o) ∧
           pars sim' !! parkey = Some (VDict (d ∪ o))
  end.
Proof.
  revert sim. induction sched as [|[k [ds0 vs0]] sched IH]; intros sim Hnd Hrun Hin Hds Hvs.
  - by apply elem_of_nil in Hin.
  - cbn [for_each] in Hrun. apply bind_Ok in Hrun as (sim1 & H1 & H2).
    rewrite fmap_cons in Hnd. apply NoDup_cons in Hnd as [Hfresh Hnd].
    apply elem_of_cons in Hin as [[= -> -> ->]|Hin].
    + pose proof (apply_one_value _ _ _ _ _ _ _ H1 Hds Hvs) as Hval.
      destruct (for_each_apply_one_frame _ _ _ H2) as (_ & _ & _ & Hpars).
      simpl in Hfresh. rewrite <- (Hpars k Hfresh) in Hval. exact Hval.
    + assert (parkey ≠ k) as Hne.
      { intros ->. apply Hfresh. simpl. apply list_elem_of_fmap.
        by exists (k, (ds, vs)). }
      destruct (apply_one_frame _ _ _ _ _ H1) as (Ht & _ & _ & Hpars & _).
      rewrite <- Ht in Hds.
      pose proof (IH sim1 Hnd H2 Hin Hds Hvs) as Hval.
      destruct val as [q|d]; [done|].
      destruct Hval as (o & Ho & Ho'). exists o. split; [|done].
      by rewrite <- (Hpars parkey Hne).
Qed.

Lemma for_each_apply_one_total (sched : list (string * (list Z * list value)))
    (sim : Sim) :
  NoDup sched.*1 →
  Forall (λ kv, length kv.2.1 = length kv.2.2) sched →
  (∀ parkey ds vs, (parkey, (ds, vs)) ∈ sched →
     ¬ DynamicPars.duplicate_day ds (Z.of_nat (t sim))) →
  (∀ parkey ds vs ind d,
     (parkey, (ds, vs)) ∈ sched →
     ds !! ind = Some (Z.of_nat (t sim)) → vs !! ind = Some (VDict d) →
     ∃ o, pars sim !! parkey = Some (VDict o)) →
  ∃ sim', for_each DynamicPars.apply_one sched sim = Ok sim'.
Proof.
  revert sim. induction sched as [|[k [ds vs]] sched IH]; intros sim Hnd Hlen Hnodup Hdict.
  - by exists sim.
  - rewrite fmap_cons in Hnd. apply NoDup_cons in Hnd as [Hfresh Hnd].
    apply Forall_cons in Hlen as [Hlen0 Hlen]. simpl in Hlen0, Hfresh.
    assert (∃ sim1, DynamicPars.apply_one sim (k, (ds, vs)) = Ok sim1) as [sim1 H1].
    { unfold DynamicPars.apply_one.
      destruct (findinds ds (Z.of_nat (t sim))) as [|ind [|ind' inds]] eqn:Hf.
      - by eexists.
      - assert (ds !! ind = Some (Z.of_nat (t sim))) as Hind.
        { apply findinds_spec. rewrite Hf. left. }
        destruct (lookup_lt_is_Some_2 vs ind) as [val Hval].
        { apply lookup_lt_Some in Hind. lia. }
        unfold getitem. rewrite Hval. simpl. destruct val as [q|d]; [by eexists|].
        destruct (Hdict k ds vs ind d) as [o Ho]; [left|done|done|].
        unfold sim_getitem. rewrite Ho. simpl. by eexists.
      - exfalso. apply (Hnodup k ds vs); [left|].
        pose proof (proj2 (findinds_from_lt ds (Z.of_nat (t sim)) 0)) as Hnd'.
        fold (findinds ds (Z.of_nat (t sim))) in Hnd'. rewrite Hf in Hnd'.
        exists ind, ind'. split.
        + intros ->. apply NoDup_cons in Hnd' as [Hn _]. apply Hn. left.
        + split; apply findinds_spec; rewrite Hf; [left | right; left]. }
    cbn [for_each]. rewrite H1. simpl.
    destruct (apply_one_frame _ _ _ _ _ H1) as (Ht & _ & _ & Hpars & _).
    apply IH; [done|done| |].
    + intros parkey ds' vs' Hin. rewrite Ht. apply (Hnodup parkey ds' vs'). by right.
    + intros parkey ds' vs' ind d Hin Hds Hvs. rewrite Ht in Hds.
      destruct (Hdict parkey ds' vs' ind d) as [o Ho]; [by right|done|done|].
      exists o. rewrite Hpars; [done|]. intros ->. apply Hfresh.
      apply list_elem_of_fmap. by exists (k, (ds', vs')).
Qed.

(** X3. On the day of a schedule entry, [dynamic_pars.apply] sets the
    parameter to the scheduled value when that is a scalar, and merges the
    scheduled mapping into the parameter's current mapping when it is a
    mapping (scheduled keys win, the other keys are kept).  The call
    returns when no parameter has two entries for the day and every
    mapping-valued entry of the day meets a mapping-valued parameter. *)
Theorem dynamic_pars_applies_scheduled_value (dp : DynamicPars.dynamic_pars) (sim : Sim) :
  NoDup (DynamicPars.pars dp).*1 →
  (∀ sim' parkey ds vs ind val,
     DynamicPars.apply dp sim = Ok sim' →
     (parkey, (ds, vs)) ∈ DynamicPars.pars dp →
     ds !! ind = Some (Z.of_nat (t sim)) → vs !! ind = Some val →
     match val with
     | VNum q => pars sim' !! parkey = Some (VNum q)
     | VDict d =>
         ∃ o, pars sim !! parkey = Some (VDict o) ∧
              pars sim' !! parkey = Some (VDict (d ∪ o)) ∧
              ∀ k, (d ∪ o) !! k = match d !! k with
                                  | Some x => Some x
                                  | None => o !! k
                                  end
     end) ∧
  (Forall (λ kv, length kv.2.1 = length kv.2.2) (DynamicPars.pars dp) →
   (∀ parkey ds vs, (parkey, (ds, vs)) ∈ DynamicPars.pars dp →
      ¬ DynamicPars.duplicate_day ds (Z.of_nat (t sim))) →
   (∀ parkey ds vs ind d,
      (parkey, (ds, vs)) ∈ DynamicPars.pars dp →
      ds !! ind = Some (Z.of_nat (t sim)) → vs !! ind = Some (VDict d) →
      ∃ o, pars sim !! parkey = Some (VDict o)) →
   ∃ sim', DynamicPars.apply dp sim = Ok sim').
Proof.
  intros Hnd. split.
  - intros sim' parkey ds vs ind val Ha Hin Hds Hvs.
    pose proof (for_each_apply_one_value _ _ _ _ _ _ _ _ Hnd Ha Hin Hds Hvs) as Hval.
    destruct val as [q|d]; [done|].
    destruct Hval as (o & Ho & Ho'). exists o. split; [done|]. split; [done|].
    intros k. rewrite lookup_union. by destruct (d !! k), (o !! k).
  - intros Hlen Hnodup Hdict. by apply for_each_apply_one_total.
Qed.

Lemma dynamic_pars_init_validates_witness :
  DynamicPars.init
    [("beta", {| DynamicPars.days := Some (DynamicPars.DaysScalar 30);
                 DynamicPars.vals := Some (DynamicPars.ValsScalar half) |});
     ("diag_factor", {| DynamicPars.days := Some (DynamicPars.DaysList [14; 28]);
                        DynamicPars.vals := Some (DynamicPars.ValsScalar half) |})]
    = Raise ValueError.
Proof.
  refine (proj2 (proj2 (proj2 (dynamic_pars_init_validates _))
            [("beta", {| DynamicPars.days := Some (DynamicPars.DaysScalar 30);
                         DynamicPars.vals := Some (DynamicPars.ValsScalar half) |})]
            "diag_factor"
            {| DynamicPars.days := Some (DynamicPars.DaysList [14; 28]);
               DynamicPars.vals := Some (DynamicPars.ValsScalar half) |} [] eq_refl _)
            (DynamicPars.DaysList [14; 28]) (DynamicPars.ValsScalar half)
            eq_refl eq_refl _).
  - constructor; [|constructor]. eexists _, _. repeat split; reflexivity.
  - simpl. lia.
Defined.

Lemma dynamic_pars_apply_frame_witness :
  DynamicPars.apply {| DynamicPars.pars := two_par_schedule |} (sim_layered 15)
    = Ok (sim_layered 15).
Proof.
  apply (proj2 (dynamic_pars_apply_frame {| DynamicPars.pars := two_par_schedule |}
                  (sim_layered 15))).
  intros parkey ds vs Hin Hday. simpl in Hin.
  apply elem_of_cons in Hin as [[= -> -> ->]|Hin].
  - apply elem_of_cons in Hday as [Hd|Hday]; [discriminate Hd|].
    apply elem_of_cons in Hday as [Hd|Hday]; [discriminate Hd|].
    by apply elem_of_nil in Hday.
  - apply elem_of_cons in Hin as [[= -> -> ->]|Hin]; [|by apply elem_of_nil in Hin].
    apply elem_of_cons in Hday as [Hd|Hday]; [discriminate Hd|].
    by apply elem_of_nil in Hday.
Defined.

Lemma two_par_schedule_keys : NoDup two_par_schedule.*1.
Proof.
  simpl. constructor.
  - intros Hin. apply list_elem_of_singleton in Hin. discriminate Hin.
  - constructor; [apply not_elem_of_nil | constructor].
Qed.

Lemma dynamic_pars_applies_scheduled_value_witness :
  ∃ sim' o,
    DynamicPars.apply {| DynamicPars.pars := two_par_schedule |} (sim_layered 20) = Ok sim' ∧
    pars (sim_layered 20) !! "beta_layers" = Some (VDict o) ∧
    pars sim' !! "beta_layers" = Some (VDict ({[ "h" := half ]} ∪ o)) ∧
    ({[ "h" := half ]} ∪ o) !! "s" = o !! "s".
Proof.
  destruct (DynamicPars.apply {| DynamicPars.pars := two_par_schedule |} (sim_layered 20))
    as [sim'|e] eqn:Ha; [|vm_compute in Ha; discriminate Ha].
  destruct (proj1 (dynamic_pars_applies_scheduled_value
                     {| DynamicPars.pars := two_par_schedule |} (sim_layered 20)
                     two_par_schedule_keys)
              sim' "beta_layers" [20] [VDict {[ "h" := half ]}] 0%nat
              (VDict {[ "h" := half ]}) Ha) as (o & Ho & Ho' & Hmerge).
  - right. left.
  - reflexivity.
  - reflexivity.
  - exists sim', o. split; [reflexivity|]. split; [exact Ho|]. split; [exact Ho'|].
    exact (Hmerge "s").
Defined.

(** ** [change_beta]: the snapshot, the cache and repeated calls *)

Section ChangeBetaMore.
Import ChangeBeta.

Lemma snapshot_layer_Ok (sim : Sim) (ob ob' : gmap string value) (layer : option string) :
  snapshot_layer sim ob layer = Ok ob' →
  ∃ key v, ob' = <[key := v]> ob ∧ key = default "overall" layer ∧
           (layer ≠ Some "overall" → live_beta sim key = Some v) ∧
           (∀ b0, pars sim !! "beta" = Some (VNum b0) → ∃ b, v = VNum b).
Proof.
  unfold snapshot_layer, sim_getitem. destruct layer as [l|]; simpl.
  - destruct (pars sim !! "beta_layers") as [[q|d]|] eqn:Hbl; simpl; [done| |done].
    destruct (d !! l) as [q|] eqn:Hl; [|done]. intros [= <-].
    exists l, (VNum q). split; [done|]. split; [done|]. split.
    + intros Hne. unfold live_beta. rewrite decide_False by congruence.
      by rewrite Hbl, Hl.
    + intros _ _. by exists q.
  - destruct (pars sim !! "beta") as [v|] eqn:Hb; simpl; [|done]. intros [= <-].
    exists "overall", v. split; [done|]. split; [done|]. split.
    + intros _. unfold live_beta. by rewrite decide_True.
    + intros b0 [= ->]. by exists b0.
Qed.

(** What the loop over [self.layers] stores. *)
Lemma snapshot_acc (sim : Sim) (ls : list (option string)) (ob0 ob : gmap string value) :
  Some "overall" ∉ ls →
  for_each (snapshot_layer sim) ls ob0 = Ok ob →
  (∀ key, is_Some (ob !! key) ↔
          is_Some (ob0 !! key) ∨ (key = "overall" ∧ None ∈ ls) ∨ Some key ∈ ls) ∧
  (∀ key v, ob !! key = Some v → ob0 !! key = Some v ∨ live_beta sim key = Some v).
Proof.
  revert ob0. induction ls as [|layer ls IH]; intros ob0 Hno; simpl.
  - intros [= <-]. split.
    + intros key. split; [by left|]. intros [?|[[_ ?%elem_of_nil]|?%elem_of_nil]]; done.
    + intros key v ?. by left.
  - intros H. apply bind_Ok in H as (ob1 & H1 & H2).
    apply not_elem_of_cons in Hno as [Hlayer Hno].
    destruct (IH ob1 Hno H2) as [IHdom IHval].
    destruct (snapshot_layer_Ok _ _ _ _ H1) as (k & v & -> & Hk & Hlive & _).
    specialize (Hlive ltac:(congruence)).
    split.
    + intros key. rewrite IHdom, lookup_insert_is_Some. split.
      * intros [[ <- |[_ ?]]|[[-> ?]|?]].
        -- destruct layer as [l|]; simpl in Hk; subst k.
           ++ right. right. left.
           ++ right. left. split; [done|left].
        -- by left.
        -- right. left. split; [done|by right].
        -- right. right. by right.
      * intros [?|[[-> Hin]|Hin]].
        -- destruct (decide (k = key)); [left; by left|left; right; done].
        -- apply elem_of_cons in Hin as [ <- |Hin]; [left; left; done|].
           right. left. done.
        -- apply elem_of_cons in Hin as [ <- |Hin]; [left; left; done|].
           right. by right.
    + intros key v' Hv'. destruct (IHval key v' Hv') as [Hin|?]; [|by right].
      destruct (decide (k = key)) as [ <- |Hne].
      * rewrite lookup_insert_eq in Hin. injection Hin as <-. by right.
      * rewrite lookup_insert_ne in Hin by done. by left.
Qed.

Lemma snapshot_missing_layer (sim : Sim) (ls : list (option string))
    (ob0 : gmap string value) (d : gmap string Qc) (l : string) :
  pars sim !! "beta_layers" = Some (VDict d) →
  Some l ∈ ls → d !! l = None →
  for_each (snapshot_layer sim) ls ob0 = Raise KeyError.
Proof.
  intros Hbl Hin Hl. revert ob0. induction ls as [|layer ls IH]; intros ob0.
  - by apply elem_of_nil in Hin.
  - cbn [for_each].
    destruct (snapshot_layer sim ob0 layer) as [ob1|e] eqn:H1.
    + simpl. apply elem_of_cons in Hin as [ <- |Hin]; [|by apply IH].
      unfold snapshot_layer, sim_getitem in H1. rewrite Hbl in H1. simpl in H1.
      by rewrite Hl in H1.
    + simpl. unfold snapshot_layer, sim_getitem in H1.
      destruct layer as [l'|].
      * rewrite Hbl in H1. simpl in H1. destruct (d !! l'); [done|congruence].
      * destruct (pars sim !! "beta"); simpl in H1; congruence.
Qed.

(** X4. The first call of [change_beta.apply] caches, for exactly the
    configured layers (under the key ['overall'] for [None]), the beta
    values that are live when the call is made; a configured layer that
    [beta_layers] does not have makes the call raise [KeyError]. *)
Theorem change_beta_first_apply_snapshots (cb : change_beta) (sim : Sim) :
  orig_betas cb = None →
  Some "overall" ∉ layers cb →
  (∀ cb' sim', apply cb sim = Ok (cb', sim') →
     ∃ ob, orig_betas cb' = Some ob ∧
       (∀ key, is_Some (ob !! key) ↔
               (key = "overall" ∧ None ∈ layers cb) ∨ Some key ∈ layers cb) ∧
       (∀ key v, ob !! key = Some v → live_beta sim key = Some v)) ∧
  (∀ d l, pars sim !! "beta_layers" = Some (VDict d) →
          Some l ∈ layers cb → d !! l = None →
          apply cb sim = Raise KeyError).
Proof.
  intros Hnone Hno. split.
  - intros cb' sim' Ha. unfold apply in Ha. rewrite Hnone in Ha.
    apply bind_Ok in Ha as (ob & Hsnap & Ha).
    apply bind_Ok in Ha as (s & _ & [= <- _]).
    exists ob. split; [done|].
    destruct (snapshot_acc sim (layers cb) ∅ ob Hno Hsnap) as [Hdom Hval].
    split.
    + intros key. rewrite Hdom. rewrite lookup_empty. split.
      * intros [[? [=]]|?]; done.
      * intros ?. by right.
    + intros key v Hv. destruct (Hval key v Hv) as [He|?]; [|done].
      by rewrite lookup_empty in He.
  - intros d l Hbl Hin Hl. unfold apply. rewrite Hnone.
    unfold snapshot. by rewrite (snapshot_missing_layer sim _ ∅ d l Hbl Hin Hl).
Qed.

Lemma write_layer_frame (cb : change_beta) (inds : list nat) (layer : string)
    (v : value) (sim sim' : Sim) :
  write_layer cb inds layer v (Ok sim) = Ok sim' →
  t sim' = t sim ∧ people sim' = people sim ∧ results sim' = results sim ∧
  ∀ key, key ≠ "beta" → key ≠ "beta_layers" → pars sim' !! key = pars sim !! key.
Proof.
  unfold write_layer. simpl.
  destruct (scaled cb inds v) as [new_beta|e]; simpl; [|done].
  destruct (decide (layer = "overall")).
  - intros [= <-]. repeat (split; [done|]). intros key H1 H2. simpl.
    by rewrite lookup_insert_ne.
  - unfold sim_getitem. destruct (pars sim !! "beta_layers") as [[q|d]|]; simpl; [done| |done].
    destruct new_beta; [|done]. intros [= <-]. repeat (split; [done|]).
    intros key H1 H2. simpl. by rewrite lookup_insert_ne.
Qed.

Lemma write_all_frame (cb : change_beta) (inds : list nat) (sim : Sim)
    (ob : gmap string value) :
  ∀ sim', map_fold (write_layer cb inds) (Ok sim) ob = Ok sim' →
  t sim' = t sim ∧ people sim' = people sim ∧ results sim' = results sim ∧
  ∀ key, key ≠ "beta" → key ≠ "beta_layers" → pars sim' !! key = pars sim !! key.
Proof.
  apply (map_fold_weak_ind (λ r (m : gmap string value), ∀ sim', r = Ok sim' →
    t sim' = t sim ∧ people sim' = people sim ∧ results sim' = results sim ∧
    ∀ key, key ≠ "beta" → key ≠ "beta_layers" → pars sim' !! key = pars sim !! key)).
  - by intros sim' [= <-].
  - intros i x m r _ IH sim' Hw. destruct r as [s|e]; [|done].
    destruct (IH s eq_refl) as (Ht & Hp & Hr & Hpars).
    destruct (write_layer_frame _ _ _ _ _ _ Hw) as (Ht' & Hp' & Hr' & Hpars').
    split; [congruence|]. split; [congruence|]. split; [congruence|].
    intros key H1 H2. rewrite Hpars' by done. by apply Hpars.
Qed.

Lemma set_orig_betas_id (cb : change_beta) (ob : gmap string value) :
  orig_betas cb = Some ob → set_orig_betas cb ob = cb.
Proof. destruct cb. simpl. intros ->. done. Qed.

Lemma apply_frame (cb cb' : change_beta) (sim sim' : Sim) :
  apply cb sim = Ok (cb', sim') →
  days cb' = days cb ∧ changes cb' = changes cb ∧ layers cb' = layers cb ∧
  t sim' = t sim ∧ people sim' = people sim ∧ results sim' = results sim ∧
  ∀ key, key ≠ "beta" → key ≠ "beta_layers" → pars sim' !! key = pars sim !! key.
Proof.
  unfold apply. intros Ha. apply bind_Ok in Ha as (ob & _ & Ha).
  apply bind_Ok in Ha as (s & Hs & [= <- <-]). simpl.
  repeat (split; [done|]).
  destruct (findinds (days cb) (Z.of_nat (t sim))) as [|ind inds]; [by injection Hs as <-|].
  by apply (write_all_frame cb (ind :: inds) sim ob).
Qed.

(** X5. Once cached, the baseline is never refreshed: a call of
    [change_beta.apply] leaves the intervention as it is, whatever the live
    values have become; it changes no part of the simulation other than
    the parameters ['beta'] and ['beta_layers']; and on a day without a
    schedule entry it changes nothing at all. *)
Theorem change_beta_cache_is_kept (cb : change_beta) (sim : Sim)
    (ob : gmap string value) :
  orig_betas cb = Some ob →
  (∀ cb' sim', apply cb sim = Ok (cb', sim') →
     cb' = cb ∧ t sim' = t sim ∧ people sim' = people sim ∧
     results sim' = results sim ∧
     ∀ key, key ≠ "beta" → key ≠ "beta_layers" → pars sim' !! key = pars sim !! key) ∧
  (findinds (days cb) (Z.of_nat (t sim)) = [] → apply cb sim = Ok (cb, sim)).
Proof.
  intros Hob. split.
  - intros cb' sim' Ha.
    destruct (apply_frame _ _ _ _ Ha) as (_ & _ & _ & Hrest).
    split; [|done]. unfold apply in Ha. rewrite Hob in Ha. simpl in Ha.
    apply bind_Ok in Ha as (s & _ & [= <- _]). by apply set_orig_betas_id.
  - intros Hf. unfold apply. rewrite Hob, Hf. simpl.
    by rewrite set_orig_betas_id.
Qed.

(** On a state that already holds the scaled values, the loop over
    [orig_betas.items()] writes what is there. *)
Lemma write_all_fixed (cb : change_beta) (inds : list nat) (sim : Sim)
    (ob : gmap string value) :
  Forall (λ ind, (ind < length (changes cb))%nat) inds →
  (∀ layer v, ob !! layer = Some v →
     ∃ b, v = VNum b ∧
          live_beta sim layer = Some (VNum (b * factor_product cb inds)%Qc)) →
  map_fold (write_layer cb inds) (Ok sim) ob = Ok sim.
Proof.
  intros Hin.
  apply (map_fold_weak_ind (λ r (m : gmap string value),
    (∀ layer v, m !! layer = Some v →
       ∃ b, v = VNum b ∧
            live_beta sim layer = Some (VNum (b * factor_product cb inds)%Qc)) →
    r = Ok sim)); [done|].
  intros i x m r Hi IH Hlive.
  rewrite IH.
  2:{ intros layer v Hl. apply Hlive. rewrite lookup_insert_ne; [done|]. congruence. }
  destruct (Hlive i x) as (b & -> & Hb); [by rewrite lookup_insert_eq|].
  unfold write_layer. simpl. rewrite (scaled_numeric _ _ _ Hin). simpl.
  unfold live_beta in Hb. destruct (decide (i = "overall")) as [ -> |Hne].
  - f_equal. unfold sim_setitem, set_pars. rewrite (insert_id _ _ _ Hb).
    by destruct sim.
  - unfold sim_getitem.
    destruct (pars sim !! "beta_layers") as [[q|d]|] eqn:Hbl; [done| |done]. simpl.
    destruct (d !! i) as [q|] eqn:Hq; [|done]. simpl in Hb. injection Hb as <-.
    f_equal. unfold sim_setitem, set_pars. rewrite (insert_id d _ _ Hq).
    rewrite (insert_id _ _ _ Hbl). by destruct sim.
Qed.

(** X6. Calling [change_beta.apply] a second time on the same day changes
    nothing more: the scaling starts from the cached baseline, so the second
    call finds the values it would write. *)
Theorem change_beta_apply_idempotent (cb cb' : change_beta) (sim sim' : Sim) :
  length (days cb) = length (changes cb) →
  apply cb sim = Ok (cb', sim') →
  apply cb' sim' = Ok (cb', sim').
Proof.
  intros Hlen Ha.
  destruct (apply_frame _ _ _ _ Ha) as (Hdays & Hchanges & _ & Ht & _).
  destruct (findinds (days cb) (Z.of_nat (t sim))) as [|ind inds] eqn:Hf.
  - unfold apply in Ha. apply bind_Ok in Ha as (ob & _ & Ha). rewrite Hf in Ha.
    simpl in Ha. injection Ha as <- <-. unfold apply. simpl. by rewrite Hf.
  - destruct (change_beta_apply_Ok cb cb' sim sim' Hlen) as (ob & Hob & _ & Hlive);
      [by rewrite Hf|done|].
    unfold apply. rewrite Hob, Hdays, Ht, Hf. simpl.
    rewrite (write_all_fixed cb' (ind :: inds) sim' ob).
    + simpl. by rewrite set_orig_betas_id.
    + rewrite Hchanges, <- Hf. by apply findinds_in_range.
    + intros layer v Hl. destruct (Hlive layer v Hl) as (b & -> & Hb).
      exists b. split; [done|]. rewrite Hb, Hf. unfold factor_product.
      by rewrite Hchanges.
Qed.

Lemma snapshot_numeric (sim : Sim) (ls : list (option string))
    (ob0 ob : gmap string value) (b0 : Qc) :
  pars sim !! "beta" = Some (VNum b0) →
  (∀ key v, ob0 !! key = Some v → ∃ b, v = VNum b) →
  for_each (snapshot_layer sim) ls ob0 = Ok ob →
  ∀ key v, ob !! key = Some v → ∃ b, v = VNum b.
Proof.
  intros Hbeta. revert ob0. induction ls as [|layer ls IH]; intros ob0 Hnum; simpl.
  - by intros [= <-].
  - intros H. apply bind_Ok in H as (ob1 & H1 & H2).
    apply (IH ob1); [|done].
    destruct (snapshot_layer_Ok _ _ _ _ H1) as (k & v & -> & _ & _ & Hv).
    intros key v' Hl. destruct (decide (k = key)) as [ <- |Hne].
    + rewrite lookup_insert_eq in Hl. injection Hl as <-. by apply (Hv b0).
    + rewrite lookup_insert_ne in Hl by done. by apply (Hnum key).
Qed.

Lemma numeric_values (ob : gmap string value) :
  (∀ key v, ob !! key = Some v → ∃ b, v = VNum b) →
  ∃ base : gmap string Qc, ob = VNum <$> base.
Proof.
  intros Hnum.
  exists (omap (λ v, match v with VNum b => Some b | VDict _ => None end) ob).
  apply map_eq. intros key. rewrite lookup_fmap, lookup_omap.
  destruct (ob !! key) as [v|] eqn:Hv; [|done].
  by destruct (Hnum key v Hv) as [b ->].
Qed.

(** With a numeric cache, [apply] on a scheduled day returns and writes
    the scaled baselines. *)
Lemma apply_cached (cb : change_beta) (sim : Sim) (base d : gmap string Qc) :
  length (days cb) = length (changes cb) →
  orig_betas cb = Some (VNum <$> base) →
  pars sim !! "beta_layers" = Some (VDict d) →
  findinds (days cb) (Z.of_nat (t sim)) ≠ [] →
  ∃ sim', apply cb sim = Ok (cb, sim') ∧
    ∀ layer b, base !! layer = Some b →
      live_beta sim' layer =
        Some (VNum (b * product (matching_changes cb (Z.of_nat (t sim))))%Qc).
Proof.
  intros Hlen Hob Hbl Hne.
  rewrite <- (factor_product_matching cb _ Hlen).
  pose proof (findinds_in_range cb (Z.of_nat (t sim)) Hlen) as Hin.
  destruct (write_all_total cb _ sim base d Hin Hbl) as [sim' Hw].
  assert (apply cb sim = Ok (cb, sim')) as Ha.
  { unfold apply. rewrite Hob. simpl.
    destruct (findinds (days cb) (Z.of_nat (t sim))) eqn:Hf; [done|].
    rewrite Hw. simpl. by rewrite set_orig_betas_id. }
  exists sim'. split; [done|]. intros layer b Hb.
  destruct (change_beta_apply_Ok cb cb sim sim' Hlen Hne Ha) as (ob & Hob' & _ & Hlive).
  rewrite Hob in Hob'. injection Hob' as <-.
  destruct (Hlive layer (VNum b)) as (b' & [= <-] & Hl); [|done].
  by rewrite lookup_fmap, Hb.
Qed.

(** X7. Scheduled changes do not accumulate from one day to the next: on
    any later scheduled day, whatever has happened to the parameters in
    between, [change_beta.apply] leaves for every configured layer the beta
    that was live at the first call times the factors scheduled for that
    day alone (so a factor 1 restores the original value). *)
Theorem change_beta_changes_do_not_accumulate (cb cb1 : change_beta)
    (sim sim1 sim2 : Sim) (b0 : Qc) (d2 : gmap string Qc) :
  length (days cb) = length (changes cb) →
  orig_betas cb = None →
  Some "overall" ∉ layers cb →
  pars sim !! "beta" = Some (VNum b0) →
  apply cb sim = Ok (cb1, sim1) →
  pars sim2 !! "beta_layers" = Some (VDict d2) →
  findinds (days cb) (Z.of_nat (t sim2)) ≠ [] →
  ∃ sim3, apply cb1 sim2 = Ok (cb1, sim3) ∧
    ∀ key, (key = "overall" ∧ None ∈ layers cb) ∨ Some key ∈ layers cb →
      ∃ b, live_beta sim key = Some (VNum b) ∧
           live_beta sim3 key =
             Some (VNum (b * product (matching_changes cb (Z.of_nat (t sim2))))%Qc).
Proof.
  intros Hlen Hnone Hno Hbeta Ha Hbl Hne.
  destruct (apply_frame _ _ _ _ Ha) as (Hdays & Hchanges & _).
  unfold apply in Ha. rewrite Hnone in Ha.
  apply bind_Ok in Ha as (ob & Hsnap & Ha).
  apply bind_Ok in Ha as (s & _ & [= <- _]).
  destruct (snapshot_acc sim (layers cb) ∅ ob Hno Hsnap) as [Hdom Hval].
  destruct (numeric_values ob) as [base ->].
  { apply (snapshot_numeric sim (layers cb) ∅ _ b0 Hbeta); [|done].
    intros key v Hv. by rewrite lookup_empty in Hv. }
  destruct (apply_cached (set_orig_betas cb (VNum <$> base)) sim2 base d2)
    as (sim3 & Ha3 & Hlive); [done|done|done|done|].
  exists sim3. split; [done|]. intros key Hkey.
  assert (is_Some ((VNum <$> base) !! key)) as [v Hv].
  { apply Hdom. by right. }
  destruct (Hval key v Hv) as [He|Hl]; [by rewrite lookup_empty in He|].
  rewrite lookup_fmap in Hv. destruct (base !! key) as [b|] eqn:Hb; [|done].
  simpl in Hv. injection Hv as <-. exists b. split; [done|].
  by apply Hlive.
Qed.

End ChangeBetaMore.

Lemma change_beta_first_apply_snapshots_witness :
  ∃ cb' sim' ob,
    ChangeBeta.apply school_closure (sim_layered 0) = Ok (cb', sim') ∧
    ChangeBeta.orig_betas cb' = Some ob ∧
    ∀ key v, ob !! key = Some v → ChangeBeta.live_beta (sim_layered 0) key = Some v.
Proof.
  destruct (ChangeBeta.apply school_closure (sim_layered 0)) as [[cb' sim']|e] eqn:Ha;
    [|vm_compute in Ha; discriminate Ha].
  destruct (proj1 (change_beta_first_apply_snapshots school_closure (sim_layered 0)
                     eq_refl ltac:(intros H; apply list_elem_of_singleton in H; discriminate H))
              cb' sim' Ha) as (ob & Hob & _ & Hval).
  exists cb', sim', ob. split; [reflexivity|]. split; [exact Hob | exact Hval].
Defined.

Lemma change_beta_cache_is_kept_witness :
  ChangeBeta.apply change_beta_example (set_t sim_day10 11)
    = Ok (change_beta_example, set_t sim_day10 11).
Proof.
  exact (proj2 (change_beta_cache_is_kept change_beta_example (set_t sim_day10 11)
                  (VNum <$> baseline_example) eq_refl) eq_refl).
Defined.

Lemma change_beta_apply_idempotent_witness :
  ∃ cb' sim',
    ChangeBeta.apply change_beta_example sim_day10 = Ok (cb', sim') ∧
    ChangeBeta.apply cb' sim' = Ok (cb', sim').
Proof.
  destruct (ChangeBeta.apply change_beta_example sim_day10) as [[cb' sim']|e] eqn:Ha;
    [|vm_compute in Ha; discriminate Ha].
  exists cb', sim'. split; [reflexivity|].
  exact (change_beta_apply_idempotent change_beta_example cb' sim_day10 sim' eq_refl Ha).
Defined.

Lemma change_beta_changes_do_not_accumulate_witness :
  ∃ cb1 sim1 sim3 b,
    ChangeBeta.apply school_closure (sim_layered 0) = Ok (cb1, sim1) ∧
    ChangeBeta.apply cb1 sim_after_closure = Ok (cb1, sim3) ∧
    ChangeBeta.live_beta (sim_layered 0) "s" = Some (VNum b) ∧
    ChangeBeta.live_beta sim3 "s" =
      Some (VNum (b * ChangeBeta.product (ChangeBeta.matching_changes school_closure 28))%Qc).
Proof.
  destruct (ChangeBeta.apply school_closure (sim_layered 0)) as [[cb1 sim1]|e] eqn:Ha;
    [|vm_compute in Ha; discriminate Ha].
  destruct (change_beta_changes_do_not_accumulate school_closure cb1
              (sim_layered 0) sim1 sim_after_closure (Q2Qc (15 # 1000))
              (<["h" := Q2Qc (17 # 10)]> (<["s" := Q2Qc (56 # 100)]> ∅))
              eq_refl eq_refl
              ltac:(intros H; apply list_elem_of_singleton in H; discriminate H)
              eq_refl Ha eq_refl ltac:(discriminate))
    as (sim3 & Ha3 & Hlive).
  assert (Some "s" ∈ ChangeBeta.layers school_closure) as Hs by (simpl; left).
  destruct (Hlive "s" (or_intror Hs)) as (b & Hb & Hb3).
  exists cb1, sim1, sim3, b. split; [reflexivity|]. split; [exact Ha3|].
  split; [exact Hb | exact Hb3].
Defined.

(** ** [sequence]: windows of the children and error behaviour *)

Section SequenceMore.
Import Sequence.
Context {I : Type} (child_apply : I → Sim → res Sim).

Lemma first_true_lt (mask : list bool) (i : nat) :
  first_true mask = Some i → (i < length mask)%nat.
Proof.
  intros H. apply first_true_Some in H as [H _]. by apply lookup_lt_Some in H.
Qed.

Lemma argmax_lt (mask : list bool) :
  mask ≠ [] → ∃ i, argmax mask = Ok i ∧ (i < length mask)%nat.
Proof.
  intros Hne. unfold argmax. destruct mask as [|b bs] eqn:Hm; [done|].
  rewrite <- Hm. eexists. split; [done|].
  destruct (first_true mask) as [i|] eqn:Hft; simpl.
  - by apply first_true_lt in Hft.
  - rewrite Hm. simpl. lia.
Qed.

(** X8. The durations of a [sequence] are lengths, not absolute days:
    with non-negative durations whose sum fits in 64 bits, child [k] is the
    one run on every day from the sum of the durations before it up to,
    but not including, that sum plus its own duration. *)
Theorem sequence_child_window (ds : list Z) (ivs : list I) (s : sequence I)
    (sim : Sim) (k : nat) :
  init ds ivs = Ok s →
  Forall (λ d, 0 ≤ d) ds →
  foldr Z.add 0 ds < 2 ^ 63 →
  (k < length ds)%nat →
  foldr Z.add 0 (take k ds) ≤ Z.of_nat (t sim) < foldr Z.add 0 (take (S k) ds) →
  dispatch s (t sim) = Ok k ∧
  ∃ child, ivs !! k = Some child ∧
           apply child_apply s sim = child_apply child sim.
Proof.
  intros Hinit Hpos Hfit Hk [Hlo Hhi].
  destruct (init_Ok _ _ _ Hinit) as (Hlen & _ & Hivs & Hcum).
  assert (∀ i, (i < length ds)%nat → int64 (foldr Z.add 0 (take (S i) ds))) as Hin
    by (intros i _; by apply prefix_sum_int64).
  assert (dispatch s (t sim) = Ok k) as Hd.
  { apply (dispatch_first_exceeding s (t sim) k (foldr Z.add 0 (take (S k) ds))).
    - rewrite Hcum. by apply cumsum_lookup_int64.
    - lia.
    - intros j b' Hj Hb'. rewrite Hcum in Hb'.
      apply cumsum_lookup_int64 in Hb' as [_ ->]; [|done].
      pose proof (prefix_sum_mono ds (S j) k Hpos ltac:(lia)). lia. }
  split; [done|].
  destruct (lookup_lt_is_Some_2 ivs k ltac:(lia)) as [child Hchild].
  exists child. split; [done|].
  apply (apply_dispatch child_apply s sim k child Hd). by rewrite Hivs.
Qed.

(** X9. The errors of a [sequence] itself: construction fails (an
    assertion) exactly when there are not as many durations as children; a
    constructed sequence with at least one child runs exactly one of its
    children on every day, whatever the durations; one without children
    raises [ValueError] when applied. *)
Theorem sequence_errors (ds : list Z) (ivs : list I) :
  (length ds ≠ length ivs → init ds ivs = Raise AssertionError) ∧
  (length ds = length ivs → ∃ s, init ds ivs = Ok s ∧
     ∀ sim,
       (ds ≠ [] →
        ∃ i child, dispatch s (t sim) = Ok i ∧ ivs !! i = Some child ∧
                   apply child_apply s sim = child_apply child sim) ∧
       (ds = [] → apply child_apply s sim = Raise ValueError)).
Proof.
  split.
  - intros Hne. unfold init. by rewrite decide_False.
  - intros Hlen. unfold init. rewrite decide_True by done.
    eexists. split; [done|]. intros sim. split.
    + intros Hne.
      set (s := {| days := ds; interventions := ivs; _cum_days := cumsum ds |}).
      assert (∃ i, dispatch s (t sim) = Ok i ∧ (i < length ds)%nat) as (i & Hd & Hi).
      { unfold dispatch. simpl.
        destruct (argmax_lt ((λ c, bool_decide (c > Z.of_nat (t sim))) <$> cumsum ds))
          as (i & Hi & Hlt).
        - destruct ds; [done|]. done.
        - exists i. split; [done|].
          unfold cumsum in Hlt. by rewrite length_fmap, length_cumsum_from in Hlt. }
      destruct (lookup_lt_is_Some_2 ivs i ltac:(lia)) as [child Hchild].
      exists i, child. split; [done|]. split; [done|].
      by apply (apply_dispatch child_apply s sim i child Hd).
    + intros ->. done.
Qed.

End SequenceMore.

Lemma sequence_child_window_witness :
  ∃ s, Sequence.init [10; 51] [7%nat; 8%nat] = Ok s ∧
       Sequence.dispatch s 10 = Ok 1%nat ∧
       Sequence.apply mark_child s (set_t sim0 10) = Ok (set_t sim0 8).
Proof.
  eexists. split; [reflexivity|].
  destruct (sequence_child_window mark_child [10; 51] [7%nat; 8%nat] _
              (set_t sim0 10) 1%nat eq_refl) as (Hd & child & Hc & Ha).
  - repeat constructor; lia.
  - simpl. lia64.
  - simpl. lia.
  - simpl. lia.
  - split; [exact Hd|]. rewrite Ha. injection Hc as <-. reflexivity.
Defined.

Lemma sequence_errors_witness :
  Sequence.init [10; 51] [7%nat] = Raise AssertionError.
Proof.
  apply (proj1 (sequence_errors mark_child [10; 51] [7%nat])). simpl. lia.
Defined.

(** ** [test_num]: what a call may change, and the count of diagnoses *)

Lemma num_add_Fin_assoc (a : num) (x y : Z) :
  num_add (num_add a (Fin x)) (Fin y) = num_add a (Fin (x + y)).
Proof. destruct a; simpl; [f_equal; lia|done..]. Qed.

Section TestNumMore.
Import TestNum.
Context {rng : Type} `{!PersonAPI rng} `{!Sampler rng}.

Lemma test_one_length (tn : test_num) (day : nat) (st st' : list Person * rng) (i : nat) :
  test_one tn day st i = Ok st' → length st'.1 = length st.1.
Proof.
  unfold test_one, getitem. destruct (st.1 !! i) as [person|]; simpl; [|done].
  destruct (test day (sensitivity tn) (test_delay tn) person st.2) as [person' g'].
  intros [= <-]. simpl. by rewrite length_insert.
Qed.

Lemma test_loop_length (tn : test_num) (day : nat) (inds : list nat)
    (st st' : list Person * rng) :
  for_each (test_one tn day) inds st = Ok st' → length st'.1 = length st.1.
Proof.
  revert st. induction inds as [|i inds IH]; intros st; simpl.
  - by intros [= <-].
  - intros H. apply bind_Ok in H as (st1 & H1 & H2).
    rewrite (IH _ H2). by apply (test_one_length tn day st st1 i).
Qed.

(** The number of people for whom [check_diagnosed] answers 1. *)
Lemma scan_people_count (tn : test_num) (day : nat) (ps : list Person) :
  (scan_people tn day ps).2 =
    Z.of_nat (length (filter (λ p, (check_diagnosed day p).1 = true) ps)).
Proof.
  induction ps as [|person rest IH]; simpl; [done|].
  rewrite filter_cons.
  destruct (check_diagnosed day person) as [d person'] eqn:Hc.
  destruct (scan_people tn day rest) as [[ps' probs] nd].
  cbn [snd] in IH |- *. rewrite IH.
  case_decide as Hd; cbn [fst] in Hd; destruct d; try done; simpl; lia.
Qed.

(** The shape of every successful call. *)
Lemma apply_Ok_cases (tn : test_num) (sim sim' : Sim) (g g' : rng) :
  apply tn sim g = Ok (sim', g') →
  (daily_tests tn !! t sim = None ∧ sim' = sim ∧ g' = g) ∨
  (∃ n_tests cur,
     daily_tests tn !! t sim = Some n_tests ∧
     new_tests (results sim) !! t sim = Some cur ∧
     ((num_truthy n_tests && isfinite n_tests = false ∧ g' = g ∧
       sim' = set_results sim
                {| new_tests := <[t sim := num_add cur n_tests]> (new_tests (results sim));
                   new_diagnoses := new_diagnoses (results sim) |}) ∨
      (num_truthy n_tests && isfinite n_tests = true ∧
       ∃ cur_d ps',
         new_diagnoses (results sim) !! t sim = Some cur_d ∧
         length ps' = length (people sim) ∧
         sim' = tested_state tn sim n_tests cur cur_d ps'))).
Proof.
  unfold apply. destruct (daily_tests tn !! t sim) as [n_tests|]; [|intros [= <- <-]; by left].
  intros Ha. right. apply bind_Ok in Ha as (sim1 & H1 & Ha).
  unfold add_new_tests, getitem in H1.
  destruct (new_tests (results sim) !! t sim) as [cur|] eqn:Hcur; simpl in H1; [|done].
  injection H1 as <-. exists n_tests, cur. split; [done|]. split; [done|].
  destruct (num_truthy n_tests && isfinite n_tests) eqn:Htest; simpl in Ha.
  - right. split; [done|].
    pose proof (scan_people_length tn (t sim) (people sim)) as [Hl1 _].
    destruct (scan_people tn (t sim) (people sim)) as [[ps probs] nd] eqn:Hscan.
    destruct (choose_weighted probs n_tests g) as [inds g1].
    apply bind_Ok in Ha as (sim2 & H2 & Ha).
    unfold add_new_diagnoses, getitem in H2. simpl in H2.
    destruct (new_diagnoses (results sim) !! t sim) as [cur_d|] eqn:Hcur_d; simpl in H2; [|done].
    injection H2 as <-.
    apply bind_Ok in Ha as ([ps' g2] & Hloop & [= <- <-]).
    exists cur_d, ps'. split; [done|]. split.
    + apply test_loop_length in Hloop. simpl in *. lia.
    + unfold tested_state. by rewrite Hscan.
  - left. by injection Ha as <- <-.
Qed.

(** X10. Whatever [test_num.apply] does on a day, it keeps the parameters,
    the day, the number of people and the lengths of the result arrays, and
    it leaves every entry of [new_tests] and [new_diagnoses] other than the
    day's own as it was. *)
Theorem test_num_apply_frame (tn : test_num) (sim sim' : Sim) (g g' : rng) :
  apply tn sim g = Ok (sim', g') →
  pars sim' = pars sim ∧ t sim' = t sim ∧
  length (people sim') = length (people sim) ∧
  length (new_tests (results sim')) = length (new_tests (results sim)) ∧
  length (new_diagnoses (results sim')) = length (new_diagnoses (results sim)) ∧
  ∀ k, k ≠ t sim →
    new_tests (results sim') !! k = new_tests (results sim) !! k ∧
    new_diagnoses (results sim') !! k = new_diagnoses (results sim) !! k.
Proof.
  intros Ha.
  destruct (apply_Ok_cases _ _ _ _ _ Ha)
    as [(_ & -> & _)|(n & cur & _ & _ & [(_ & _ & ->)|(_ & cur_d & ps' & _ & Hlen & ->)])];
    simpl; rewrite ?length_insert; repeat (split; [done|]).
  - done.
  - intros k Hk. by rewrite list_lookup_insert_ne.
  - intros k Hk. by rewrite !list_lookup_insert_ne.
Qed.

(** X11. On a day on which [test_num.apply] tests (a finite, non-zero
    budget), [new_diagnoses[t]] grows by exactly the number of people for
    whom [check_diagnosed] answers 1 on that day. *)
Theorem test_num_counts_new_diagnoses (tn : test_num) (sim sim' : Sim)
    (g g' : rng) (n_tests : num) :
  daily_tests tn !! t sim = Some n_tests →
  num_truthy n_tests && isfinite n_tests = true →
  apply tn sim g = Ok (sim', g') →
  ∃ cur_d,
    new_diagnoses (results sim) !! t sim = Some cur_d ∧
    new_diagnoses (results sim') !! t sim =
      Some (num_add cur_d
              (Fin (Z.of_nat (length (filter (λ p, (check_diagnosed (t sim) p).1 = true)
                                             (people sim)))))).
Proof.
  intros Hn Htest Ha.
  destruct (apply_Ok_cases _ _ _ _ _ Ha)
    as [(Hnone & _)|(n & cur & Hn' & _ & [(Hq & _)|(_ & cur_d & ps' & Hcur_d & _ & ->)])].
  - congruence.
  - congruence.
  - exists cur_d. split; [done|]. simpl.
    rewrite list_lookup_insert_eq by (by apply lookup_lt_Some in Hcur_d).
    by rewrite scan_people_count.
Qed.

End TestNumMore.

Lemma test_num_apply_frame_witness :
  ∃ sim' g',
    TestNum.apply (test_num_example [Fin 2]) (sim_five_days 0) 0%nat = Ok (sim', g') ∧
    length (people sim') = 3%nat ∧
    new_tests (results sim') !! 1%nat = Some (Fin 0).
Proof.
  destruct (TestNum.apply (test_num_example [Fin 2]) (sim_five_days 0) 0%nat)
    as [[sim' g']|e] eqn:Ha; [|vm_compute in Ha; discriminate Ha].
  destruct (test_num_apply_frame _ _ _ _ _ Ha) as (_ & _ & Hlen & _ & _ & Hk).
  exists sim', g'. split; [reflexivity|]. split; [exact Hlen|].
  rewrite (proj1 (Hk 1%nat ltac:(discriminate))). reflexivity.
Defined.

Lemma test_num_counts_new_diagnoses_witness :
  ∃ sim' g' cur_d,
    TestNum.apply (test_num_example [Fin 2]) (sim_five_days 0) 0%nat = Ok (sim', g') ∧
    new_diagnoses (results (sim_five_days 0)) !! 0%nat = Some cur_d ∧
    new_diagnoses (results sim') !! 0%nat =
      Some (num_add cur_d
              (Fin (Z.of_nat (length (filter (λ p, (check_diagnosed 0 p).1 = true)
                                             (people (sim_five_days 0))))))).
Proof.
  destruct (TestNum.apply (test_num_example [Fin 2]) (sim_five_days 0) 0%nat)
    as [[sim' g']|e] eqn:Ha; [|vm_compute in Ha; discriminate Ha].
  destruct (test_num_counts_new_diagnoses (test_num_example [Fin 2]) (sim_five_days 0)
              sim' 0%nat g' (Fin 2) eq_refl eq_refl Ha) as (cur_d & Hc & Hd).
  exists sim', g', cur_d. split; [reflexivity|]. split; [exact Hc | exact Hd].
Defined.

(** ** [test_prob]: accounting of tests and diagnoses *)

Lemma filter_take_S {A} (P : A → Prop) `{!∀ x, Decision (P x)} (l : list A) (k : nat) (x : A) :
  l !! k = Some x →
  length (filter P (take (S k) l)) =
    (length (filter P (take k l)) + (if decide (P x) then 1 else 0))%nat.
Proof.
  intros Hk. rewrite (take_S_r l k x Hk), filter_app, length_app.
  rewrite filter_cons, filter_nil. by destruct (decide (P x)).
Qed.

Section TestProbMore.
Import TestProb.
Context {rng : Type} `{!PersonAPI rng} `{!Bernoulli rng} `{!PersonTestLoss rng}.

Lemma visited_start (tp : test_prob) (sim : Sim) (g : rng) :
  visited tp sim 0 (sim, 0, g) [].
Proof.
  split; simpl; try done.
  - split; [constructor|]. intros i Hi. by apply elem_of_nil in Hi.
  - intros cur Hcur. by rewrite num_add_zero.
  - intros i p Hi. lia.
Qed.

Lemma drawn_start (tp : test_prob) (sim : Sim) (g : rng) :
  drawn tp sim g 0 (sim, 0, g) [] [g].
Proof. split; simpl; try done. intros i p g_i Hi. lia. Qed.

Lemma test_decision_draw (tp : test_prob) (person : Person) (g : rng) :
  test_decision tp person g =
    bt (if symptomatic person then symptomatic_prob tp else asymptomatic_prob tp) g.
Proof. unfold test_decision. by destruct (symptomatic person). Qed.

Lemma visit_step (tp : test_prob) (sim : Sim) (g0 : rng) (k : nat)
    (st st' : Sim * Z * rng) (tested : list nat) (gs : list rng) :
  visited tp sim k st tested →
  drawn tp sim g0 k st tested gs →
  visit tp st k = Ok st' →
  ∃ tested' gs', visited tp sim (S k) st' tested' ∧ drawn tp sim g0 (S k) st' tested' gs'.
Proof.
  intros [Hpars Ht Hlen Hdiag Hcount [Hnd Hlt] Htl Hto Htd Hrest Hppl]
         [Glen Gfirst Glast Gstep].
  destruct st as [[s nd] g]. simpl in *. unfold visit.
  intros Hv. apply bind_Ok in Hv as (person & Hperson & Hv).
  apply getitem_Ok in Hperson.
  assert (people sim !! k = Some person) as Horig by (by rewrite <- Hrest).
  assert (k < length (people s))%nat as Hk by (by apply lookup_lt_Some in Hperson).
  rewrite Ht in Hv.
  destruct (check_diagnosed (t sim) person) as [d person1] eqn:Hcheck.
  assert (nd + Z.b2z d =
          Z.of_nat (length (filter (λ p, (check_diagnosed (t sim) p).1 = true)
                                   (take (S k) (people sim))))) as Hcount'.
  { rewrite (filter_take_S _ _ k person Horig), Hcount, Hcheck. cbn [fst].
    destruct d; [rewrite decide_True by done | rewrite decide_False by done];
      simpl; lia. }
  destruct (test_decision tp person1 g) as [go g1] eqn:Hdec.
  rewrite test_decision_draw in Hdec.
  assert (∀ g_new tested' ps',
            (∀ i, i ≠ k → ps' !! i = people s !! i) →
            (∀ i, i ≠ k → i ∈ tested' ↔ i ∈ tested) →
            (k ∈ tested' ↔ go = true) →
            ps' !! k = Some (if go
                             then (test_with_loss (t sim) (test_sensitivity tp)
                                     (loss_prob tp) (test_delay tp) person1 g1).1
                             else person1) →
            g_new = (if go
                     then (test_with_loss (t sim) (test_sensitivity tp)
                             (loss_prob tp) (test_delay tp) person1 g1).2
                     else g1) →
            ∀ i p g_i, (i < S k)%nat → people sim !! i = Some p →
              (gs ++ [g_new]) !! i = Some g_i →
              drawn_at tp (t sim) tested' (gs ++ [g_new]) ps' i p g_i) as Hdrawn.
  { intros g_new tested' ps' Hps' Htested' Hk' Hpk Hg i p g_i Hi Hp Hgi.
    rewrite lookup_app_l in Hgi by lia.
    destruct (decide (i = k)) as [ -> |Hne].
    - rewrite Horig in Hp. injection Hp as <-.
      rewrite Glast in Hgi. injection Hgi as <-.
      unfold drawn_at. rewrite Hcheck. cbn [snd]. rewrite Hdec. cbn [fst snd].
      split; [done|]. split; [|done].
      rewrite lookup_app_r by lia. rewrite Glen, Nat.sub_diag. simpl. by rewrite Hg.
    - destruct (Gstep i p g_i ltac:(lia) Hp Hgi) as (G1 & G2 & G3).
      unfold drawn_at. split; [by rewrite Htested'|].
      split; [rewrite lookup_app_l by lia; exact G2|].
      rewrite Hps' by done. exact G3. }
  destruct go.
  - apply bind_Ok in Hv as (s2 & Hincr & Hv).
    unfold incr_new_tests, getitem in Hincr. simpl in Hincr. rewrite Ht in Hincr.
    destruct (new_tests (results s) !! t sim) as [cur'|] eqn:Hcur'; simpl in Hincr; [|done].
    injection Hincr as <-. simpl in Hv.
    destruct (test_with_loss (t sim) (test_sensitivity tp) (loss_prob tp)
                (test_delay tp) person1 g1) as [person2 g2] eqn:Htest.
    injection Hv as <-. exists (k :: tested), (gs ++ [g2]). split.
    { split; simpl; rewrite ?length_insert; try done.
      + split.
        * constructor; [|done]. intros Hin. specialize (Hlt k Hin). lia.
        * intros i Hi. apply elem_of_cons in Hi as [->|Hi]; [lia|].
          specialize (Hlt i Hi). lia.
      + intros j Hj. rewrite list_lookup_insert_ne by done. by apply Hto.
      + intros cur Hcur. pose proof (Htd cur Hcur) as Heq.
        assert (cur' = num_add cur (Fin (Z.of_nat (length tested)))) as -> by congruence.
        rewrite list_lookup_insert_eq by (rewrite Htl; by apply lookup_lt_Some in Hcur).
        rewrite num_add_Fin_assoc. do 3 f_equal. lia.
      + intros i Hi. rewrite !list_lookup_insert_ne by lia. apply Hrest. lia.
      + intros i p Hi Hp. destruct (decide (i = k)) as [->|Hne].
        * left. split; [left|]. exists g1. rewrite Horig in Hp. injection Hp as <-.
          rewrite list_lookup_insert_eq by (by rewrite length_insert).
          rewrite Hcheck. cbn [snd]. by rewrite Htest.
        * rewrite !list_lookup_insert_ne by done.
          destruct (Hppl i p ltac:(lia) Hp) as [[Hin Hg]|[Hnin Hg]].
          -- left. split; [by right|done].
          -- right. split; [|done]. apply not_elem_of_cons. split; [done|done]. }
    split; simpl.
    + rewrite length_app. simpl. lia.
    + by rewrite lookup_app_l by lia.
    + rewrite lookup_app_r by lia. by rewrite Glen, Nat.sub_diag.
    + apply Hdrawn; simpl; try done.
      * intros i Hne. by rewrite !list_lookup_insert_ne.
      * intros i Hne. rewrite elem_of_cons. split; [by intros [?|?]|by right].
      * split; [done|]. intros _. left.
      * apply list_lookup_insert_eq. by rewrite length_insert.
  - injection Hv as <-. exists tested, (gs ++ [g1]). split.
    { split; simpl; rewrite ?length_insert; try done.
      + split; [done|]. intros i Hi. specialize (Hlt i Hi). lia.
      + intros i Hi. rewrite list_lookup_insert_ne by lia. apply Hrest. lia.
      + intros i p Hi Hp. destruct (decide (i = k)) as [->|Hne].
        * right. split; [intros Hin; specialize (Hlt k Hin); lia|].
          rewrite Horig in Hp. injection Hp as <-.
          rewrite list_lookup_insert_eq by done. by rewrite Hcheck.
        * rewrite list_lookup_insert_ne by done. apply Hppl; [lia|done]. }
    split; simpl.
    + rewrite length_app. simpl. lia.
    + by rewrite lookup_app_l by lia.
    + rewrite lookup_app_r by lia. by rewrite Glen, Nat.sub_diag.
    + apply Hdrawn; simpl; try done.
      * intros i Hne. by rewrite list_lookup_insert_ne.
      * split; [|done]. intros Hin. specialize (Hlt k Hin). lia.
      * by apply list_lookup_insert_eq.
Qed.

Lemma visit_loop (tp : test_prob) (sim : Sim) (g0 : rng) (n k : nat)
    (st st' : Sim * Z * rng) (tested : list nat) (gs : list rng) :
  visited tp sim k st tested →
  drawn tp sim g0 k st tested gs →
  for_each (visit tp) (seq k n) st = Ok st' →
  ∃ tested' gs', visited tp sim (k + n) st' tested' ∧
                 drawn tp sim g0 (k + n) st' tested' gs'.
Proof.
  revert k st tested gs. induction n as [|n IH]; intros k st tested gs Hinv Hdr; simpl.
  - intros [= <-]. exists tested, gs. by rewrite Nat.add_0_r.
  - intros H. apply bind_Ok in H as (st1 & H1 & H2).
    destruct (visit_step _ _ _ _ _ _ _ _ Hinv Hdr H1) as (tested1 & gs1 & Hinv1 & Hdr1).
    destruct (IH _ _ _ _ Hinv1 Hdr1 H2) as (tested' & gs' & Hinv' & Hdr').
    exists tested', gs'. by replace (k + S n)%nat with (S k + n)%nat by lia.
Qed.

(** X12. From its start day on, a call of [test_prob.apply] that returns
    has called [check_diagnosed] on everybody and then made one draw of
    [bt] for each person, in order, with [symptomatic_prob] for somebody
    who is symptomatic and [asymptomatic_prob] otherwise; the people for
    whom the draw succeeded are tested, once each, and nobody else is.
    [new_tests[t]] has grown by exactly the number of people tested,
    [new_diagnoses[t]] by the number of people for whom [check_diagnosed]
    answered 1, the other entries of the results, the parameters, the day
    and the number of people are unchanged, and the people not tested are
    as [check_diagnosed] left them.  Before the start day the call changes
    nothing. *)
Theorem test_prob_accounting (tp : test_prob) (sim : Sim) (g : rng) :
  (Z.of_nat (t sim) < start_day tp → apply tp sim g = Ok (sim, g)) ∧
  (∀ sim' g',
     ¬ Z.of_nat (t sim) < start_day tp →
     apply tp sim g = Ok (sim', g') →
     pars sim' = pars sim ∧ t sim' = t sim ∧
     length (people sim') = length (people sim) ∧
     ∃ (tested : list nat) (gs : list rng),
       NoDup tested ∧
       (∀ cur, new_tests (results sim) !! t sim = Some cur →
          new_tests (results sim') !! t sim =
            Some (num_add cur (Fin (Z.of_nat (length tested))))) ∧
       (∃ cur_d, new_diagnoses (results sim) !! t sim = Some cur_d ∧
          new_diagnoses (results sim') !! t sim =
            Some (num_add cur_d
                    (Fin (Z.of_nat (length (filter
                            (λ p, (check_diagnosed (t sim) p).1 = true)
                            (people sim))))))) ∧
       (∀ j, j ≠ t sim →
          new_tests (results sim') !! j = new_tests (results sim) !! j ∧
          new_diagnoses (results sim') !! j = new_diagnoses (results sim) !! j) ∧
       (∀ i p, people sim !! i = Some p →
          (i ∈ tested ∧
           ∃ g_i, people sim' !! i =
                  Some (test_with_loss (t sim) (test_sensitivity tp) (loss_prob tp)
                          (test_delay tp) (check_diagnosed (t sim) p).2 g_i).1) ∨
          ((i ∉ tested) ∧ people sim' !! i = Some (check_diagnosed (t sim) p).2)) ∧
       length gs = S (length (people sim)) ∧
       gs !! 0%nat = Some g ∧
       gs !! length (people sim) = Some g' ∧
       (∀ i p g_i, people sim !! i = Some p → gs !! i = Some g_i →
          let person := (check_diagnosed (t sim) p).2 in
          let draw := bt (if symptomatic person then symptomatic_prob tp
                          else asymptomatic_prob tp) g_i in
          let tested_person :=
            test_with_loss (t sim) (test_sensitivity tp) (loss_prob tp) (test_delay tp)
              person draw.2 in
          (i ∈ tested ↔ draw.1 = true) ∧
          gs !! S i = Some (if draw.1 then tested_person.2 else draw.2) ∧
          people sim' !! i = Some (if draw.1 then tested_person.1 else person))).
Proof.
  split.
  - intros Hearly. unfold apply. by rewrite bool_decide_eq_true_2.
  - intros sim' g' Hlate Ha. unfold apply in Ha.
    rewrite bool_decide_eq_false_2 in Ha by done.
    apply bind_Ok in Ha as ([[s nd] g1] & Hloop & Ha).
    destruct (visit_loop tp sim g _ 0 _ _ [] [g] (visited_start tp sim g)
                (drawn_start tp sim g) Hloop)
      as (tested & gs & [Hpars Ht Hlen Hdiag Hcount [Hnd Hlt] Htl Hto Htd Hrest Hppl]
          & [Glen Gfirst Glast Gstep]).
    simpl in *.
    apply bind_Ok in Ha as (cur_d & Hcur_d & [= <- <-]). apply getitem_Ok in Hcur_d.
    rewrite Ht, Hdiag in Hcur_d. rewrite Ht. simpl.
    repeat (split; [done|]). exists tested, gs. split; [done|]. split; [done|].
    split; [|split; [|split; [|split; [|split; [|split]]]]].
    + exists cur_d. split; [done|]. rewrite Hdiag.
      rewrite list_lookup_insert_eq by (by apply lookup_lt_Some in Hcur_d).
      rewrite Hcount. by rewrite firstn_all.
    + intros j Hj. split; [by apply Hto|].
      rewrite Hdiag. by rewrite list_lookup_insert_ne.
    + intros i p Hp. apply Hppl; [|done]. by apply lookup_lt_Some in Hp.
    + done.
    + done.
    + done.
    + intros i p g_i Hp Hgi.
      exact (Gstep i p g_i (lookup_lt_Some _ _ _ Hp) Hp Hgi).
Qed.

End TestProbMore.

Lemma test_prob_accounting_witness :
  ∃ sim' g',
    TestProb.apply test_prob_example (sim_five_days 0) 0%nat = Ok (sim', g') ∧
    t sim' = 0%nat ∧ length (people sim') = 3%nat.
Proof.
  destruct (TestProb.apply test_prob_example (sim_five_days 0) 0%nat)
    as [[sim' g']|e] eqn:Ha; [|vm_compute in Ha; discriminate Ha].
  destruct (proj2 (test_prob_accounting test_prob_example (sim_five_days 0) 0%nat)
              sim' g' ltac:(simpl; lia) Ha) as (_ & Ht & Hlen & _).
  exists sim', g'. split; [reflexivity|]. split; [exact Ht | exact Hlen].
Defined.

(** ** [test_historical]: edges and accounting *)

Section TestHistoricalMore.
Import TestHistorical.
Context {rng : Type} `{!PersonAPI rng} `{!Sampler rng}.

Lemma positive_tests_lookup (ps : list Person) (i : nat) (w : Qc) :
  positive_tests ps !! i = Some w → (0 < w)%Qc →
  ∃ person, ps !! i = Some person ∧ infectious person = true.
Proof.
  unfold positive_tests. rewrite list_lookup_fmap.
  destruct (ps !! i) as [person|]; simpl; [|done]. intros [= <-] Hpos.
  exists person. split; [done|]. destruct (infectious person); [done|].
  exfalso. revert Hpos. apply Qcle_not_lt, Qcle_refl.
Qed.

Lemma negative_tests_lookup (ps : list Person) (i : nat) (w : Qc) :
  negative_tests ps !! i = Some w → (0 < w)%Qc →
  ∃ person, ps !! i = Some person ∧ infectious person = false.
Proof.
  unfold negative_tests, positive_tests. rewrite !list_lookup_fmap.
  destruct (ps !! i) as [person|]; simpl; [|done]. intros [= <-] Hpos.
  exists person. split; [done|]. destruct (infectious person); [|done].
  exfalso. revert Hpos. apply Qcle_not_lt. by vm_compute.
Qed.

Lemma test_positive_Ok (sim : Sim) (g : rng) (i : nat) (person : Person) (cur_d : num) :
  people sim !! i = Some person →
  new_diagnoses (results sim) !! t sim = Some cur_d →
  test_positive (sim, g) i =
    Ok (set_results (set_people sim (<[i := (test (t sim) 1%Qc 0 person g).1]> (people sim)))
          {| new_tests := new_tests (results sim);
             new_diagnoses :=
               <[t sim := num_add cur_d (Fin 1)]> (new_diagnoses (results sim)) |},
        (test (t sim) 1%Qc 0 person g).2).
Proof.
  intros Hp Hcur. unfold test_positive, getitem. simpl. rewrite Hp. simpl.
  destruct (test (t sim) 1%Qc 0 person g) as [person' g1]. simpl.
  rewrite Hcur. done.
Qed.

Lemma test_negative_Ok (sim : Sim) (g : rng) (i : nat) (person : Person) :
  people sim !! i = Some person →
  test_negative (sim, g) i =
    Ok (set_people sim (<[i := (test (t sim) 1%Qc 0 person g).1]> (people sim)),
        (test (t sim) 1%Qc 0 person g).2).
Proof.
  intros Hp. unfold test_negative, getitem. simpl. rewrite Hp. simpl.
  by destruct (test (t sim) 1%Qc 0 person g) as [person' g1].
Qed.

Lemma test_positive_loop (inds : list nat) (sim : Sim) (g : rng) (cur_d : num) :
  Forall (λ i, (i < length (people sim))%nat) inds →
  new_diagnoses (results sim) !! t sim = Some cur_d →
  ∃ sim' g',
    for_each test_positive inds (sim, g) = Ok (sim', g') ∧
    pars sim' = pars sim ∧ t sim' = t sim ∧
    new_tests (results sim') = new_tests (results sim) ∧
    length (people sim') = length (people sim) ∧
    (∀ j, j ∉ inds → people sim' !! j = people sim !! j) ∧
    new_diagnoses (results sim') =
      <[t sim := num_add cur_d (Fin (Z.of_nat (length inds)))]> (new_diagnoses (results sim)).
Proof.
  revert sim g cur_d. induction inds as [|i inds IH]; intros sim g cur_d Hin Hcur.
  - exists sim, g. repeat (split; [done|]). simpl.
    by rewrite num_add_zero, list_insert_id.
  - apply Forall_cons in Hin as [Hi Hin].
    destruct (lookup_lt_is_Some_2 _ _ Hi) as [person Hp].
    cbn [for_each]. rewrite (test_positive_Ok sim g i person cur_d Hp Hcur).
    cbn [mbind res_bind].
    match goal with |- context [for_each test_positive inds (?s, ?g1)] =>
      destruct (IH s g1 (num_add cur_d (Fin 1))) as (sim' & g' & -> & Hpars & Ht & Hnt & Hlen & Hfr & Hnd)
    end.
    { simpl. by rewrite length_insert. }
    { simpl. apply list_lookup_insert_eq. by apply lookup_lt_Some in Hcur. }
    simpl in *. exists sim', g'. split; [done|].
    rewrite length_insert in Hlen. repeat (split; [done|]).
    split.
    + intros j Hj. apply not_elem_of_cons in Hj as [Hne Hj].
      rewrite (Hfr j Hj). by rewrite list_lookup_insert_ne.
    + rewrite Hnd, list_insert_insert_eq, num_add_Fin_assoc. do 3 f_equal. lia.
Qed.

Lemma test_negative_loop (inds : list nat) (sim : Sim) (g : rng) :
  Forall (λ i, (i < length (people sim))%nat) inds →
  ∃ sim' g',
    for_each test_negative inds (sim, g) = Ok (sim', g') ∧
    pars sim' = pars sim ∧ t sim' = t sim ∧
    results sim' = results sim ∧
    length (people sim') = length (people sim) ∧
    (∀ j, j ∉ inds → people sim' !! j = people sim !! j).
Proof.
  revert sim g. induction inds as [|i inds IH]; intros sim g Hin.
  - by exists sim, g.
  - apply Forall_cons in Hin as [Hi Hin].
    destruct (lookup_lt_is_Some_2 _ _ Hi) as [person Hp].
    cbn [for_each]. rewrite (test_negative_Ok sim g i person Hp).
    cbn [mbind res_bind].
    match goal with |- context [for_each test_negative inds (?s, ?g1)] =>
      destruct (IH s g1) as (sim' & g' & -> & Hpars & Ht & Hr & Hlen & Hfr)
    end.
    { simpl. by rewrite length_insert. }
    simpl in *. exists sim', g'. split; [done|].
    rewrite length_insert in Hlen. repeat (split; [done|]).
    intros j Hj. apply not_elem_of_cons in Hj as [Hne Hj].
    rewrite (Hfr j Hj). by rewrite list_lookup_insert_ne.
Qed.

(** X13. [test_historical.apply] reads the day's recorded counts without
    padding: a day beyond [n_tests] (or, on a day with tests, beyond
    [n_positive]) raises [IndexError]; a day with zero tests changes
    nothing and draws nothing.  On a day with tests, with a sampler that
    draws only indices of positive weight and at most the number asked
    for, the call returns: everybody drawn from the positive pool is
    infectious and everybody drawn from the negative pool is not; the
    positives are no more than the infectious and than the recorded
    positives; [new_tests[t]] grows by the recorded number of tests and
    [new_diagnoses[t]] by the number of positives drawn; nobody outside
    the two pools is touched. *)
Theorem test_historical_accounting (th : test_historical) (sim : Sim) (g : rng) :
  (n_tests th !! t sim = None → apply th sim g = Raise IndexError) ∧
  (n_tests th !! t sim = Some 0 → apply th sim g = Ok (sim, g)) ∧
  (∀ todays_tests, n_tests th !! t sim = Some todays_tests → todays_tests ≠ 0 →
     n_positive th !! t sim = None → apply th sim g = Raise IndexError) ∧
  (∀ todays_tests todays_positive cur cur_d,
     sampler_contract rng →
     n_tests th !! t sim = Some todays_tests → todays_tests ≠ 0 →
     n_positive th !! t sim = Some todays_positive →
     new_tests (results sim) !! t sim = Some cur →
     new_diagnoses (results sim) !! t sim = Some cur_d →
     ∃ sim' g',
       apply th sim g = Ok (sim', g') ∧
       let positive_inds := (pools th sim todays_tests todays_positive g).1.1 in
       let negative_inds := (pools th sim todays_tests todays_positive g).1.2 in
       (∀ i, i ∈ positive_inds →
          ∃ person, people sim !! i = Some person ∧ infectious person = true) ∧
       (∀ i, i ∈ negative_inds →
          ∃ person, people sim !! i = Some person ∧ infectious person = false) ∧
       Z.of_nat (length positive_inds)
         ≤ Z.max 0 (Z.min (count_positive (people sim)) todays_positive) ∧
       new_tests (results sim') =
         <[t sim := num_add cur (Fin todays_tests)]> (new_tests (results sim)) ∧
       new_diagnoses (results sim') =
         <[t sim := num_add cur_d (Fin (Z.of_nat (length positive_inds)))]>
           (new_diagnoses (results sim)) ∧
       pars sim' = pars sim ∧ t sim' = t sim ∧
       length (people sim') = length (people sim) ∧
       (∀ j, j ∉ positive_inds → j ∉ negative_inds →
          people sim' !! j = people sim !! j)).
Proof.
  split; [|split; [|split]].
  - intros Hnone. unfold apply, getitem. by rewrite Hnone.
  - intros Hzero. unfold apply, getitem. rewrite Hzero. cbn [mbind res_bind].
    by rewrite decide_True.
  - intros nt Hnt Hne Hnone. unfold apply, getitem. rewrite Hnt. cbn [mbind res_bind].
    rewrite decide_False by done. by rewrite Hnone.
  - intros nt np cur cur_d Hs Hnt Hne Hnp Hcur Hcur_d.
    unfold apply, getitem. rewrite Hnt. cbn [mbind res_bind].
    rewrite decide_False by done.
    rewrite Hnp. cbn [mbind res_bind]. unfold pools.
    destruct (choose_weighted (positive_tests (people sim))
                (Fin (Z.min (count_positive (people sim)) np)) g) as [pos g1] eqn:Hpos.
    destruct (choose_weighted (negative_tests (people sim))
                (Fin (Z.min (count_negative (people sim)) (nt - Z.of_nat (length pos)))) g1)
      as [neg g2] eqn:Hneg.
    simpl.
    assert (∀ i, i ∈ pos →
              ∃ person, people sim !! i = Some person ∧ infectious person = true) as Hposinf.
    { intros i Hi.
      destruct (sampler_support Hs (positive_tests (people sim))
                  (Fin (Z.min (count_positive (people sim)) np)) g i) as (w & Hw & Hw0).
      { rewrite Hpos. exact Hi. }
      by apply (positive_tests_lookup _ i w). }
    assert (∀ i, i ∈ neg →
              ∃ person, people sim !! i = Some person ∧ infectious person = false) as Hneginf.
    { intros i Hi.
      destruct (sampler_support Hs (negative_tests (people sim))
                  (Fin (Z.min (count_negative (people sim)) (nt - Z.of_nat (length pos))))
                  g1 i) as (w & Hw & Hw0).
      { rewrite Hneg. exact Hi. }
      by apply (negative_tests_lookup _ i w). }
    destruct (test_positive_loop pos sim g2 cur_d)
      as (s1 & g3 & -> & Hpars1 & Ht1 & Hnt1 & Hlen1 & Hfr1 & Hnd1); [|done|].
    { apply Forall_forall. intros i Hi. destruct (Hposinf i Hi) as (p & Hp & _).
      by apply lookup_lt_Some in Hp. }
    simpl.
    destruct (test_negative_loop neg s1 g3)
      as (s2 & g4 & -> & Hpars2 & Ht2 & Hr2 & Hlen2 & Hfr2).
    { apply Forall_forall. intros i Hi. destruct (Hneginf i Hi) as (p & Hp & _).
      apply lookup_lt_Some in Hp. lia. }
    simpl. rewrite Ht2, Ht1, Hr2, Hnt1, Hcur. simpl.
    eexists _, _. split; [done|]. simpl.
    split; [done|]. split; [done|]. split.
    { pose proof (sampler_bounded Hs (positive_tests (people sim))
                    (Z.min (count_positive (people sim)) np) g) as Hb.
      by rewrite Hpos in Hb. }
    split; [done|]. split; [done|].
    split; [congruence|]. split; [congruence|]. split; [congruence|].
    intros j Hjp Hjn. rewrite (Hfr2 j Hjn). by apply Hfr1.
Qed.

End TestHistoricalMore.

Lemma test_historical_accounting_witness :
  TestHistorical.apply test_historical_example (sim_five_days 2) 0%nat = Raise IndexError ∧
  TestHistorical.apply test_historical_example (sim_five_days 1) 0%nat
    = Ok (sim_five_days 1, 0%nat) ∧
  ∃ sim' g',
    TestHistorical.apply test_historical_example (sim_five_days 0) 0%nat = Ok (sim', g') ∧
    new_tests (results sim') = <[0%nat := Fin 2]> (replicate 5 (Fin 0)).
Proof.
  split; [|split].
  - exact (proj1 (test_historical_accounting test_historical_example
                    (sim_five_days 2) 0%nat) eq_refl).
  - exact (proj1 (proj2 (test_historical_accounting test_historical_example
                           (sim_five_days 1) 0%nat)) eq_refl).
  - destruct (proj2 (proj2 (proj2 (test_historical_accounting test_historical_example
                                     (sim_five_days 0) 0%nat)))
                2 1 (Fin 0) (Fin 0) first_eligible_contract eq_refl
                ltac:(discriminate) eq_refl eq_refl eq_refl)
      as (sim' & g' & Ha & _ & _ & _ & Hnt & _).
    exists sim', g'. split; [exact Ha | exact Hnt].
Defined.

(** ** [contact_tracing]: what a call may change *)

Lemma for_each_fixed {A S} (body : S → A → res S) (xs : list A) (s : S) :
  (∀ x, x ∈ xs → body s x = Ok s) → for_each body xs s = Ok s.
Proof.
  induction xs as [|x xs IH]; intros Hbody; simpl; [done|].
  rewrite Hbody by left. simpl. apply IH. intros y Hy. apply Hbody. by right.
Qed.

Section ContactTracingMore.
Import ContactTracing.
Context {rng : Type} `{!PersonAPI rng}.

Lemma traced_from_refl (p : Person) : traced_from p p.
Proof. by repeat split. Qed.

Lemma traced_from_trans (p1 p2 p3 : Person) :
  traced_from p1 p2 → traced_from p2 p3 → traced_from p1 p3.
Proof.
  intros (H1 & H2 & H3 & H4 & H5 & H6) (K1 & K2 & K3 & K4 & K5 & K6).
  repeat split; try congruence.
  intros Hinf. rewrite K6 by congruence. by apply H6.
Qed.

Lemma people_traced_from_refl (ps : list Person) : people_traced_from ps ps.
Proof. split; [done|]. intros i p Hp. exists p. split; [done|apply traced_from_refl]. Qed.

Lemma people_traced_from_trans (ps1 ps2 ps3 : list Person) :
  people_traced_from ps1 ps2 → people_traced_from ps2 ps3 → people_traced_from ps1 ps3.
Proof.
  intros [Hl12 H12] [Hl23 H23]. split; [congruence|]. intros i p Hp.
  destruct (H12 i p Hp) as (p2 & Hp2 & Ht2).
  destruct (H23 i p2 Hp2) as (p3 & Hp3 & Ht3).
  exists p3. split; [done|]. by eapply traced_from_trans.
Qed.

Lemma people_traced_from_insert (ps : list Person) (k : nat) (p p' : Person) :
  ps !! k = Some p → traced_from p p' → people_traced_from ps (<[k := p']> ps).
Proof.
  intros Hk Ht. split; [by rewrite length_insert|]. intros i q Hq.
  destruct (decide (i = k)) as [ -> |Hne].
  - rewrite Hk in Hq. injection Hq as <-. exists p'. split; [|done].
    apply list_lookup_insert_eq. by apply lookup_lt_Some in Hk.
  - exists q. rewrite list_lookup_insert_ne by done. split; [done|apply traced_from_refl].
Qed.

Lemma notify_traced_from (day : nat) (ps ps' : list Person) (c : nat * Z) :
  notify day ps c = Ok ps' → people_traced_from ps ps'.
Proof.
  intros H. apply notify_inv in H as (target & Ht & ->).
  apply (people_traced_from_insert ps c.1 target); [done|]. by repeat split.
Qed.

Lemma trace_person_traced_from (ct : contact_tracing) (day : nat)
    (st st' : list Person * rng) (k : nat) :
  trace_person ct day st k = Ok st' → people_traced_from st.1 st'.1.
Proof.
  unfold trace_person, getitem.
  destruct (st.1 !! k) as [person|] eqn:Hk; simpl; [|done].
  destruct (infectious person) eqn:Hinf; simpl;
    [|intros [= <-]; apply people_traced_from_refl].
  destruct (trace_dynamic_contacts _ _ person st.2) as [dyn g1].
  assert (people_traced_from st.1 (<[k := set_dyn_cont_ppl person dyn]> st.1)) as Hdyn.
  { apply (people_traced_from_insert _ k person); [done|].
    repeat split; try done. simpl. intros Hf. congruence. }
  case_bool_decide; [|by intros [= <-]].
  destruct (trace_static_contacts _ _ _ g1) as [static g2].
  intros Hres. apply bind_Ok in Hres as (ps2 & Hloop & [= <-]). simpl.
  eapply people_traced_from_trans; [exact Hdyn|].
  exact (@for_each_invariant _ _ people_traced_from
           people_traced_from_refl people_traced_from_trans
           _ _ _ _ (λ s1 x s2, notify_traced_from day s1 s2 x) Hloop).
Qed.

(** The turn of an infectious person diagnosed the day before, field by
    field. *)
Lemma trace_person_just_diagnosed_exact (ct : contact_tracing) (day : nat)
    (st st' : list Person * rng) (k : nat) (person : Person) :
  st.1 !! k = Some person →
  infectious person = true → date_diagnosed person = Some (Z.of_nat day - 1) →
  trace_person ct day st k = Ok st' →
  ∀ j p, st.1 !! j = Some p →
    ∃ p', st'.1 !! j = Some p' ∧
      symptomatic p' = symptomatic p ∧ infectious p' = infectious p ∧
      diagnosed p' = diagnosed p ∧ known_contact p' = known_contact p ∧
      date_diagnosed p' = date_diagnosed p ∧
      dyn_cont_ppl p' =
        (if decide (j = k)
         then (trace_dynamic_contacts (trace_probs ct) (trace_time ct) person st.2).1
         else dyn_cont_ppl p) ∧
      (traced_contacts ct person st.2 !! j = None →
       date_known_contact p' = date_known_contact p).
Proof.
  intros Hk Hinf Hdiag. unfold trace_person, traced_contacts, getitem.
  rewrite Hk. simpl. rewrite Hinf. simpl.
  destruct (trace_dynamic_contacts _ _ person st.2) as [dyn g1].
  rewrite bool_decide_eq_true_2 by done.
  destruct (trace_static_contacts _ _ _ g1) as [static g2].
  intros Hres. apply bind_Ok in Hres as (ps2 & Hloop & [= <-]). simpl.
  unfold contactable_ppl in Hloop. simpl in Hloop.
  pose proof (notify_contacts day _ _ _ Hloop) as Hps2.
  intros j p Hj. rewrite Hps2.
  assert (∃ p1, <[k := set_dyn_cont_ppl person dyn]> st.1 !! j = Some p1 ∧
                symptomatic p1 = symptomatic p ∧ infectious p1 = infectious p ∧
                diagnosed p1 = diagnosed p ∧ known_contact p1 = known_contact p ∧
                date_diagnosed p1 = date_diagnosed p ∧
                dyn_cont_ppl p1 = (if decide (j = k) then dyn else dyn_cont_ppl p) ∧
                date_known_contact p1 = date_known_contact p)
    as (p1 & -> & H1 & H2 & H3 & H4 & H5 & H6 & H7).
  { destruct (decide (j = k)) as [ -> |Hne].
    - rewrite Hk in Hj. injection Hj as <-.
      exists (set_dyn_cont_ppl person dyn). split; [|done].
      apply list_lookup_insert_eq. by apply lookup_lt_Some in Hk.
    - exists p. by rewrite list_lookup_insert_ne. }
  destruct ((dyn ∪ static) !! j) as [d|]; simpl.
  - eexists. split; [done|]. simpl. repeat (split; [done|]). done.
  - exists p1. repeat (split; [done|]). done.
Qed.

(** Who is written to during the loop of a call. *)
Lemma apply_writes (ct : contact_tracing) (sim : Sim) (g : rng)
    (ps : list Person) (g' : rng) :
  for_each (trace_person ct (t sim)) (seq 0 (length (people sim))) (people sim, g)
    = Ok (ps, g') →
  ∀ j p, people sim !! j = Some p →
    ∃ p', ps !! j = Some p' ∧
      (infectious p = true →
       ∃ q g_j, same_but_date p q ∧
         dyn_cont_ppl p' =
           (trace_dynamic_contacts (trace_probs ct) (trace_time ct) q g_j).1) ∧
      (date_known_contact p' ≠ date_known_contact p →
       ∃ k person q g_k d,
         people sim !! k = Some person ∧ infectious person = true ∧
         date_diagnosed person = Some (Z.of_nat (t sim) - 1) ∧
         same_but_date person q ∧ traced_contacts ct q g_k !! j = Some d).
Proof.
  intros Hloop.
  pose (Inv := λ (k : nat) (st : list Person * rng),
          ∀ j p, people sim !! j = Some p →
            ∃ p', st.1 !! j = Some p' ∧
              symptomatic p' = symptomatic p ∧ infectious p' = infectious p ∧
              diagnosed p' = diagnosed p ∧ known_contact p' = known_contact p ∧
              date_diagnosed p' = date_diagnosed p ∧
              ((k ≤ j)%nat → dyn_cont_ppl p' = dyn_cont_ppl p) ∧
              ((j < k)%nat → infectious p = true →
               ∃ q g_j, same_but_date p q ∧
                 dyn_cont_ppl p' =
                   (trace_dynamic_contacts (trace_probs ct) (trace_time ct) q g_j).1) ∧
              (date_known_contact p' ≠ date_known_contact p →
               ∃ k0 person q g_k d,
                 people sim !! k0 = Some person ∧ infectious person = true ∧
                 date_diagnosed person = Some (Z.of_nat (t sim) - 1) ∧
                 same_but_date person q ∧ traced_contacts ct q g_k !! j = Some d)).
  assert (Inv (0 + length (people sim))%nat (ps, g')) as Hfinal.
  { apply (for_each_seq_ind (trace_person ct (t sim)) Inv _ _ _ _) with (3 := Hloop).
    - intros j p Hj. exists p. repeat (split; [done|]). split; [lia|done].
    - intros k st st' [_ Hk] Hinv Hturn. simpl in Hk.
      destruct (lookup_lt_is_Some_2 (people sim) k Hk) as [pk Hpk].
      destruct (Hinv k pk Hpk) as (pk' & Hpk' & K1 & K2 & K3 & K4 & K5 & K6 & _ & _).
      assert (same_but_date pk pk') as Hsame by (repeat split; try done; by apply K6).
      destruct (decide (infectious pk' = true ∧
                        date_diagnosed pk' = Some (Z.of_nat (t sim) - 1)))
        as [[Hinf Hdiag]|Hquiet].
      + pose proof (trace_person_just_diagnosed_exact ct (t sim) st st' k pk'
                      Hpk' Hinf Hdiag Hturn) as Hexact.
        intros j p Hj.
        destruct (Hinv j p Hj) as (p1 & Hp1 & J1 & J2 & J3 & J4 & J5 & J6 & J7 & J8).
        destruct (Hexact j p1 Hp1) as (p2 & Hp2 & E1 & E2 & E3 & E4 & E5 & E6 & E7).
        exists p2. split; [done|]. do 5 (split; [congruence|]).
        split; [|split].
        * intros Hle. rewrite E6, decide_False by lia. apply J6. lia.
        * intros Hlt Hip. assert (j = k ∨ j ≠ k) as [ -> |Hne] by lia.
          -- exists pk', st.2. rewrite E6, decide_True by done.
             split; [|done]. assert (p = pk) as -> by congruence. done.
          -- rewrite E6, decide_False by done. apply J7; [lia|done].
        * intros Hchanged.
          destruct (traced_contacts ct pk' st.2 !! j) as [d|] eqn:Hc.
          -- exists k, pk, pk', st.2, d. split; [exact Hpk|].
             split; [congruence|]. split; [congruence|]. split; [exact Hsame|exact Hc].
          -- apply J8. rewrite <- (E7 eq_refl). done.
      + pose proof (trace_person_quiet ct (t sim) st st' k pk' Hpk' Hquiet Hturn) as ->.
        intros j p Hj.
        destruct (Hinv j p Hj) as (p1 & Hp1 & J1 & J2 & J3 & J4 & J5 & J6 & J7 & J8).
        destruct (infectious pk') eqn:Hinf; simpl.
        * destruct (decide (j = k)) as [ -> |Hne].
          -- assert (p = pk) as -> by congruence.
             assert (p1 = pk') as -> by congruence.
             eexists. split; [apply list_lookup_insert_eq; by apply lookup_lt_Some in Hpk'|].
             simpl. repeat (split; [done|]). split; [lia|]. split; [|done].
             intros _ _. by exists pk', st.2.
          -- exists p1. rewrite list_lookup_insert_ne by done.
             split; [done|]. do 5 (split; [done|]).
             split; [intros Hle; apply J6; lia|]. split; [|done].
             intros Hlt. apply J7. lia.
        * exists p1. split; [done|]. do 5 (split; [done|]).
          split; [intros Hle; apply J6; lia|]. split; [|done].
          intros Hlt Hip. destruct (decide (j = k)) as [ -> |Hne]; [|apply J7; [lia|done]].
          assert (p = pk) as -> by congruence. congruence. }
  intros j p Hj. destruct (Hfinal j p Hj) as (p' & Hp' & _ & _ & _ & _ & _ & _ & H7 & H8).
  exists p'. split; [done|]. split; [|done].
  intros Hinf. apply H7; [|done]. apply lookup_lt_Some in Hj. simpl. lia.
Qed.

(** X14. What a call of [contact_tracing.apply] writes.  The parameters,
    the results, the day and the number of people are unchanged, and so
    are everybody's [symptomatic], [infectious], [diagnosed] and
    [known_contact] flags and [date_diagnosed]; in particular the
    [known_contact] flag is never set here.  Somebody who is not
    infectious keeps the dynamic contacts recorded so far; from the start
    day on, the dynamic contacts of an infectious person are those that
    [trace_dynamic_contacts] returned for that person.  A
    [date_known_contact] changes only for somebody who is among the traced
    contacts (static and dynamic, as the tracing methods return them) of
    an infectious person diagnosed the day before. *)
Theorem contact_tracing_apply_frame (ct : contact_tracing) (sim sim' : Sim) (g g' : rng) :
  apply ct sim g = Ok (sim', g') →
  pars sim' = pars sim ∧ results sim' = results sim ∧ t sim' = t sim ∧
  length (people sim') = length (people sim) ∧
  ∀ i p, people sim !! i = Some p →
    ∃ p', people sim' !! i = Some p' ∧
          symptomatic p' = symptomatic p ∧ infectious p' = infectious p ∧
          diagnosed p' = diagnosed p ∧ known_contact p' = known_contact p ∧
          date_diagnosed p' = date_diagnosed p ∧
          (infectious p = false → dyn_cont_ppl p' = dyn_cont_ppl p) ∧
          (infectious p = true → ¬ Z.of_nat (t sim) < start_day ct →
           ∃ q g_i, same_but_date p q ∧
             dyn_cont_ppl p' =
               (trace_dynamic_contacts (trace_probs ct) (trace_time ct) q g_i).1) ∧
          (date_known_contact p' ≠ date_known_contact p →
           ∃ k person q g_k d,
             people sim !! k = Some person ∧ infectious person = true ∧
             date_diagnosed person = Some (Z.of_nat (t sim) - 1) ∧
             same_but_date person q ∧ traced_contacts ct q g_k !! i = Some d).
Proof.
  intros Ha. unfold apply in Ha. case_bool_decide.
  - injection Ha as <- <-. repeat (split; [done|]). intros i p Hp. exists p.
    repeat (split; [done|]). done.
  - apply bind_Ok in Ha as ([ps g1] & Hloop & [= <- <-]). simpl.
    repeat (split; [done|]).
    pose proof (@for_each_invariant _ _
                  (λ st st' : list Person * rng, people_traced_from st.1 st'.1)
                  (λ st, people_traced_from_refl st.1)
                  (λ st1 st2 st3, people_traced_from_trans st1.1 st2.1 st3.1)
                  _ _ _ _
                  (λ s1 x s2, trace_person_traced_from ct (t sim) s1 s2 x) Hloop)
      as [Hlen Hppl].
    simpl in *. split; [done|]. intros i p Hp.
    destruct (Hppl i p Hp) as (p' & Hp' & F1 & F2 & F3 & F4 & F5 & F6).
    destruct (apply_writes ct sim g ps g1 Hloop i p Hp) as (p'' & Hp'' & W1 & W2).
    assert (p'' = p') as -> by congruence.
    exists p'. repeat (split; [done|]). split; [by intros ? _; apply W1|exact W2].
Qed.

(** X15. Before its start day, and on any day on which nobody is
    infectious, [contact_tracing.apply] returns the simulation and the
    random source exactly as they were: nobody is traced and nothing is
    drawn. *)
Theorem contact_tracing_idle (ct : contact_tracing) (sim : Sim) (g : rng) :
  Z.of_nat (t sim) < start_day ct ∨
  (∀ p, p ∈ people sim → infectious p = false) →
  apply ct sim g = Ok (sim, g).
Proof.
  intros Hidle. unfold apply. case_bool_decide; [done|].
  destruct Hidle as [?|Hnone]; [done|].
  rewrite (for_each_fixed (trace_person ct (t sim))).
  - simpl. by destruct sim.
  - intros k Hk. apply elem_of_seq in Hk as [_ Hk]. simpl in Hk.
    destruct (lookup_lt_is_Some_2 _ _ Hk) as [person Hp].
    unfold trace_person, getitem. simpl. rewrite Hp. simpl.
    rewrite (Hnone person); [done|]. by apply list_elem_of_lookup_2 in Hp.
Qed.

End ContactTracingMore.

Lemma contact_tracing_apply_frame_witness :
  ∃ sim' g',
    ContactTracing.apply contact_tracing_example sim_tracing 0%nat = Ok (sim', g') ∧
    results sim' = results sim_tracing ∧ length (people sim') = 2%nat.
Proof.
  destruct (ContactTracing.apply contact_tracing_example sim_tracing 0%nat)
    as [[sim' g']|e] eqn:Ha; [|vm_compute in Ha; discriminate Ha].
  destruct (contact_tracing_apply_frame _ _ _ _ _ Ha) as (_ & Hr & _ & Hlen & _).
  exists sim', g'. split; [reflexivity|]. split; [exact Hr | exact Hlen].
Defined.

Lemma contact_tracing_idle_witness :
  (∀ p, p ∈ people sim_nobody_infectious → infectious p = false) ∧
  ContactTracing.apply contact_tracing_example sim_nobody_infectious 0%nat
    = Ok (sim_nobody_infectious, 0%nat).
Proof.
  assert (∀ p, p ∈ people sim_nobody_infectious → infectious p = false) as Hnone.
  { intros p Hp. simpl in Hp. repeat (apply elem_of_cons in Hp as [ -> |Hp]; [reflexivity|]).
    by apply elem_of_nil in Hp. }
  split; [exact Hnone|].
  exact (contact_tracing_idle contact_tracing_example sim_nobody_infectious 0%nat
           (or_intror Hnone)).
Defined.

(** ** Clustered contacts: cliques and the shape of the result *)

Section PopulationMore.
Import Population.

Lemma cliques_empty : cliques 0 ∅.
Proof.
  split; intros i j; intros; try match goal with
    | H : linked ∅ _ _ |- _ => destruct H as (s & Hs & _); by rewrite lookup_empty in Hs
    end.
Qed.

Lemma add_cluster_cliques (b len : nat) (d : gmap nat (gset nat)) :
  cliques b d → cliques (b + len) (add_cluster (seq b len) d).
Proof.
  intros [Hb Ht Hc]. split.
  - intros i j Hl. apply linked_add_cluster in Hl as [Hl|(Hi & Hj & _)].
    + destruct (Hb i j Hl). lia.
    + apply elem_of_seq in Hi, Hj. lia.
  - intros i j k Hij Hjk Hne.
    apply linked_add_cluster in Hij as [Hij|(Hi & Hj & _)];
      apply linked_add_cluster in Hjk as [Hjk|(Hj' & Hk & _)];
      apply linked_add_cluster.
    + left. by eapply Ht.
    + destruct (Hb i j Hij). apply elem_of_seq in Hj'. lia.
    + destruct (Hb j k Hjk). apply elem_of_seq in Hj. lia.
    + by right.
  - intros i j k Hij Hk.
    apply linked_add_cluster in Hij as [Hij|(Hi & Hj & _)]; apply linked_add_cluster.
    + left. by eapply Hc.
    + right. apply elem_of_seq in Hi, Hj. rewrite !elem_of_seq. lia.
Qed.

Lemma fill_clusters_cliques (pop_size n_remaining : nat) (d d' : gmap nat (gset nat))
    (draws draws' : list nat) :
  (n_remaining ≤ pop_size)%nat →
  cliques (pop_size - n_remaining) d →
  fill_clusters pop_size n_remaining d draws = Some (d', draws') →
  cliques pop_size d'.
Proof.
  revert n_remaining d. induction draws as [|drawn draws IH]; intros n d Hn Hd Hf.
  - destruct n; simpl in Hf; [|done]. injection Hf as <- <-.
    by rewrite Nat.sub_0_r in Hd.
  - destruct n as [|n]; simpl in Hf.
    { injection Hf as <- <-. by rewrite Nat.sub_0_r in Hd. }
    revert Hf. set (this := if decide (S n < drawn)%nat then S n else drawn).
    assert (this ≤ S n)%nat as Hthis by (unfold this; case_decide; lia).
    intros Hf. apply IH in Hf; [done|lia|].
    replace (pop_size - (S n - this))%nat with (pop_size - S n + this)%nat by lia.
    by apply add_cluster_cliques.
Qed.

(** An invariant of the loop over the layers, indexed by the layers still
    to be made. *)
Lemma make_layers_inv
    (Inv : list (string * Qc) → list (gmap string (list nat)) → Prop)
    (pop_size : nat) (layers : list (string * Qc))
    (cl cl' : list (gmap string (list nat))) (draws draws' : list nat) :
  (∀ layer_name cluster_size rest d cl0 cl1 draws0 draws1,
     Inv ((layer_name, cluster_size) :: rest) cl0 →
     length cl0 = pop_size →
     fill_clusters pop_size pop_size ∅ draws0 = Some (d, draws1) →
     length cl1 = pop_size →
     (∀ i, cl1 !! i =
           match d !! i with
           | Some s => <[layer_name := elements s]> <$> cl0 !! i
           | None => cl0 !! i
           end) →
     Inv rest cl1) →
  length cl = pop_size →
  Inv layers cl →
  make_layers pop_size layers cl draws = Some (Ok (cl', draws')) →
  Inv [] cl' ∧ length cl' = pop_size.
Proof.
  intros Hstep. revert cl draws.
  induction layers as [|[layer_name cluster_size] rest IH]; intros cl draws Hlen Hinv Hm.
  - simpl in Hm. by injection Hm as <- <-.
  - simpl in Hm.
    destruct (fill_clusters pop_size pop_size ∅ draws) as [[d draws1]|] eqn:Hf; [|done].
    assert (clustered pop_size d) as Hcl.
    { eapply fill_clusters_clustered; [reflexivity|apply clustered_empty|exact Hf]. }
    destruct (store_layer_Ok layer_name d cl) as (cl1 & Hs & Hlen1 & Hlook).
    { intros i s Hi. rewrite Hlen. by eapply clustered_keys. }
    rewrite Hs in Hm. apply IH in Hm; [done|congruence|].
    eapply Hstep; [exact Hinv|exact Hlen|exact Hf|congruence|exact Hlook].
Qed.

Lemma neighbors_stored_linked (pop_size : nat) (layer_name : string)
    (d : gmap nat (gset nat)) (cl cl1 : list (gmap string (list nat))) :
  clustered pop_size d → length cl = pop_size →
  (∀ i, cl1 !! i =
        match d !! i with
        | Some s => <[layer_name := elements s]> <$> cl !! i
        | None => cl !! i
        end) →
  (∀ i, neighbors cl i layer_name = []) →
  ∀ i j, j ∈ neighbors cl1 i layer_name ↔ linked d i j.
Proof.
  intros Hcl Hlen Hlook Hempty i j.
  rewrite (neighbors_stored layer_name layer_name d cl cl1 i); [|
    intros k s Hk; rewrite Hlen; by eapply clustered_keys|done].
  rewrite decide_True by done. unfold linked.
  destruct (d !! i) as [s|] eqn:Hd.
  - rewrite elem_of_elements. split; [by exists s|]. by intros (s' & [= <-] & ?).
  - rewrite Hempty. split; [by intros ?%elem_of_nil|]. by intros (s' & ? & _).
Qed.

Lemma make_layers_cliques (pop_size : nat) (layers : list (string * Qc))
    (cl cl' : list (gmap string (list nat))) (draws draws' : list nat) :
  NoDup layers.*1 →
  length cl = pop_size →
  (∀ layer i, neighbors cl i layer = []) →
  make_layers pop_size layers cl draws = Some (Ok (cl', draws')) →
  ∀ layer, layer_cliques pop_size cl' layer.
Proof.
  intros Hnd Hlen Hempty Hm.
  pose (Inv := λ (rest : list (string * Qc)) (c : list (gmap string (list nat))),
          NoDup rest.*1 ∧
          (∀ layer, layer ∈ rest.*1 → ∀ i, neighbors c i layer = []) ∧
          ∀ layer, layer_cliques pop_size c layer).
  destruct (make_layers_inv Inv pop_size layers cl cl' draws draws') as [(_ & _ & H) _];
    [|done| |done|done].
  - clear. intros layer_name cluster_size rest d cl0 cl1 draws0 draws1
      (Hnd & Hempty & Hcliq) Hlen Hf Hlen1 Hlook.
    rewrite fmap_cons in Hnd. apply NoDup_cons in Hnd as [Hnotin Hnd]. simpl in Hnotin.
    assert (clustered pop_size d) as Hcl.
    { eapply fill_clusters_clustered; [reflexivity|apply clustered_empty|exact Hf]. }
    assert (cliques pop_size d) as [Hb Ht Hc].
    { eapply fill_clusters_cliques; [reflexivity| |exact Hf].
      rewrite Nat.sub_diag. apply cliques_empty. }
    assert (∀ layer, layer ≠ layer_name → ∀ i, neighbors cl1 i layer = neighbors cl0 i layer)
      as Hother.
    { intros layer Hne i.
      rewrite (neighbors_stored layer_name layer d cl0 cl1 i); [|
        intros k s Hk; rewrite Hlen; by eapply clustered_keys|done].
      by rewrite decide_False. }
    pose proof (neighbors_stored_linked pop_size layer_name d cl0 cl1 Hcl Hlen Hlook
                  (Hempty layer_name ltac:(rewrite fmap_cons; left))) as Hnew.
    split; [done|]. split.
    + intros layer Hin i. rewrite Hother by (intros ->; done).
      apply Hempty. rewrite fmap_cons. by right.
    + intros layer. destruct (decide (layer = layer_name)) as [ -> |Hne].
      * split.
        -- intros i j Hj%Hnew. by apply Hb.
        -- intros i j k Hj%Hnew Hk%Hnew Hik. apply Hnew. by eapply Ht.
        -- intros i j k Hj%Hnew Hk. apply Hnew. by eapply Hc.
      * destruct (Hcliq layer) as [Lb Lt Lc]. split.
        -- intros i j. rewrite Hother by done. apply Lb.
        -- intros i j k. rewrite !Hother by done. apply Lt.
        -- intros i j k. rewrite !Hother by done. apply Lc.
  - split; [done|]. split; [by intros; apply Hempty|].
    intros layer. split; intros i j; intros; exfalso;
      match goal with H : _ ∈ neighbors cl _ _ |- _ =>
        rewrite Hempty in H; by apply elem_of_nil in H end.
Qed.

Lemma make_microstructured_contacts_cliques (pop_size : nat)
    (contacts : gmap string Qc) (draws draws' : list nat)
    (cl : list (gmap string (list nat))) (contact_keys : list string) :
  make_microstructured_contacts pop_size contacts draws
    = Some (Ok (cl, contact_keys, draws')) →
  ∀ layer, layer_cliques pop_size cl layer.
Proof.
  unfold make_microstructured_contacts. intros Hm.
  destruct (make_layers _ _ _ _) as [[[cl1 draws1]|e]|] eqn:Hl; [|done|done].
  injection Hm as <- _ _.
  eapply make_layers_cliques; [| | |exact Hl].
  - apply NoDup_fst_map_to_list.
  - apply length_replicate.
  - intros layer i. apply neighbors_replicate.
Qed.

(** The keys of every agent's entry. *)
Lemma make_layers_dom (D : gset string) (pop_size : nat) (layers : list (string * Qc))
    (cl cl' : list (gmap string (list nat))) (draws draws' : list nat) :
  (∀ layer, layer ∈ layers.*1 → layer ∈ D) →
  length cl = pop_size →
  (∀ i entry, cl !! i = Some entry → dom entry = D) →
  make_layers pop_size layers cl draws = Some (Ok (cl', draws')) →
  length cl' = pop_size ∧ ∀ i entry, cl' !! i = Some entry → dom entry = D.
Proof.
  intros Hin Hlen Hdom Hm.
  pose (Inv := λ (rest : list (string * Qc)) (c : list (gmap string (list nat))),
          (∀ layer, layer ∈ rest.*1 → layer ∈ D) ∧
          ∀ i entry, c !! i = Some entry → dom entry = D).
  destruct (make_layers_inv Inv pop_size layers cl cl' draws draws') as [[_ H] Hl];
    [|done| |done|done]; [|by split].
  clear. intros layer_name cluster_size rest d cl0 cl1 draws0 draws1
    [Hin Hdom] Hlen Hf Hlen1 Hlook.
  split.
  - intros layer Hl. apply Hin. rewrite fmap_cons. by right.
  - intros i entry. rewrite Hlook. destruct (d !! i) as [s|]; [|apply Hdom].
    destruct (cl0 !! i) as [entry0|] eqn:H0; simpl; [|done].
    intros [= <-]. rewrite dom_insert_L, (Hdom i entry0 H0).
    assert (layer_name ∈ D) as HD by (apply Hin; rewrite fmap_cons; left).
    apply set_eq. intros x. rewrite elem_of_union, elem_of_singleton.
    split; [by intros [ -> |?]|by right].
Qed.

(** X16. In every layer made by [make_microstructured_contacts] the
    contacts form cliques of consecutive agents: a contact of a contact is
    a contact (unless it is the agent itself), and every agent lying
    between an agent and one of its contacts is a contact of both. *)
Theorem clustered_contacts_cliques (pop_size : nat) (contacts : gmap string Qc)
    (draws draws' : list nat) (cl : list (gmap string (list nat)))
    (contact_keys : list string) :
  make_microstructured_contacts pop_size contacts draws
    = Some (Ok (cl, contact_keys, draws')) →
  ∀ layer i j k,
    j ∈ neighbors cl i layer →
    (k ∈ neighbors cl j layer → k ≠ i → k ∈ neighbors cl i layer) ∧
    ((i < k < j)%nat ∨ (j < k < i)%nat →
       k ∈ neighbors cl i layer ∧ k ∈ neighbors cl j layer).
Proof.
  intros Hm layer i j k Hj.
  destruct (make_microstructured_contacts_cliques _ _ _ _ _ _ Hm layer) as [_ Ht Hc].
  destruct (make_microstructured_contacts_ok _ _ _ _ Hm) as (cl0 & d0 & [= <- _ _] & _ & Hok).
  destruct (Hok layer) as [Hsym _ _].
  split; [intros Hk Hne; by eapply Ht|].
  assert (i ∈ neighbors cl j layer) as Hi by by apply Hsym.
  intros [Hk|Hk].
  - assert (k ∈ neighbors cl i layer) as Hki by by eapply Hc.
    split; [done|]. apply (Ht j i k); [done|done|lia].
  - assert (k ∈ neighbors cl j layer) as Hkj by by eapply Hc.
    split; [|done]. apply (Ht i j k); [done|done|lia].
Qed.

(** X17. The shape of what [make_microstructured_contacts] returns: one
    entry per agent; [contact_keys] are the keys of [contacts] other than
    ['c'], without repetition; every agent's entry has exactly these keys,
    also when the agent has no contact in a layer; and every contact is an
    agent of the population. *)
Theorem clustered_contacts_shape (pop_size : nat) (contacts : gmap string Qc)
    (draws draws' : list nat) (cl : list (gmap string (list nat)))
    (contact_keys : list string) :
  make_microstructured_contacts pop_size contacts draws
    = Some (Ok (cl, contact_keys, draws')) →
  length cl = pop_size ∧
  NoDup contact_keys ∧
  (∀ key, key ∈ contact_keys ↔ key ≠ "c" ∧ is_Some (contacts !! key)) ∧
  (∀ i entry, cl !! i = Some entry →
     ∀ key, is_Some (entry !! key) ↔ key ∈ contact_keys) ∧
  (∀ layer i j, j ∈ neighbors cl i layer → (j < pop_size)%nat).
Proof.
  intros Hm.
  pose proof (make_microstructured_contacts_cliques _ _ _ _ _ _ Hm) as Hcliq.
  unfold make_microstructured_contacts in Hm.
  destruct (make_layers _ _ _ _) as [[[cl1 draws1]|e]|] eqn:Hl; [|done|done].
  injection Hm as <- <- _.
  assert (∀ key, key ∈ (map_to_list (delete "c" contacts)).*1
                 ↔ key ∈ dom (delete "c" contacts)) as Hkeys.
  { intros key. rewrite elem_of_dom, list_elem_of_fmap. split.
    - intros ([k v] & -> & Hin). apply elem_of_map_to_list in Hin. by exists v.
    - intros [v Hv]. exists (key, v). split; [done|]. by apply elem_of_map_to_list. }
  destruct (make_layers_dom (dom (delete "c" contacts)) _ _ _ _ _ _
              (λ layer, proj1 (Hkeys layer))
              (length_replicate _ _) ltac:(intros i entry [-> _]%lookup_replicate;
                                           apply dom_fmap_L) Hl) as [Hlen Hdom].
  split; [done|]. split; [apply NoDup_fst_map_to_list|].
  split; [|split].
  - intros key. rewrite Hkeys, elem_of_dom, lookup_delete_is_Some.
    split; intros [Hne Hsome]; (split; [congruence|exact Hsome]).
  - intros i entry Hi key. rewrite Hkeys, <- (Hdom i entry Hi). by rewrite elem_of_dom.
  - intros layer i j Hj. by destruct (layer_bound _ _ _ (Hcliq layer) i j Hj).
Qed.

End PopulationMore.

Lemma clustered_contacts_cliques_witness :
  ∃ cl contact_keys draws',
    Population.make_microstructured_contacts 5 contacts_example draws_example
      = Some (Ok (cl, contact_keys, draws')) ∧
    (1%nat ∈ Population.neighbors cl 0 "h" ∧ 1%nat ∈ Population.neighbors cl 2 "h").
Proof.
  destruct (Population.make_microstructured_contacts 5 contacts_example draws_example)
    as [[[[cl contact_keys] draws']|e]|] eqn:Hm;
    [|vm_compute in Hm; discriminate Hm|vm_compute in Hm; discriminate Hm].
  exists cl, contact_keys, draws'. split; [reflexivity|].
  assert (2%nat ∈ Population.neighbors cl 0 "h") as H2.
  { vm_compute in Hm. injection Hm as <- _ _. vm_compute. left. }
  apply (proj2 (clustered_contacts_cliques _ _ _ _ _ _ Hm "h" 0%nat 2%nat 1%nat H2)).
  left. lia.
Defined.

Lemma clustered_contacts_shape_witness :
  ∃ cl contact_keys draws',
    Population.make_microstructured_contacts 5 contacts_example draws_example
      = Some (Ok (cl, contact_keys, draws')) ∧
    length cl = 5%nat ∧ NoDup contact_keys.
Proof.
  destruct (Population.make_microstructured_contacts 5 contacts_example draws_example)
    as [[[[cl contact_keys] draws']|e]|] eqn:Hm;
    [|vm_compute in Hm; discriminate Hm|vm_compute in Hm; discriminate Hm].
  exists cl, contact_keys, draws'. split; [reflexivity|].
  destruct (clustered_contacts_shape _ _ _ _ _ _ Hm) as (Hlen & Hnd & _).
  split; [exact Hlen|exact Hnd].
Defined.

(** ** [make_realistic_contacts] *)

Lemma findinds_mask_from_spec (i : nat) (mask : list bool) (k : nat) :
  k ∈ findinds_mask_from i mask ↔ (i ≤ k)%nat ∧ mask !! (k - i)%nat = Some true.
Proof.
  revert i. induction mask as [|b mask IH]; intros i; simpl.
  - rewrite elem_of_nil. split; [done|]. by intros [_ ?].
  - destruct b.
    + rewrite elem_of_cons, IH. split.
      * intros [ -> |[Hle Hl]]; [split; [lia|by rewrite Nat.sub_diag]|].
        split; [lia|]. by replace (k - i)%nat with (S (k - S i)) by lia.
      * intros [Hle Hl]. destruct (decide (k = i)) as [ -> |Hne]; [by left|].
        right. split; [lia|]. by replace (k - i)%nat with (S (k - S i)) in Hl by lia.
    + rewrite IH. split.
      * intros [Hle Hl]. split; [lia|].
        by replace (k - i)%nat with (S (k - S i)) by lia.
      * intros [Hle Hl]. destruct (decide (k = i)) as [ -> |Hne].
        { by rewrite Nat.sub_diag in Hl. }
        split; [lia|]. by replace (k - i)%nat with (S (k - S i)) in Hl by lia.
Qed.

Lemma findinds_mask_spec (mask : list bool) (k : nat) :
  k ∈ findinds_mask mask ↔ mask !! k = Some true.
Proof.
  unfold findinds_mask. rewrite findinds_mask_from_spec, Nat.sub_0_r.
  split; [by intros [_ ?]|]. split; [lia|done].
Qed.

Lemma findinds_mask_from_NoDup (i : nat) (mask : list bool) :
  NoDup (findinds_mask_from i mask).
Proof.
  revert i. induction mask as [|b mask IH]; intros i; simpl; [constructor|].
  destruct b; [|apply IH]. constructor; [|apply IH].
  rewrite findinds_mask_from_spec. lia.
Qed.

Section RealisticFacts.
Import Population Realistic.

Lemma elem_of_enumerate (inds : list nat) (i ind : nat) :
  (i, ind) ∈ enumerate inds ↔ inds !! i = Some ind.
Proof.
  unfold enumerate. rewrite elem_of_lookup_imap. split.
  - by intros (i' & y & [= -> ->] & ?).
  - intros H. by exists i, ind.
Qed.

Lemma imap_pair_targets (inds : list nat) (g : nat → nat) :
  (imap (λ i ind, (g i, ind)) inds).*2 = inds.
Proof.
  revert g. induction inds as [|x l IH]; intros g; simpl; [done|].
  f_equal. apply (IH (g ∘ S)).
Qed.

Lemma enumerate_targets (inds : list nat) : (enumerate inds).*2 = inds.
Proof. apply (imap_pair_targets inds id). Qed.

(** The loop that copies one layer from [source] into the contact list. *)
Lemma copy_layer_loop (key : string) (source : list (gmap string (list nat)))
    (pairs : list (nat * nat)) (cl cl' : list (gmap string (list nat))) :
  NoDup pairs.*2 →
  for_each (copy_layer key source) pairs cl = Ok cl' →
  length cl' = length cl ∧
  (∀ k, k ∉ pairs.*2 → cl' !! k = cl !! k) ∧
  (∀ i ind, (i, ind) ∈ pairs →
     ∃ e v entry, source !! i = Some e ∧ e !! key = Some v ∧
                  cl !! ind = Some entry ∧ cl' !! ind = Some (<[key := v]> entry)).
Proof.
  revert cl. induction pairs as [|[i ind] pairs IH]; intros cl Hnd Hloop.
  - simpl in Hloop. injection Hloop as <-. split; [done|]. split; [done|].
    by intros i ind ?%elem_of_nil.
  - rewrite fmap_cons in Hnd. apply NoDup_cons in Hnd as [Hnotin Hnd]. simpl in Hnotin.
    cbn [for_each] in Hloop. apply bind_Ok in Hloop as (cl1 & Hbody & Hloop).
    unfold copy_layer, getitem, dict_getitem in Hbody. cbn [fst snd] in Hbody.
    destruct (source !! i) as [e|] eqn:He; [|done]. simpl in Hbody.
    destruct (e !! key) as [v|] eqn:Hv; [|done]. simpl in Hbody.
    destruct (cl !! ind) as [entry|] eqn:Hentry; [|done]. simpl in Hbody.
    injection Hbody as <-.
    destruct (IH _ Hnd Hloop) as (Hlen & Hother & Hpairs).
    rewrite length_insert in Hlen. split; [done|]. split.
    + intros k Hk. rewrite fmap_cons, not_elem_of_cons in Hk. destruct Hk as [Hne Hk].
      simpl in Hne. rewrite Hother by done. by rewrite list_lookup_insert_ne.
    + intros i' ind' [[= -> ->]|Hin]%elem_of_cons.
      * exists e, v, entry. repeat (split; [done|]). rewrite Hother by done.
        apply list_lookup_insert_eq. by apply lookup_lt_Some in Hentry.
      * destruct (Hpairs i' ind' Hin) as (e' & v' & entry' & He' & Hv' & Hentry' & Hcl').
        assert (ind' ≠ ind) as Hne.
        { intros ->. apply Hnotin. apply list_elem_of_fmap. by exists (i', ind). }
        rewrite list_lookup_insert_ne in Hentry' by done.
        by exists e', v', entry'.
Qed.

(** The same loop returns when its sources and targets exist. *)
Lemma copy_layer_loop_Ok (key : string) (source : list (gmap string (list nat)))
    (pairs : list (nat * nat)) (cl : list (gmap string (list nat))) :
  (∀ i ind, (i, ind) ∈ pairs →
     (ind < length cl)%nat ∧ ∃ e, source !! i = Some e ∧ is_Some (e !! key)) →
  ∃ cl', for_each (copy_layer key source) pairs cl = Ok cl'.
Proof.
  intros Hpairs.
  destruct (for_each_total (λ c, length c = length cl) (copy_layer key source) pairs cl)
    as (cl' & Hloop & _); [|done|by exists cl'].
  intros c [i ind] Hin Hlen.
  destruct (Hpairs i ind Hin) as (Hlt & e & He & [v Hv]).
  rewrite <- Hlen in Hlt. destruct (lookup_lt_is_Some_2 _ _ Hlt) as [entry Hentry].
  exists (<[ind := <[key := v]> entry]> c). split; [|by rewrite length_insert].
  unfold copy_layer, getitem, dict_getitem. cbn [fst snd].
  rewrite He. simpl. rewrite Hv. simpl. by rewrite Hentry.
Qed.

Lemma copy_layer_loop_cases (key : string) (source : list (gmap string (list nat)))
    (pairs : list (nat * nat)) (cl cl' : list (gmap string (list nat))) (k : nat) :
  NoDup pairs.*2 →
  for_each (copy_layer key source) pairs cl = Ok cl' →
  cl' !! k = cl !! k ∨
  ∃ v entry, cl !! k = Some entry ∧ cl' !! k = Some (<[key := v]> entry).
Proof.
  intros Hnd Hloop. destruct (copy_layer_loop _ _ _ _ _ Hnd Hloop) as (_ & Hother & Hpairs).
  destruct (decide (k ∈ pairs.*2)) as [Hin|Hnotin]; [|left; by apply Hother].
  apply list_elem_of_fmap in Hin as ([i ind] & -> & Hin).
  destruct (Hpairs i ind Hin) as (e & v & entry & _ & _ & Hentry & Hcl').
  right. by exists v, entry.
Qed.

Lemma copy_layer_loop_keys (key : string) (source : list (gmap string (list nat)))
    (pairs : list (nat * nat)) (cl cl' : list (gmap string (list nat))) :
  NoDup pairs.*2 → key ∈ contact_keys →
  for_each (copy_layer key source) pairs cl = Ok cl' →
  (∀ k entry, cl !! k = Some entry →
     ∀ key', is_Some (entry !! key') ↔ key' ∈ contact_keys) →
  ∀ k entry, cl' !! k = Some entry →
    ∀ key', is_Some (entry !! key') ↔ key' ∈ contact_keys.
Proof.
  intros Hnd Hkey Hloop Hkeys k entry Hk key'.
  destruct (copy_layer_loop_cases key source pairs cl cl' k Hnd Hloop)
    as [Heq|(v & entry0 & Hentry0 & Hcl')].
  - rewrite Heq in Hk. by apply (Hkeys k).
  - rewrite Hcl' in Hk. injection Hk as <-.
    rewrite lookup_insert_is_Some, (Hkeys k entry0 Hentry0 key').
    split; [intros [ <- |[_ ?]]; done|]. intros Hin.
    destruct (decide (key = key')); [by left|by right].
Qed.

Lemma copy_layer_loop_other (key key' : string) (source : list (gmap string (list nat)))
    (pairs : list (nat * nat)) (cl cl' : list (gmap string (list nat))) (k : nat) :
  NoDup pairs.*2 → key' ≠ key →
  for_each (copy_layer key source) pairs cl = Ok cl' →
  neighbors cl' k key' = neighbors cl k key'.
Proof.
  intros Hnd Hne Hloop. unfold neighbors.
  destruct (copy_layer_loop_cases key source pairs cl cl' k Hnd Hloop)
    as [Heq|(v & entry0 & Hentry0 & Hcl')].
  - by rewrite Heq.
  - rewrite Hcl', Hentry0. by rewrite lookup_insert_ne.
Qed.

Lemma copy_layer_loop_untouched (key key' : string)
    (source : list (gmap string (list nat)))
    (pairs : list (nat * nat)) (cl cl' : list (gmap string (list nat))) (k : nat) :
  NoDup pairs.*2 → k ∉ pairs.*2 →
  for_each (copy_layer key source) pairs cl = Ok cl' →
  neighbors cl' k key' = neighbors cl k key'.
Proof.
  intros Hnd Hk Hloop. unfold neighbors.
  destruct (copy_layer_loop _ _ _ _ _ Hnd Hloop) as (_ & Hother & _).
  by rewrite Hother.
Qed.

Lemma copy_layer_loop_target (key : string) (source : list (gmap string (list nat)))
    (pairs : list (nat * nat)) (cl cl' : list (gmap string (list nat))) (i ind : nat) :
  NoDup pairs.*2 → (i, ind) ∈ pairs →
  for_each (copy_layer key source) pairs cl = Ok cl' →
  ∃ e v, source !! i = Some e ∧ e !! key = Some v ∧ neighbors cl' ind key = v.
Proof.
  intros Hnd Hin Hloop.
  destruct (copy_layer_loop _ _ _ _ _ Hnd Hloop) as (_ & _ & Hpairs).
  destruct (Hpairs i ind Hin) as (e & v & entry & He & Hv & _ & Hcl').
  exists e, v. repeat (split; [done|]). unfold neighbors.
  by rewrite Hcl', lookup_insert_eq.
Qed.

Lemma random_contacts_lookup (n : nat) (key : string) (q : Qc)
    (chosen : nat → string → list nat) (i : nat) (e : gmap string (list nat)) :
  key ≠ "c" →
  (make_random_contacts n (<[key := q]> ∅) chosen).1 !! i = Some e →
  (i < n)%nat ∧ e !! key = Some (chosen i key).
Proof.
  intros Hne. unfold make_random_contacts. cbn [fst].
  rewrite list_lookup_fmap. intros He.
  destruct (seq 0 n !! i) as [p|] eqn:Hp; [|done].
  apply lookup_seq in Hp as [-> Hlt]. simpl in He. injection He as <-.
  split; [done|].
  rewrite map_lookup_imap, lookup_delete_ne by done. by rewrite lookup_insert_eq.
Qed.

Lemma length_random_contacts (n : nat) (contacts : gmap string Qc)
    (chosen : nat → string → list nat) :
  length (make_random_contacts n contacts chosen).1 = n.
Proof. unfold make_random_contacts. cbn [fst]. by rewrite length_fmap, length_seq. Qed.

Lemma age_inds_NoDup (ages band : list Qc) (inds : list nat) :
  age_inds ages band = Ok inds → NoDup inds.
Proof.
  unfold age_inds. intros H.
  apply bind_Ok in H as (lo & _ & H). apply bind_Ok in H as (hi & _ & [= <-]).
  apply findinds_mask_from_NoDup.
Qed.

Lemma neighbors_empty_entries (pop_size k : nat) (key : string) :
  neighbors (replicate pop_size empty_entry) k key = [].
Proof.
  unfold neighbors. destruct (replicate pop_size empty_entry !! k) as [e|] eqn:He; [|done].
  apply lookup_replicate in He as [-> _]. unfold empty_entry.
  destruct (decide (key = "h")) as [ -> |?]; [by rewrite lookup_insert_eq|].
  rewrite lookup_insert_ne by done.
  destruct (decide (key = "s")) as [ -> |?]; [by rewrite lookup_insert_eq|].
  rewrite lookup_insert_ne by done.
  destruct (decide (key = "w")) as [ -> |?]; [by rewrite lookup_insert_eq|].
  rewrite lookup_insert_ne by done. by rewrite lookup_empty.
Qed.

Lemma empty_entry_keys (key : string) :
  is_Some (empty_entry !! key) ↔ key ∈ contact_keys.
Proof.
  unfold empty_entry, contact_keys.
  rewrite !lookup_insert_is_Some, lookup_empty, !elem_of_cons, elem_of_nil.
  split.
  - intros [ <- |[_ [ <- |[_ [ <- |[_ [? ?]]]]]]]; auto; done.
  - intros [ -> |[ -> |[ -> |[]]]]; [by left| |].
    + right. split; [done|]. by left.
    + right. split; [done|]. right. split; [done|]. by left.
Qed.

(** What [assemble] returns, when it returns. *)
Lemma assemble_facts (pop_size : nat) (ages : list Qc) (contacts : gmap string Qc)
    (school_ages work_ages : list Qc) (h_contacts : list (gmap string (list nat)))
    (chosen_s chosen_w : nat → string → list nat)
    (cl : list (gmap string (list nat))) (keys : list string) :
  length h_contacts = pop_size →
  assemble pop_size ages contacts school_ages work_ages h_contacts chosen_s chosen_w
    = Ok (cl, keys) →
  ∃ s_inds w_inds,
    age_inds ages school_ages = Ok s_inds ∧ age_inds ages work_ages = Ok w_inds ∧
    keys = contact_keys ∧ length cl = pop_size ∧
    (∀ k entry, cl !! k = Some entry →
       ∀ key, is_Some (entry !! key) ↔ key ∈ contact_keys) ∧
    (∀ k, neighbors cl k "h" = neighbors h_contacts k "h") ∧
    (∀ i ind, s_inds !! i = Some ind → neighbors cl ind "s" = chosen_s i "s") ∧
    (∀ k, k ∉ s_inds → neighbors cl k "s" = []) ∧
    (∀ i ind, w_inds !! i = Some ind → neighbors cl ind "w" = chosen_w i "w") ∧
    (∀ k, k ∉ w_inds → neighbors cl k "w" = []).
Proof.
  intros Hlenh Ha. unfold assemble in Ha.
  apply bind_Ok in Ha as (s_inds & Hs_inds & Ha).
  apply bind_Ok in Ha as (w_inds & Hw_inds & Ha).
  apply bind_Ok in Ha as (s & Hs & Ha).
  apply bind_Ok in Ha as (w & Hw & Ha).
  apply bind_Ok in Ha as (cl1 & H1 & Ha).
  apply bind_Ok in Ha as (cl2 & H2 & Ha).
  apply bind_Ok in Ha as (cl3 & H3 & [= <- <-]).
  assert (((λ i : nat, (i, i)) <$> seq 0 pop_size).*2 = seq 0 pop_size) as Htargets.
  { rewrite <- list_fmap_compose. apply list_fmap_id. }
  assert (NoDup ((λ i : nat, (i, i)) <$> seq 0 pop_size).*2) as Hnd1
    by (rewrite Htargets; apply NoDup_seq).
  assert (NoDup (enumerate s_inds).*2) as Hnd2
    by (rewrite enumerate_targets; by eapply age_inds_NoDup).
  assert (NoDup (enumerate w_inds).*2) as Hnd3
    by (rewrite enumerate_targets; by eapply age_inds_NoDup).
  assert ("h" ∈ contact_keys) as Hh by (unfold contact_keys; left).
  assert ("s" ∈ contact_keys) as Hsk by (unfold contact_keys; right; left).
  assert ("w" ∈ contact_keys) as Hwk by (unfold contact_keys; right; right; left).
  exists s_inds, w_inds. repeat (split; [done|]).
  split; [|split; [|split; [|split; [|split; [|split]]]]].
  - destruct (copy_layer_loop _ _ _ _ _ Hnd1 H1) as (L1 & _ & _).
    destruct (copy_layer_loop _ _ _ _ _ Hnd2 H2) as (L2 & _ & _).
    destruct (copy_layer_loop _ _ _ _ _ Hnd3 H3) as (L3 & _ & _).
    rewrite L3, L2, L1. apply length_replicate.
  - eapply (copy_layer_loop_keys "w"); [exact Hnd3|done|exact H3|].
    eapply (copy_layer_loop_keys "s"); [exact Hnd2|done|exact H2|].
    eapply (copy_layer_loop_keys "h"); [exact Hnd1|done|exact H1|].
    intros k entry [-> _]%lookup_replicate key. apply empty_entry_keys.
  - intros k.
    rewrite (copy_layer_loop_other "w" "h" _ _ _ _ k Hnd3 ltac:(done) H3).
    rewrite (copy_layer_loop_other "s" "h" _ _ _ _ k Hnd2 ltac:(done) H2).
    destruct (decide (k < pop_size)%nat) as [Hlt|Hge].
    + destruct (copy_layer_loop_target "h" h_contacts _ _ _ k k Hnd1
                  ltac:(apply list_elem_of_fmap; exists k; split; [done|];
                        apply elem_of_seq; lia) H1)
        as (e & v & He & Hv & ->).
      unfold neighbors. by rewrite He, Hv.
    + rewrite (copy_layer_loop_untouched "h" "h" _ _ _ _ k Hnd1
                 ltac:(rewrite Htargets, elem_of_seq; lia) H1).
      rewrite neighbors_empty_entries. unfold neighbors.
      by rewrite (lookup_ge_None_2 h_contacts k) by lia.
  - intros i ind Hi.
    rewrite (copy_layer_loop_other "w" "s" _ _ _ _ ind Hnd3 ltac:(done) H3).
    destruct (copy_layer_loop_target "s" _ _ _ _ i ind Hnd2
                (proj2 (elem_of_enumerate s_inds i ind) Hi) H2)
      as (e & v & He & Hv & ->).
    apply random_contacts_lookup in He as [_ He]; [|done]. congruence.
  - intros k Hk.
    rewrite (copy_layer_loop_other "w" "s" _ _ _ _ k Hnd3 ltac:(done) H3).
    rewrite (copy_layer_loop_untouched "s" "s" _ _ _ _ k Hnd2
               ltac:(by rewrite enumerate_targets) H2).
    rewrite (copy_layer_loop_other "h" "s" _ _ _ _ k Hnd1 ltac:(done) H1).
    apply neighbors_empty_entries.
  - intros i ind Hi.
    destruct (copy_layer_loop_target "w" _ _ _ _ i ind Hnd3
                (proj2 (elem_of_enumerate w_inds i ind) Hi) H3)
      as (e & v & He & Hv & ->).
    apply random_contacts_lookup in He as [_ He]; [|done]. congruence.
  - intros k Hk.
    rewrite (copy_layer_loop_untouched "w" "w" _ _ _ _ k Hnd3
               ltac:(by rewrite enumerate_targets) H3).
    rewrite (copy_layer_loop_other "s" "w" _ _ _ _ k Hnd2 ltac:(done) H2).
    rewrite (copy_layer_loop_other "h" "w" _ _ _ _ k Hnd1 ltac:(done) H1).
    apply neighbors_empty_entries.
Qed.

Lemma make_microstructured_contacts_keys (pop_size : nat) (contacts : gmap string Qc)
    (draws draws' : list nat) (cl : list (gmap string (list nat)))
    (keys : list string) :
  make_microstructured_contacts pop_size contacts draws = Some (Ok (cl, keys, draws')) →
  ∀ i entry, cl !! i = Some entry →
    ∀ key, is_Some (entry !! key) ↔ key ≠ "c" ∧ is_Some (contacts !! key).
Proof.
  unfold make_microstructured_contacts. intros Hm.
  destruct (make_layers _ _ _ _) as [[[cl1 draws1]|e]|] eqn:Hl; [|done|done].
  injection Hm as <- _ _.
  assert (∀ key, key ∈ (map_to_list (delete "c" contacts)).*1
                 → key ∈ dom (delete "c" contacts)) as Hkeys.
  { intros key. rewrite elem_of_dom, list_elem_of_fmap.
    intros ([k v] & -> & Hin). apply elem_of_map_to_list in Hin. by exists v. }
  assert (∀ i entry, replicate pop_size ((λ _ : Qc, @nil nat) <$> delete "c" contacts) !! i
                       = Some entry → dom entry = dom (delete "c" contacts)) as Hinit.
  { intros i entry [-> _]%lookup_replicate. apply dom_fmap_L. }
  destruct (make_layers_dom (dom (delete "c" contacts)) _ _ _ _ _ _
              Hkeys (length_replicate _ _) Hinit Hl) as [_ Hdom].
  intros i entry Hi key.
  rewrite <- elem_of_dom, (Hdom i entry Hi), elem_of_dom, lookup_delete_is_Some.
  split; intros [Hne Hsome]; (split; [congruence|exact Hsome]).
Qed.

Lemma age_inds_spec (ages band : list Qc) (inds : list nat) :
  age_inds ages band = Ok inds →
  ∃ lo hi, band !! 0%nat = Some lo ∧ band !! 1%nat = Some hi ∧
    ∀ k, k ∈ inds ↔ ∃ age, ages !! k = Some age ∧ (lo ≤ age)%Qc ∧ (age < hi)%Qc.
Proof.
  unfold age_inds. intros H.
  apply bind_Ok in H as (lo & Hlo & H). apply bind_Ok in H as (hi & Hhi & [= <-]).
  apply getitem_Ok in Hlo. apply getitem_Ok in Hhi.
  exists lo, hi. repeat (split; [done|]). intros k.
  rewrite findinds_mask_spec. unfold age_mask. rewrite list_lookup_fmap.
  destruct (ages !! k) as [age|]; simpl.
  - split.
    + intros [= [Hle Hlt]%andb_prop]. exists age.
      apply bool_decide_eq_true in Hle, Hlt. done.
    + intros (age' & [= <-] & Hle & Hlt).
      by rewrite !bool_decide_eq_true_2.
  - split; [done|]. by intros (? & ? & _).
Qed.

Lemma age_inds_Ok (ages band : list Qc) :
  (2 ≤ length band)%nat → ∃ inds, age_inds ages band = Ok inds.
Proof.
  intros Hlen. destruct band as [|lo [|hi rest]]; simpl in Hlen; [lia|lia|].
  by eexists.
Qed.

Lemma age_inds_lt (ages band : list Qc) (inds : list nat) (k : nat) :
  age_inds ages band = Ok inds → k ∈ inds → (k < length ages)%nat.
Proof.
  intros Ha Hk. destruct (age_inds_spec _ _ _ Ha) as (lo & hi & Hlo & Hhi & Hspec).
  destruct (proj1 (Hspec k) Hk) as (age & Hage & _). by apply lookup_lt_Some in Hage.
Qed.

Lemma mergedicts_essential (contacts : gmap string Qc) (key : string) :
  key ∈ contact_keys → ∃ q, dict_getitem (mergedicts contacts) key = Ok q.
Proof.
  intros Hkey. unfold dict_getitem, mergedicts.
  assert (is_Some ((contacts ∪ essential) !! key)) as [q ->]; [|by exists q].
  apply lookup_union_is_Some. right. unfold essential, contact_keys in *.
  rewrite !lookup_insert_is_Some.
  destruct (decide ("h" = key)) as [|Hh]; [by left|right; split; [done|]].
  destruct (decide ("s" = key)) as [|Hs]; [by left|right; split; [done|]].
  destruct (decide ("w" = key)) as [|Hw]; [by left|].
  exfalso. repeat (apply elem_of_cons in Hkey as [ -> |Hkey]; [done|]).
  by apply elem_of_nil in Hkey.
Qed.

Lemma assemble_Ok (pop_size : nat) (ages : list Qc) (contacts : gmap string Qc)
    (school_ages work_ages : list Qc) (h_contacts : list (gmap string (list nat)))
    (chosen_s chosen_w : nat → string → list nat) :
  length h_contacts = pop_size →
  (∀ i entry, h_contacts !! i = Some entry → is_Some (entry !! "h")) →
  (length ages ≤ pop_size)%nat →
  (2 ≤ length school_ages)%nat → (2 ≤ length work_ages)%nat →
  is_Some (contacts !! "s") → is_Some (contacts !! "w") →
  ∃ cl, assemble pop_size ages contacts school_ages work_ages h_contacts
          chosen_s chosen_w = Ok (cl, contact_keys).
Proof.
  intros Hlenh Hkeysh Hages Hsb Hwb [s Hs] [w Hw]. unfold assemble.
  destruct (age_inds_Ok ages school_ages Hsb) as [s_inds Hs_inds].
  destruct (age_inds_Ok ages work_ages Hwb) as [w_inds Hw_inds].
  rewrite Hs_inds, Hw_inds. cbn [mbind res_bind].
  unfold dict_getitem. rewrite Hs, Hw. cbn [mbind res_bind].
  destruct (copy_layer_loop_Ok "h" h_contacts ((λ i : nat, (i, i)) <$> seq 0 pop_size)
              (replicate pop_size empty_entry)) as [cl1 H1].
  { intros i ind (k & [= -> ->] & Hk%elem_of_seq)%list_elem_of_fmap.
    rewrite length_replicate. split; [lia|].
    destruct (lookup_lt_is_Some_2 h_contacts k) as [e He]; [lia|].
    exists e. split; [done|]. by eapply Hkeysh. }
  rewrite H1. cbn [mbind res_bind].
  assert (((λ i : nat, (i, i)) <$> seq 0 pop_size).*2 = seq 0 pop_size) as Htargets.
  { rewrite <- list_fmap_compose. apply list_fmap_id. }
  assert (NoDup ((λ i : nat, (i, i)) <$> seq 0 pop_size).*2) as Hnd1
    by (rewrite Htargets; apply NoDup_seq).
  destruct (copy_layer_loop _ _ _ _ _ Hnd1 H1) as (L1 & _ & _).
  rewrite length_replicate in L1.
  assert (∀ (key : string) (q : Qc) chosen inds (c : list (gmap string (list nat))),
            key ≠ "c" → length c = pop_size →
            (∀ k, k ∈ inds → (k < length ages)%nat) →
            ∃ c', for_each (copy_layer key
                    (make_random_contacts (length inds) (<[key := q]> ∅) chosen).1)
                    (enumerate inds) c = Ok c') as Hloop.
  { intros key q chosen inds c Hne Hc Hlt. apply copy_layer_loop_Ok.
    intros i ind Hi%elem_of_enumerate. split.
    - rewrite Hc. pose proof (Hlt ind (list_elem_of_lookup_2 _ _ _ Hi)). lia.
    - apply lookup_lt_Some in Hi.
      destruct (lookup_lt_is_Some_2
                  (make_random_contacts (length inds) (<[key := q]> ∅) chosen).1 i)
        as [e He]; [by rewrite length_random_contacts|].
      exists e. split; [done|].
      apply random_contacts_lookup in He as [_ ->]; done. }
  destruct (Hloop "s" s chosen_s s_inds cl1 ltac:(done) L1
              (λ k, age_inds_lt _ _ _ k Hs_inds)) as [cl2 H2].
  rewrite H2. cbn [mbind res_bind].
  assert (NoDup (enumerate s_inds).*2) as Hnd2
    by (rewrite enumerate_targets; by eapply age_inds_NoDup).
  destruct (copy_layer_loop _ _ _ _ _ Hnd2 H2) as (L2 & _ & _).
  destruct (Hloop "w" w chosen_w w_inds cl2 ltac:(done) ltac:(congruence)
              (λ k, age_inds_lt _ _ _ k Hw_inds)) as [cl3 H3].
  rewrite H3. cbn [mbind res_bind]. by exists cl3.
Qed.

(** What [make_realistic_contacts] returns, when it returns. *)
Lemma make_realistic_contacts_facts (pop_size : nat) (ages : list Qc)
    (contacts : gmap string Qc) (school_ages work_ages : option (list Qc))
    (draws : list nat) (chosen_s chosen_w : nat → string → list nat)
    (cl : list (gmap string (list nat))) (keys : list string) :
  make_realistic_contacts pop_size ages contacts school_ages work_ages draws
    chosen_s chosen_w = Some (Ok (cl, keys)) →
  ∃ s_inds w_inds,
    age_inds ages (default default_school_ages school_ages) = Ok s_inds ∧
    age_inds ages (default default_work_ages work_ages) = Ok w_inds ∧
    keys = contact_keys ∧ length cl = pop_size ∧
    (∀ k entry, cl !! k = Some entry →
       ∀ key, is_Some (entry !! key) ↔ key ∈ contact_keys) ∧
    layer_ok cl "h" ∧ layer_cliques pop_size cl "h" ∧
    (∀ i ind, s_inds !! i = Some ind → neighbors cl ind "s" = chosen_s i "s") ∧
    (∀ k, k ∉ s_inds → neighbors cl k "s" = []) ∧
    (∀ i ind, w_inds !! i = Some ind → neighbors cl ind "w" = chosen_w i "w") ∧
    (∀ k, k ∉ w_inds → neighbors cl k "w" = []).
Proof.
  unfold make_realistic_contacts. intros Hm.
  destruct (dict_getitem (mergedicts contacts) "h") as [h|e]; [|done].
  destruct (make_microstructured_contacts pop_size (<["h":=h]> ∅) draws)
    as [[[[h_contacts hkeys] draws']|e]|] eqn:Hh; [|done|done].
  injection Hm as Hm.
  destruct (make_microstructured_contacts_ok _ _ _ _ Hh)
    as (cl0 & d0 & [= <- _ _] & Hlenh & Hok).
  pose proof (make_microstructured_contacts_cliques _ _ _ _ _ _ Hh "h") as [Cb Ct Cc].
  destruct (Hok "h") as [Os On Od].
  destruct (assemble_facts _ _ _ _ _ _ _ _ _ _ Hlenh Hm)
    as (s_inds & w_inds & Hs & Hw & -> & Hlen & Hkeys & Hhh & Hrest).
  exists s_inds, w_inds. repeat (split; [done|]).
  split; [|split; [|exact Hrest]].
  - split.
    + intros i j. rewrite !Hhh. apply Os.
    + intros i. rewrite Hhh. apply On.
    + intros i. rewrite Hhh. apply Od.
  - split.
    + intros i j. rewrite Hhh. apply Cb.
    + intros i j k. rewrite !Hhh. apply Ct.
    + intros i j k. rewrite !Hhh. apply Cc.
Qed.

Lemma make_realistic_contacts_returns (pop_size : nat) (ages : list Qc)
    (contacts : gmap string Qc) (school_ages work_ages : option (list Qc))
    (draws : list nat) (chosen_s chosen_w : nat → string → list nat) :
  (length ages ≤ pop_size)%nat →
  (2 ≤ length (default default_school_ages school_ages))%nat →
  (2 ≤ length (default default_work_ages work_ages))%nat →
  Forall (λ drawn, (0 < drawn)%nat) draws →
  (pop_size ≤ length draws)%nat →
  ∃ cl, make_realistic_contacts pop_size ages contacts school_ages work_ages draws
          chosen_s chosen_w = Some (Ok (cl, contact_keys)).
Proof.
  intros Hages Hsb Hwb Hpos Hdraws. unfold make_realistic_contacts.
  destruct (mergedicts_essential contacts "h") as [h ->]; [unfold contact_keys; left|].
  destruct (make_microstructured_contacts_returns pop_size (<["h":=h]> ∅) draws Hpos)
    as (h_contacts & draws' & Hh & Hlenh).
  { rewrite delete_insert_ne, delete_empty by done.
    rewrite insert_empty, map_size_singleton. lia. }
  rewrite Hh.
  destruct (assemble_Ok pop_size ages (mergedicts contacts)
              (default default_school_ages school_ages)
              (default default_work_ages work_ages) h_contacts chosen_s chosen_w)
    as [cl Hcl]; try done.
  - intros i entry Hi.
    apply (make_microstructured_contacts_keys _ _ _ _ _ _ Hh i entry Hi "h").
    split; [done|]. by rewrite lookup_insert_eq.
  - destruct (mergedicts_essential contacts "s") as [q Hq];
      [unfold contact_keys; right; left|].
    unfold dict_getitem in Hq. by destruct (mergedicts contacts !! "s").
  - destruct (mergedicts_essential contacts "w") as [q Hq];
      [unfold contact_keys; right; right; left|].
    unfold dict_getitem in Hq. by destruct (mergedicts contacts !! "w").
  - exists cl. by rewrite Hcl.
Qed.

(** X18. [make_realistic_contacts] always answers with the keys
    [['h', 's', 'w']], whatever the keys of [contacts]: every agent's entry
    has exactly these three keys.  The household layer is a clustered
    layer: symmetric, without self-contacts or repeated contacts, and
    within the population.  The school list of the [i]-th school-age agent
    is what [choose] returned for position [i] of the school-age group,
    and agents outside the group have an empty school list; likewise for
    work.  The call returns when there are no more ages than agents, both
    bands have two bounds and enough positive cluster sizes are drawn. *)
Theorem realistic_contacts_layers (pop_size : nat) (ages : list Qc)
    (contacts : gmap string Qc) (school_ages work_ages : option (list Qc))
    (draws : list nat) (chosen_s chosen_w : nat → string → list nat) :
  ((length ages ≤ pop_size)%nat →
   (2 ≤ length (default default_school_ages school_ages))%nat →
   (2 ≤ length (default default_work_ages work_ages))%nat →
   Forall (λ drawn, (0 < drawn)%nat) draws →
   (pop_size ≤ length draws)%nat →
   ∃ cl, make_realistic_contacts pop_size ages contacts school_ages work_ages draws
           chosen_s chosen_w = Some (Ok (cl, ["h"; "s"; "w"]))) ∧
  ∀ cl keys,
    make_realistic_contacts pop_size ages contacts school_ages work_ages draws
      chosen_s chosen_w = Some (Ok (cl, keys)) →
    keys = ["h"; "s"; "w"] ∧ length cl = pop_size ∧
    (∀ k entry, cl !! k = Some entry →
       ∀ key, is_Some (entry !! key) ↔ key ∈ ["h"; "s"; "w"]) ∧
    (∀ i j, j ∈ neighbors cl i "h" ↔ i ∈ neighbors cl j "h") ∧
    (∀ i, (i ∉ neighbors cl i "h") ∧ NoDup (neighbors cl i "h")) ∧
    (∀ i j, j ∈ neighbors cl i "h" → (j < pop_size)%nat) ∧
    (∀ i ind, band_inds ages school_ages default_school_ages !! i = Some ind →
       neighbors cl ind "s" = chosen_s i "s") ∧
    (∀ k, k ∉ band_inds ages school_ages default_school_ages →
       neighbors cl k "s" = []) ∧
    (∀ i ind, band_inds ages work_ages default_work_ages !! i = Some ind →
       neighbors cl ind "w" = chosen_w i "w") ∧
    (∀ k, k ∉ band_inds ages work_ages default_work_ages →
       neighbors cl k "w" = []).
Proof.
  split; [apply make_realistic_contacts_returns|].
  intros cl keys Hm.
  destruct (make_realistic_contacts_facts _ _ _ _ _ _ _ _ _ _ Hm)
    as (s_inds & w_inds & Hs & Hw & -> & Hlen & Hkeys & [Os On Od] & [Cb _ _] & Hrest).
  unfold band_inds. rewrite Hs, Hw.
  split; [done|]. split; [exact Hlen|]. split; [exact Hkeys|]. split; [exact Os|].
  split; [intros i; split; [apply On|apply Od]|].
  split; [intros i j Hj; by destruct (Cb i j Hj)|].
  exact Hrest.
Qed.

(** X19. Who has school and work contacts in the result of
    [make_realistic_contacts]: only agents whose age lies in the band,
    lower bound included and upper bound excluded; when the school band
    ends no later than the work band starts (as the default bands
    [[6, 18]] and [[18, 65]] do), nobody has both.  The contacts listed are
    whatever [choose] drew for a population of the size of the group: when
    [choose] keeps below its [max_n], every school contact is a position
    within the school-age group, not mapped back to a position of the
    population. *)
Theorem realistic_contacts_age_bands (pop_size : nat) (ages : list Qc)
    (contacts : gmap string Qc) (school_ages work_ages : option (list Qc))
    (draws : list nat) (chosen_s chosen_w : nat → string → list nat)
    (cl : list (gmap string (list nat))) (keys : list string) :
  make_realistic_contacts pop_size ages contacts school_ages work_ages draws
    chosen_s chosen_w = Some (Ok (cl, keys)) →
  ∃ s_lo s_hi w_lo w_hi,
    default default_school_ages school_ages !! 0%nat = Some s_lo ∧
    default default_school_ages school_ages !! 1%nat = Some s_hi ∧
    default default_work_ages work_ages !! 0%nat = Some w_lo ∧
    default default_work_ages work_ages !! 1%nat = Some w_hi ∧
    (∀ k, neighbors cl k "s" ≠ [] →
       ∃ age, ages !! k = Some age ∧ (s_lo ≤ age)%Qc ∧ (age < s_hi)%Qc) ∧
    (∀ k, neighbors cl k "w" ≠ [] →
       ∃ age, ages !! k = Some age ∧ (w_lo ≤ age)%Qc ∧ (age < w_hi)%Qc) ∧
    ((s_hi ≤ w_lo)%Qc → ∀ k, neighbors cl k "s" = [] ∨ neighbors cl k "w" = []) ∧
    ((∀ p, Forall (λ j, (j < length (band_inds ages school_ages default_school_ages))%nat)
             (chosen_s p "s")) →
     ∀ k j, j ∈ neighbors cl k "s" →
       (j < length (band_inds ages school_ages default_school_ages))%nat).
Proof.
  intros Hm.
  destruct (make_realistic_contacts_facts _ _ _ _ _ _ _ _ _ _ Hm)
    as (s_inds & w_inds & Hs & Hw & _ & _ & _ & _ & _ & Hs_in & Hs_out & Hw_in & Hw_out).
  destruct (age_inds_spec _ _ _ Hs) as (s_lo & s_hi & Hs_lo & Hs_hi & Hs_spec).
  destruct (age_inds_spec _ _ _ Hw) as (w_lo & w_hi & Hw_lo & Hw_hi & Hw_spec).
  exists s_lo, s_hi, w_lo, w_hi. repeat (split; [done|]).
  split; [|split; [|split]].
  - intros k Hk. apply Hs_spec. destruct (decide (k ∈ s_inds)); [done|].
    by rewrite Hs_out in Hk.
  - intros k Hk. apply Hw_spec. destruct (decide (k ∈ w_inds)); [done|].
    by rewrite Hw_out in Hk.
  - intros Hbands k.
    destruct (decide (k ∈ s_inds)) as [Hks|Hks]; [|left; by apply Hs_out].
    destruct (decide (k ∈ w_inds)) as [Hkw|Hkw]; [|right; by apply Hw_out].
    exfalso.
    destruct (proj1 (Hs_spec k) Hks) as (age & Hage & _ & Hlt).
    destruct (proj1 (Hw_spec k) Hkw) as (age' & Hage' & Hle & _).
    assert (age' = age) as -> by congruence.
    apply (Qcle_not_lt _ _ Hle). by eapply Qclt_le_trans.
  - unfold band_inds. rewrite Hs. intros Hchosen k j Hj.
    destruct (decide (k ∈ s_inds)) as [Hks|Hks].
    + apply list_elem_of_lookup_1 in Hks as [i Hi].
      rewrite (Hs_in i k Hi) in Hj.
      pose proof (Hchosen i) as Hall. rewrite Forall_forall in Hall. by apply Hall.
    + rewrite Hs_out in Hj by done. by apply elem_of_nil in Hj.
Qed.

End RealisticFacts.

Lemma realistic_contacts_layers_witness :
  ∃ cl,
    Realistic.make_realistic_contacts 3 ages_example ∅ None None household_draws
      chosen_example chosen_example = Some (Ok (cl, ["h"; "s"; "w"])) ∧
    length cl = 3%nat.
Proof.
  destruct (realistic_contacts_layers 3 ages_example ∅ None None household_draws
              chosen_example chosen_example) as [Hret Hfacts].
  destruct Hret as [cl Hcl].
  - simpl. lia.
  - simpl. lia.
  - simpl. lia.
  - repeat constructor.
  - simpl. lia.
  - exists cl. split; [exact Hcl|]. exact (proj1 (proj2 (Hfacts cl _ Hcl))).
Defined.

Lemma realistic_contacts_age_bands_witness :
  ∃ cl keys,
    Realistic.make_realistic_contacts 3 ages_example ∅ None None household_draws
      chosen_example chosen_example = Some (Ok (cl, keys)) ∧
    ∀ k, Population.neighbors cl k "s" = [] ∨ Population.neighbors cl k "w" = [].
Proof.
  destruct (Realistic.make_realistic_contacts 3 ages_example ∅ None None household_draws
              chosen_example chosen_example) as [[[cl keys]|e]|] eqn:Hm;
    [|vm_compute in Hm; discriminate Hm|vm_compute in Hm; discriminate Hm].
  exists cl, keys. split; [reflexivity|].
  destruct (realistic_contacts_age_bands _ _ _ _ _ _ _ _ _ _ Hm)
    as (s_lo & s_hi & w_lo & w_hi & _ & Hs_hi & Hw_lo & _ & _ & _ & Hboth & _).
  simpl in Hs_hi, Hw_lo. injection Hs_hi as <-. injection Hw_lo as <-.
  apply Hboth. apply Qcle_refl.
Defined.

(** ** [make_synthpop] *)

Lemma mapM_res_Ok {A B} (f : A → res B) (l : list A) (ks : list B) :
  mapM f l = Ok ks ↔ Forall2 (λ x y, f x = Ok y) l ks.
Proof.
  revert ks. induction l as [|x l IH]; intros ks; simpl.
  - split; [intros [= <-]; constructor|]. by intros ->%Forall2_nil_inv_l.
  - split.
    + intros H. apply bind_Ok in H as (y & Hy & H).
      apply bind_Ok in H as (k & Hk & [= <-]). constructor; [done|]. by apply IH.
    + intros (y & k & Hy & Hk & ->)%Forall2_cons_inv_l.
      rewrite Hy. simpl. apply IH in Hk. by rewrite Hk.
Qed.

Lemma mapM_res_Raise {A B} (f : A → res B) (l : list A) (e : exn) :
  mapM f l = Raise e → ∃ x, x ∈ l ∧ f x = Raise e.
Proof.
  induction l as [|x l IH]; simpl; [done|].
  destruct (f x) as [y|e'] eqn:Hx; simpl.
  - destruct (mapM f l) as [k|e'] eqn:Hl; simpl; [done|].
    intros [= ->]. destruct (IH eq_refl) as (x' & Hin & Hx'). exists x'. split; [by right|done].
  - intros [= ->]. exists x. split; [by left|done].
Qed.

Lemma mapM_res_total {A B} (f : A → res B) (l : list A) :
  (∀ x, x ∈ l → ∃ y, f x = Ok y) → ∃ ks, mapM f l = Ok ks.
Proof.
  intros Hall. destruct (mapM f l) as [ks|e] eqn:Hm; [by exists ks|].
  apply mapM_res_Raise in Hm as (x & Hin & Hx).
  destruct (Hall x Hin) as [y Hy]. congruence.
Qed.

Section SynthpopFacts.
Import Synthpop.

Lemma uid_mapping_from_lookup (u : nat) (uids : list string) (m : gmap string nat)
    (x : string) (j : nat) :
  NoDup uids →
  uid_mapping_from u uids m !! x = Some j ↔
  (∃ i, uids !! i = Some x ∧ j = (u + i)%nat) ∨ ((x ∉ uids) ∧ m !! x = Some j).
Proof.
  revert u m. induction uids as [|uid uids IH]; intros u m Hnd; simpl.
  - split; [intros H; right; split; [apply not_elem_of_nil|done]|].
    intros [(i & Hi & _)|[_ H]]; [done|done].
  - apply NoDup_cons in Hnd as [Hnotin Hnd]. rewrite (IH (S u) _ Hnd). split.
    + intros [(i & Hi & ->)|[Hx Hm]].
      * left. exists (S i). split; [done|lia].
      * apply lookup_insert_Some in Hm as [[<- <-]|[Hne Hm]].
        -- left. exists 0%nat. split; [done|lia].
        -- right. split; [|done]. rewrite not_elem_of_cons. by split.
    + intros [(i & Hi & ->)|[Hx Hm]].
      * destruct i as [|i]; simpl in Hi.
        -- injection Hi as ->. right. split; [done|].
           rewrite lookup_insert_eq. f_equal. lia.
        -- left. exists i. split; [done|lia].
      * rewrite not_elem_of_cons in Hx. destruct Hx as [Hne Hx].
        right. split; [done|]. by rewrite lookup_insert_ne.
Qed.

(** The mapping sends a uid to its position, and only population members
    have one. *)
Lemma uid_mapping_lookup (uids : list string) (x : string) (j : nat) :
  NoDup uids → uid_mapping uids !! x = Some j ↔ uids !! j = Some x.
Proof.
  intros Hnd. unfold uid_mapping. rewrite uid_mapping_from_lookup by done.
  split.
  - intros [(i & Hi & ->)|[_ H]]; [done|by rewrite lookup_empty in H].
  - intros H. left. by exists j.
Qed.

Lemma uid_mapping_is_Some (uids : list string) (x : string) :
  NoDup uids → is_Some (uid_mapping uids !! x) ↔ x ∈ uids.
Proof.
  intros Hnd. split.
  - intros [j Hj]. apply uid_mapping_lookup in Hj; [|done].
    by eapply list_elem_of_lookup_2.
  - intros [j Hj]%list_elem_of_lookup_1. exists j. by apply uid_mapping_lookup.
Qed.

Lemma key_mapping_inj (K K' k : string) :
  key_mapping !! K = Some k → key_mapping !! K' = Some k → K = K'.
Proof.
  unfold key_mapping. intros H H'.
  apply elem_of_list_to_map_2 in H, H'. unfold key_mapping_items in *.
  repeat (apply elem_of_cons in H as [H|H]; [injection H as -> ->|]);
    try (by apply elem_of_nil in H);
    repeat (apply elem_of_cons in H' as [H'|H']; [by injection H' as ->|]);
    by apply elem_of_nil in H'.
Qed.

Lemma convert_person_layers (mapping : gmap string nat)
    (layers : list (string * list string)) (acc entry : gmap string (list nat)) :
  NoDup layers.*1 →
  for_each (convert_layer mapping) layers acc = Ok entry →
  (∀ K us, (K, us) ∈ layers →
     ∃ k ints, key_mapping !! K = Some k ∧ entry !! k = Some ints ∧
               mapM (dict_getitem mapping) us = Ok ints) ∧
  (∀ k, (∀ K, K ∈ layers.*1 → key_mapping !! K ≠ Some k) → entry !! k = acc !! k).
Proof.
  revert acc. induction layers as [|[K0 us0] layers IH]; intros acc Hnd Hloop.
  - simpl in Hloop. injection Hloop as <-. split; [|done]. by intros K us ?%elem_of_nil.
  - rewrite fmap_cons in Hnd. apply NoDup_cons in Hnd as [Hnotin Hnd]. simpl in Hnotin.
    cbn [for_each] in Hloop. apply bind_Ok in Hloop as (acc1 & Hbody & Hloop).
    unfold convert_layer in Hbody. cbn [fst snd] in Hbody.
    apply bind_Ok in Hbody as (k0 & Hk0 & Hbody).
    apply bind_Ok in Hbody as (ints0 & Hints0 & [= <-]).
    unfold dict_getitem in Hk0.
    destruct (key_mapping !! K0) as [k0'|] eqn:HK0; [|done]. injection Hk0 as ->.
    destruct (IH _ Hnd Hloop) as [Hin Hout].
    assert (∀ K, K ∈ layers.*1 → key_mapping !! K ≠ Some k0) as Hfresh.
    { intros K HK HKk. assert (K = K0) as -> by by eapply key_mapping_inj. done. }
    split.
    + intros K us [[= -> ->]|HKus]%elem_of_cons; [|by apply Hin].
      exists k0, ints0. split; [done|]. split; [|done].
      rewrite (Hout k0 Hfresh). apply lookup_insert_eq.
    + intros k Hk. rewrite Hout.
      * apply lookup_insert_ne. intros ->. apply (Hk K0); [rewrite fmap_cons; left|done].
      * intros K HK. apply Hk. rewrite fmap_cons. by right.
Qed.

Lemma convert_layer_raises (mapping : gmap string nat) (acc : gmap string (list nat))
    (layer : string * list string) (e : exn) :
  convert_layer mapping acc layer = Raise e →
  e = KeyError ∧
  (key_mapping !! layer.1 = None ∨
   ∃ contact, contact ∈ layer.2 ∧ mapping !! contact = None).
Proof.
  unfold convert_layer. intros Hraise.
  destruct (dict_getitem key_mapping layer.1) as [k|e0] eqn:Hd; simpl in Hraise.
  - destruct (mapM (dict_getitem mapping) layer.2) as [ints|e'] eqn:Hm;
      simpl in Hraise; [done|].
    injection Hraise as Heq. subst e'.
    apply mapM_res_Raise in Hm as (contact & Hin & Hc). unfold dict_getitem in Hc.
    destruct (mapping !! contact) eqn:Hl; [done|]. injection Hc as Heq.
    split; [done|]. right. by exists contact.
  - injection Hraise as Heq. subst e0. unfold dict_getitem in Hd.
    destruct (key_mapping !! layer.1) eqn:Hk; [done|]. injection Hd as Heq.
    split; [done|]. by left.
Qed.

Lemma for_each_raises {A S} (body : S → A → res S) (xs : list A) (s : S) (e : exn) :
  for_each body xs s = Raise e → ∃ s1 x, x ∈ xs ∧ body s1 x = Raise e.
Proof.
  revert s. induction xs as [|x xs IH]; intros s; simpl; [done|].
  destruct (body s x) as [s1|e'] eqn:Hb; simpl.
  - intros (s2 & y & Hy & Hr)%IH. exists s2, y. split; [by right|done].
  - intros [= ->]. exists s, x. split; [by left|done].
Qed.

(** X20. [make_synthpop] replaces uids by positions and can be undone:
    when it returns, there is one entry per member of the population, in
    its order; every layer ['H'], ['S'], ['W'], ['C'] of a member is found
    under the lower-case key, a key is present only if the member had that
    layer, and each listed position, looked up in the returned [uid] list,
    gives back the uid that was listed.  [contact_keys] is always
    [['h', 's', 'w', 'c']].  It returns exactly when the population names
    only these four layers and only its own members; otherwise it raises
    [KeyError]. *)
Theorem synthpop_uid_round_trip (population : list (string * sp_person)) :
  NoDup population.*1 →
  (∀ item, item ∈ population → NoDup (sp_contacts item.2).*1) →
  (well_formed population ↔ ∃ pd, make_synthpop population = Ok pd) ∧
  (∀ e, make_synthpop population = Raise e → e = KeyError) ∧
  ∀ pd, make_synthpop population = Ok pd →
    uid pd = population.*1 ∧
    age pd = (λ item, sp_age item.2) <$> population ∧
    sex pd = (λ item, sp_sex item.2) <$> population ∧
    length (contacts pd) = length population ∧
    contact_keys pd = ["h"; "s"; "w"; "c"] ∧
    ∀ p item entry, population !! p = Some item → contacts pd !! p = Some entry →
      (∀ K us, (K, us) ∈ sp_contacts item.2 →
         ∃ k ints, key_mapping !! K = Some k ∧ entry !! k = Some ints ∧
                   length ints = length us ∧
                   ∀ n j, ints !! n = Some j → uid pd !! j = us !! n) ∧
      (∀ k, is_Some (entry !! k) →
         ∃ K, K ∈ (sp_contacts item.2).*1 ∧ key_mapping !! K = Some k).
Proof.
  intros Hnd Hlayers.
  assert (∀ pd, make_synthpop population = Ok pd →
            uid pd = population.*1 ∧
            contact_keys pd = ["h"; "s"; "w"; "c"] ∧
            age pd = (λ item, sp_age item.2) <$> population ∧
            sex pd = (λ item, sp_sex item.2) <$> population ∧
            Forall2 (λ item entry,
                       convert_person (uid_mapping population.*1) item.2 = Ok entry)
                    population (contacts pd)) as Hinv.
  { intros pd Hm. unfold make_synthpop in Hm.
    apply bind_Ok in Hm as (cs & Hcs & [= <-]). simpl.
    repeat (split; [done|]). by apply mapM_res_Ok in Hcs. }
  assert (∀ pd, make_synthpop population = Ok pd →
            ∀ p item entry, population !! p = Some item → contacts pd !! p = Some entry →
              (∀ K us, (K, us) ∈ sp_contacts item.2 →
                 ∃ k ints, key_mapping !! K = Some k ∧ entry !! k = Some ints ∧
                           Forall2 (λ u j, population.*1 !! j = Some u) us ints) ∧
              (∀ k, is_Some (entry !! k) →
                 ∃ K, K ∈ (sp_contacts item.2).*1 ∧ key_mapping !! K = Some k))
    as Hentries.
  { intros pd Hm p item entry Hp He.
    destruct (Hinv pd Hm) as (_ & _ & _ & _ & Hall).
    pose proof (Forall2_lookup_lr _ _ _ _ _ _ Hall Hp He) as Hconv.
    unfold convert_person in Hconv.
    destruct (convert_person_layers _ _ _ _
                (Hlayers item (list_elem_of_lookup_2 _ _ _ Hp)) Hconv) as [Hin Hout].
    split.
    - intros K us HK. destruct (Hin K us HK) as (k & ints & Hk & Hints & Hmap).
      exists k, ints. repeat (split; [done|]).
      apply mapM_res_Ok in Hmap.
      eapply Forall2_impl; [exact Hmap|]. intros u j Huj. simpl in Huj.
      unfold dict_getitem in Huj.
      destruct (uid_mapping population.*1 !! u) as [j'|] eqn:Hu; [|done].
      injection Huj as ->. by apply uid_mapping_lookup in Hu.
    - intros k Hk.
      destruct (decide (Exists (λ K, key_mapping !! K = Some k) (sp_contacts item.2).*1))
        as [Hyes|Hno]; [by apply Exists_exists in Hyes|].
      rewrite Hout, lookup_empty in Hk; [by destruct Hk|].
      intros K HK HKk. apply Hno, Exists_exists. by exists K. }
  split; [split|split].
  - intros Hwf. unfold make_synthpop.
    destruct (mapM_res_total (λ item, convert_person (uid_mapping population.*1) item.2)
                population) as [cs Hcs]; [|rewrite Hcs; by eexists].
    intros item Hitem. unfold convert_person.
    destruct (for_each _ (sp_contacts item.2) ∅) as [entry|e] eqn:Hloop; [by exists entry|].
    apply for_each_raises in Hloop as (acc & layer & Hlayer & Hraise).
    apply convert_layer_raises in Hraise as [_ Hwhy].
    destruct (Hwf item layer Hitem Hlayer) as [[k Hk] Hmembers].
    destruct Hwhy as [Hnone|(contact & Hc & Hnone)]; [congruence|].
    apply Hmembers, (uid_mapping_is_Some _ _ Hnd) in Hc as [j Hj]. congruence.
  - intros [pd Hm] item [K us] Hitem Hlayer. simpl.
    apply list_elem_of_lookup_1 in Hitem as [p Hp].
    destruct (Hinv pd Hm) as (_ & _ & _ & _ & Hall).
    destruct (Forall2_lookup_l _ _ _ _ _ Hall Hp) as (entry & He & _).
    destruct (Hentries pd Hm p item entry Hp He) as [Hin _].
    destruct (Hin K us Hlayer) as (k & ints & Hk & _ & Hmap).
    split; [by exists k|]. intros contact Hc.
    apply list_elem_of_lookup_1 in Hc as [n Hn].
    destruct (Forall2_lookup_l _ _ _ _ _ Hmap Hn) as (j & _ & Hj).
    by eapply list_elem_of_lookup_2.
  - intros e Hm. unfold make_synthpop in Hm.
    destruct (mapM _ population) as [cs|e'] eqn:Hcs; [done|]. simpl in Hm.
    injection Hm as ->.
    apply mapM_res_Raise in Hcs as (item & _ & Hconv).
    apply for_each_raises in Hconv as (acc & layer & _ & Hraise).
    by apply convert_layer_raises in Hraise as [-> _].
  - intros pd Hm. destruct (Hinv pd Hm) as (Hu & Hk & Ha & Hs & Hall).
    repeat (split; [done|]).
    split; [symmetry; by eapply Forall2_length|].
    split; [done|].
    intros p item entry Hp He.
    destruct (Hentries pd Hm p item entry Hp He) as [Hin Hkeys].
    split; [|done].
    intros K us HK. destruct (Hin K us HK) as (k & ints & HKk & Hints & Hmap).
    exists k, ints. repeat (split; [done|]).
    split; [symmetry; by eapply Forall2_length|].
    intros n j Hn. rewrite Hu.
    destruct (Forall2_lookup_r _ _ _ _ _ Hmap Hn) as (u & Hun & Hju).
    by rewrite Hun.
Qed.

End SynthpopFacts.

Lemma synthpop_uid_round_trip_witness :
  NoDup synthpop_example.*1 ∧
  ∃ pd, Synthpop.make_synthpop synthpop_example = Ok pd ∧
        Synthpop.uid pd = ["a1f"; "b2e"] ∧
        Synthpop.contact_keys pd = ["h"; "s"; "w"; "c"].
Proof.
  assert (NoDup synthpop_example.*1) as Hnd
    by (apply (bool_decide_unpack _); vm_compute; exact I).
  assert (∀ item, item ∈ synthpop_example → NoDup (Synthpop.sp_contacts item.2).*1)
    as Hlayers.
  { intros item Hin. unfold synthpop_example in Hin.
    repeat (apply elem_of_cons in Hin as [ -> |Hin];
            [apply (bool_decide_unpack _); vm_compute; exact I|]).
    by apply elem_of_nil in Hin. }
  split; [exact Hnd|].
  destruct (Synthpop.make_synthpop synthpop_example) as [pd|e] eqn:Hm;
    [|vm_compute in Hm; discriminate Hm].
  exists pd. split; [reflexivity|].
  destruct (synthpop_uid_round_trip synthpop_example Hnd Hlayers) as (_ & _ & Hfacts).
  destruct (Hfacts pd Hm) as (Hu & _ & _ & _ & Hk & _).
  split; [exact Hu|exact Hk].
Defined.

(** ** [People] *)

Section PeopleFacts.
Import People.
Context {V : Type} `{!PersonAttrs V}.

Lemma consume_Ok (keep : bool → bool) (attr : string) (self kept : list Person) :
  consume keep attr self = Ok kept →
  ∃ vs, extract attr self = Ok vs ∧ length vs = length self ∧
        kept = (zip self vs ≫= λ pv, if keep (truthy pv.2) then [pv.1] else []).
Proof.
  revert kept. induction self as [|person rest IH]; intros kept; simpl.
  - intros [= <-]. by exists [].
  - intros H. apply bind_Ok in H as (v & Hv & H).
    apply bind_Ok in H as (kept' & Hk & [= <-]).
    destruct (IH kept' Hk) as (vs & Hvs & Hlen & ->).
    exists (v :: vs). unfold extract in *. simpl. rewrite Hv. simpl. rewrite Hvs. simpl.
    split; [done|]. split; [by rewrite Hlen|]. by destruct (keep (truthy v)).
Qed.

Lemma consume_extract (keep : bool → bool) (attr : string) (self : list Person)
    (vs : list V) :
  extract attr self = Ok vs →
  consume keep attr self
    = Ok (zip self vs ≫= λ pv, if keep (truthy pv.2) then [pv.1] else []).
Proof.
  revert vs. induction self as [|person rest IH]; intros vs; unfold extract; simpl.
  - by intros [= <-].
  - intros H. apply bind_Ok in H as (v & Hv & H).
    apply bind_Ok in H as (vs' & Hvs & [= <-]).
    rewrite Hv. simpl. rewrite (IH vs' Hvs). simpl. by destruct (keep (truthy v)).
Qed.

Lemma consume_raises (keep : bool → bool) (attr : string) (self : list Person) (e : exn) :
  consume keep attr self = Raise e → extract attr self = Raise e.
Proof.
  destruct (extract attr self) as [vs|e'] eqn:He.
  - by rewrite (consume_extract keep attr self vs He).
  - revert e' He. unfold extract. induction self as [|person rest IH]; simpl; [done|].
    intros e'. destruct (getattr person attr) as [v|e0]; simpl; [|congruence].
    destruct (mapM _ rest) as [vs|e1] eqn:Hm; simpl; [done|].
    intros [= <-]. destruct (consume keep attr rest) as [k|e2]; simpl; [|].
    + specialize (IH e1 eq_refl). done.
    + intros [= <-]. f_equal. specialize (IH e1 eq_refl eq_refl). congruence.
Qed.

Lemma partition_lengths (self : list Person) (vs : list V) :
  length vs = length self →
  (length (zip self vs ≫= λ pv, if id (truthy pv.2) then [pv.1] else []) +
   length (zip self vs ≫= λ pv, if negb (truthy pv.2) then [pv.1] else []))%nat
  = length self.
Proof.
  revert vs. induction self as [|person rest IH]; intros [|v vs] Hlen; simpl in *;
    try done.
  injection Hlen as Hlen. specialize (IH vs Hlen).
  rewrite !length_app. unfold id, mbind in *. destruct (truthy v); simpl; lia.
Qed.

(** X21. The two filters of [People] split the list: [count_in(attr)] and
    [count_out(attr)] either both raise (somebody lacks the attribute) or
    add up to the number of people; what [filter_in] and [filter_out] keep
    are sublists of the people, in their order, that together hold
    everybody once; and [keys()] has one position for every value of
    [extract(attr)]. *)
Theorem people_filters_partition (attr : string) (self : list Person) :
  (∀ e, count_in attr self = Raise e ↔ count_out attr self = Raise e) ∧
  (∀ n, count_in attr self = Ok n →
     ∃ m, count_out attr self = Ok m ∧ (n + m)%nat = length self) ∧
  (∀ kept_in kept_out,
     filter_in attr self = Ok kept_in → filter_out attr self = Ok kept_out →
     sublist kept_in self ∧ sublist kept_out self ∧ kept_in ++ kept_out ≡ₚ self) ∧
  (∀ vs, extract attr self = Ok vs → length (keys self) = length vs).
Proof.
  assert (∀ keep keep' e, consume keep attr self = Raise e →
                          consume keep' attr self = Raise e) as Hraise.
  { intros keep keep' e He. apply consume_raises in He.
    destruct (consume keep' attr self) as [k|e'] eqn:Hk.
    - apply consume_Ok in Hk as (vs & Hvs & _). congruence.
    - apply consume_raises in Hk. congruence. }
  split; [|split; [|split]].
  - intros e. unfold count_in, count_out, filter_in, filter_out. split; intros H.
    + destruct (consume id attr self) as [k|e'] eqn:Hk; [done|]. injection H as ->.
      by rewrite (Hraise id negb e Hk).
    + destruct (consume negb attr self) as [k|e'] eqn:Hk; [done|]. injection H as ->.
      by rewrite (Hraise negb id e Hk).
  - intros n Hn. unfold count_in, count_out, filter_in, filter_out in *.
    apply bind_Ok in Hn as (kept & Hk & [= <-]).
    apply consume_Ok in Hk as (vs & Hvs & Hlen & ->).
    rewrite (consume_extract negb attr self vs Hvs). simpl.
    eexists. split; [done|]. by apply partition_lengths.
  - intros kept_in kept_out Hin Hout. unfold filter_in, filter_out in *.
    apply consume_Ok in Hin as (vs & Hvs & Hlen & ->).
    rewrite (consume_extract negb attr self vs Hvs) in Hout. injection Hout as <-.
    clear Hvs Hraise. revert vs Hlen.
    induction self as [|person rest IH]; intros [|v vs] Hlen; simpl in *; try done.
    injection Hlen as Hlen. destruct (IH vs Hlen) as (S1 & S2 & P).
    unfold id in *. destruct (truthy v); simpl.
    + split; [by apply sublist_skip|]. split; [by apply sublist_cons|].
      by apply Permutation_skip.
    + split; [by apply sublist_cons|]. split; [by apply sublist_skip|].
      rewrite <- Permutation_middle. by apply Permutation_skip.
  - intros vs Hvs. unfold keys. rewrite length_seq.
    destruct (consume_Ok id attr self _ (consume_extract id attr self vs Hvs))
      as (vs' & Hvs' & Hlen & _). congruence.
Qed.

End PeopleFacts.

Lemma people_filters_partition_witness :
  People.count_in "infectious" [known_case; healthy; healthy] = Ok 1%nat ∧
  ∃ m, People.count_out "infectious" [known_case; healthy; healthy] = Ok m ∧
       (1 + m)%nat = 3%nat.
Proof.
  split; [reflexivity|].
  exact (proj1 (proj2 (people_filters_partition "infectious"
                         [known_case; healthy; healthy])) 1%nat eq_refl).
Defined.

(** ** [parameters.py] *)

Section ParametersFacts.
Import Parameters.

Lemma set_contacts_Ok (pars : gmap string pval) (u : pval) :
  pars !! "use_layers" = Some u →
  set_contacts pars =
    Ok (<["beta_layers" := PLayers (if pval_truthy u then layered_beta else all_beta)]>
          (<["contacts" := PLayers (if pval_truthy u then layered_contacts
                                    else all_contacts)]> pars)).
Proof.
  intros Hu. unfold set_contacts, dict_getitem. rewrite Hu. simpl.
  by destruct (pval_truthy u).
Qed.

Lemma same_layers (u : bool) (layer : string) :
  is_Some ((if u then layered_contacts else all_contacts) !! layer) ↔
  is_Some ((if u then layered_beta else all_beta) !! layer).
Proof.
  destruct u; unfold layered_contacts, layered_beta, all_contacts, all_beta, assign;
    simpl; rewrite !lookup_insert_is_Some, !lookup_empty; tauto.
Qed.

(** X22. [set_contacts] needs the key ['use_layers'] (else [KeyError]).
    It replaces ['contacts'] and ['beta_layers'], whatever they held, and
    touches no other key; the two always have the same layers, with the
    community layer ['c'] exactly when layers are in use; and calling it
    again changes nothing. *)
Theorem set_contacts_consistent (pars : gmap string pval) :
  (pars !! "use_layers" = None → set_contacts pars = Raise KeyError) ∧
  ∀ u, pars !! "use_layers" = Some u →
    ∃ pars' contacts beta_layers,
      set_contacts pars = Ok pars' ∧
      pars' !! "contacts" = Some (PLayers contacts) ∧
      pars' !! "beta_layers" = Some (PLayers beta_layers) ∧
      (∀ layer, is_Some (contacts !! layer) ↔ is_Some (beta_layers !! layer)) ∧
      (is_Some (contacts !! "c") ↔ pval_truthy u = true) ∧
      (∀ key, key ≠ "contacts" → key ≠ "beta_layers" → pars' !! key = pars !! key) ∧
      set_contacts pars' = Ok pars'.
Proof.
  split.
  - intros Hnone. unfold set_contacts, dict_getitem. by rewrite Hnone.
  - intros u Hu. rewrite (set_contacts_Ok pars u Hu).
    eexists _, _, _. split; [reflexivity|].
    split; [by rewrite lookup_insert_ne, lookup_insert_eq|].
    split; [by rewrite lookup_insert_eq|].
    split; [apply same_layers|]. split; [|split].
    + destruct (pval_truthy u); unfold layered_contacts, all_contacts, assign; simpl;
        rewrite !lookup_insert_is_Some, !lookup_empty.
      * split; [done|]. intros _. by left.
      * split; [|done]. intros [?|[_ [? ?]]]; done.
    + intros key H1 H2. by rewrite !lookup_insert_ne.
    + rewrite (set_contacts_Ok _ u) by by rewrite !lookup_insert_ne.
      f_equal. apply map_eq. intros key.
      destruct (decide (key = "beta_layers")) as [ -> |Hb];
        [by rewrite !lookup_insert_eq|].
      rewrite !(lookup_insert_ne _ "beta_layers") by congruence.
      destruct (decide (key = "contacts")) as [ -> |Hc];
        [by rewrite !lookup_insert_eq|].
      by rewrite !lookup_insert_ne by congruence.
Qed.

Lemma defaults_named (prog_by_age use_layers : bool) :
  defaults prog_by_age use_layers !! "use_layers" = Some (PBool use_layers) ∧
  defaults prog_by_age use_layers !! "prog_by_age" = Some (PBool prog_by_age) ∧
  defaults prog_by_age use_layers !! "prognoses" = Some PNone.
Proof. by destruct prog_by_age, use_layers. Qed.

(** X23. [make_pars] never fails.  A keyword argument overrides the
    default of the same name and new names are added, with two
    exceptions: ['contacts'] and ['beta_layers'] are always the ones that
    go with [use_layers], whatever the caller passed for them, and
    ['prognoses'] is recomputed from [prog_by_age] when [set_prognoses] is
    set.  Every other name keeps its default. *)
Theorem make_pars_overrides (set_prognoses prog_by_age use_layers : bool)
    (kwargs : gmap string pval) :
  kwargs !! "use_layers" = None → kwargs !! "prog_by_age" = None →
  ∃ pars,
    make_pars set_prognoses prog_by_age use_layers kwargs = Ok pars ∧
    pars !! "contacts"
      = Some (PLayers (if use_layers then layered_contacts else all_contacts)) ∧
    pars !! "beta_layers"
      = Some (PLayers (if use_layers then layered_beta else all_beta)) ∧
    pars !! "prognoses"
      = Some (if set_prognoses then PPrognoses (get_prognoses prog_by_age)
              else default PNone (kwargs !! "prognoses")) ∧
    (∀ key, key ≠ "contacts" → key ≠ "beta_layers" → key ≠ "prognoses" →
       pars !! key = match kwargs !! key with
                     | Some v => Some v
                     | None => defaults prog_by_age use_layers !! key
                     end).
Proof.
  intros Hu Hp. destruct (defaults_named prog_by_age use_layers) as (Du & Dp & Dn).
  unfold make_pars.
  rewrite (set_contacts_Ok _ (PBool use_layers))
    by (by rewrite lookup_union_r). cbn [mbind res_bind pval_truthy].
  assert (∀ key, (kwargs ∪ defaults prog_by_age use_layers) !! key
                 = match kwargs !! key with
                   | Some v => Some v
                   | None => defaults prog_by_age use_layers !! key
                   end) as Hunion.
  { intros key. destruct (kwargs !! key) as [v|] eqn:Hk.
    - by apply lookup_union_Some_l.
    - by apply lookup_union_r. }
  destruct set_prognoses.
  - unfold dict_getitem. rewrite !lookup_insert_ne by done. rewrite Hunion, Hp, Dp.
    cbn [mbind res_bind pval_truthy]. eexists. split; [reflexivity|].
    split; [rewrite !lookup_insert_ne by done; apply lookup_insert_eq|].
    split; [rewrite !lookup_insert_ne by done; apply lookup_insert_eq|].
    split; [apply lookup_insert_eq|].
    intros key H1 H2 H3. rewrite !lookup_insert_ne by done. apply Hunion.
  - eexists. split; [reflexivity|].
    split; [rewrite !lookup_insert_ne by done; apply lookup_insert_eq|].
    split; [apply lookup_insert_eq|].
    split.
    + rewrite !lookup_insert_ne by done. rewrite Hunion.
      destruct (kwargs !! "prognoses"); [done|by rewrite Dn].
    + intros key H1 H2 H3. rewrite !lookup_insert_ne by done. apply Hunion.
Qed.


End ParametersFacts.

Lemma set_contacts_consistent_witness :
  ∃ pars',
    Parameters.set_contacts (Parameters.defaults true false) = Ok pars' ∧
    Parameters.set_contacts pars' = Ok pars'.
Proof.
  destruct (proj2 (set_contacts_consistent (Parameters.defaults true false))
              (Parameters.PBool false) eq_refl)
    as (pars' & contacts & beta_layers & Hset & _ & _ & _ & _ & _ & Hagain).
  exists pars'. split; [exact Hset|exact Hagain].
Defined.

Lemma make_pars_overrides_witness :
  ∃ pars,
    Parameters.make_pars false true false kwargs_example = Ok pars ∧
    pars !! "contacts" = Some (Parameters.PLayers Parameters.all_contacts).
Proof.
  destruct (make_pars_overrides false true false kwargs_example eq_refl eq_refl)
    as (pars & Hmake & Hcontacts & _).
  exists pars. split; [exact Hmake|exact Hcontacts].
Defined.
